(** * Monolith runtime: logical memory pool, metric registry, cooperative scheduler

    A shallow embedding of [monolith/memory.py], [monolith/metrics.py],
    [monolith/models.py], [monolith/ipc.py] and [monolith/scheduler.py].

    Python objects that are mutated in place are modelled by explicit state
    passing: every method is a computation in a state-and-exception monad
    whose [Raise] outcome keeps the state reached at the moment of the
    [raise] statement, exactly as a Python exception leaves the object.

    Conventions
    - Python [int] is [Z].
    - Timestamps ([time.time()], [created_at], [deadline]) and metric values
      are Python floats in the source; they are modelled as [Z] (a fixed
      tick of time, integer-valued metric amounts), on which float
      arithmetic and comparison are exact.
    - [dict] is stdpp's [gmap]; [bytearray] / [bytes] are [list byte].
    - What the interpreter does with [bytearray(size)] is a parameter of the
      pool ([memory.Host]): it provides the buffer or raises [OverflowError]
      or [MemoryError], as a function of [size].
    - An exception raised inside a step hook is either an instance of
      [Exception] or not ([SystemExit], [KeyboardInterrupt]); [except
      Exception] catches the former only.
    - log calls have no effect on any modelled state and are omitted. *)

From stdpp Require Import gmap strings list fin_maps.
From Stdlib Require Import ZArith.
From Stdlib.Strings Require Import Byte.

Open Scope Z_scope.

(** ** State and exception monad *)

Inductive outcome (E A : Type) : Type :=
  | Return (a : A)
  | Raise (e : E).
Arguments Return {E A} a.
Arguments Raise {E A} e.

Definition stexn (S E A : Type) : Type := S -> S * outcome E A.

#[export] Instance stexn_ret S E : MRet (stexn S E) :=
  fun A a s => (s, Return a).

#[export] Instance stexn_bind S E : MBind (stexn S E) :=
  fun A B f m s =>
    match m s with
    | (s', Return a) => f a s'
    | (s', Raise e) => (s', Raise e)
    end.

Definition get {S E} : stexn S E S := fun s => (s, Return s).
Definition modify {S E} (f : S -> S) : stexn S E unit := fun s => (f s, Return tt).
Definition raise {S E A} (e : E) : stexn S E A := fun s => (s, Raise e).

(** [try: body except C as exc: handler(exc)], where [caught] tells the
    exceptions that are instances of the class [C]; any other exception
    passes through the statement. *)
Definition try_except {S E A} (caught : E -> bool) (body : stexn S E A)
    (handler : E -> stexn S E A) : stexn S E A :=
  fun s =>
    match body s with
    | (s', Return a) => (s', Return a)
    | (s', Raise e) => if caught e then handler e s' else (s', Raise e)
    end.

(** [try: body finally: cleanup].  The cleanup always runs; when it returns,
    the outcome of the body (a value or a pending exception) is restored. *)
Definition try_finally {S E A} (body : stexn S E A) (cleanup : stexn S E unit)
  : stexn S E A :=
  fun s =>
    match body s with
    | (s', o) =>
        match cleanup s' with
        | (s'', Return _) => (s'', o)
        | (s'', Raise e) => (s'', Raise e)
        end
    end.

Ltac unfold_stexn :=
  unfold mbind, stexn_bind, mret, stexn_ret, get, modify, raise,
    try_except, try_finally in *.

(** ** Python sequence helpers *)

(** Normalisation of one slice bound against a sequence of length [len]. *)
Definition slice_index (len i : Z) : Z :=
  if i <? 0 then Z.max 0 (i + len) else Z.min i len.

(** [l[a:b]] *)
Definition slice {A} (l : list A) (a b : Z) : list A :=
  let len := Z.of_nat (length l) in
  let a' := slice_index len a in
  let b' := slice_index len b in
  take (Z.to_nat (b' - a')) (drop (Z.to_nat a') l).

(** [l[a:b] = data] on a [bytearray] *)
Definition slice_assign {A} (l : list A) (a b : Z) (data : list A) : list A :=
  let len := Z.of_nat (length l) in
  let a' := slice_index len a in
  let b' := Z.max a' (slice_index len b) in
  take (Z.to_nat a') l ++ data ++ drop (Z.to_nat b') l.

(** ** monolith/memory.py *)

Module memory.

(** The message of a [MemoryErrorLogical], kept as the data it is built from. *)
Inductive Fault : Type :=
  | SizeNotPositive
  | OutOfLogicalMemory (need free : Z)
  | AlreadyExists (region_id : string)
  | UnknownRegion (region_id : string)
  | ReadOnly (region_id : string)
  | OutOfBounds (offset length region_size : Z)
  | OwnerMismatch (owner requester : string).

(** The exceptions with which the interpreter can answer [bytearray(size)]:
    [OverflowError] when [size] does not fit an index ([size > sys.maxsize]),
    [MemoryError] when it cannot provide the bytes. *)
Inductive HostError : Type :=
  | OverflowError
  | MemoryError.

Inductive Exn : Type :=
  | MemoryErrorLogical (why : Fault)
  | KeyError (key : string)
  | HostFailure (e : HostError).

(** The interpreter in which the pool lives: [refuses size] is the exception
    that [bytearray(size)] raises for a positive [size], if it raises one. *)
Class Host : Type := {
  refuses : Z -> option HostError
}.

(** CPython on a 64-bit platform with memory to spare: [sys.maxsize] is
    [2**63 - 1]. *)
Definition cpython64 : Host :=
  {| refuses := fun size => if 2 ^ 63 - 1 <? size then Some OverflowError else None |}.

(** The [Region] dataclass ([id], [owner_task_id], [size], [read_only]).
    [alloc] always creates a region with [read_only = False]; the descriptor
    it returns is the object kept in the pool, so a client can set the flag
    on it afterwards: pools that hold read-only regions are ordinary
    states. *)
Record Region : Type := {
  r_id : string;
  r_owner_task_id : string;
  r_size : Z;
  r_read_only : bool
}.

Record MemoryPool : Type := {
  _max_bytes : Z;
  _used_bytes : Z;
  _regions : gmap string Region;
  _storage : gmap string (list byte)
}.

Local Abbreviation M := (stexn MemoryPool Exn).

(** [MemoryPool.__init__] *)
Definition new (max_bytes : Z) : MemoryPool :=
  {| _max_bytes := max_bytes; _used_bytes := 0; _regions := ∅; _storage := ∅ |}.

Definition set_used_bytes (f : Z -> Z) (p : MemoryPool) : MemoryPool :=
  {| _max_bytes := _max_bytes p; _used_bytes := f (_used_bytes p);
     _regions := _regions p; _storage := _storage p |}.

Definition set_regions (f : gmap string Region -> gmap string Region)
    (p : MemoryPool) : MemoryPool :=
  {| _max_bytes := _max_bytes p; _used_bytes := _used_bytes p;
     _regions := f (_regions p); _storage := _storage p |}.

Definition set_storage (f : gmap string (list byte) -> gmap string (list byte))
    (p : MemoryPool) : MemoryPool :=
  {| _max_bytes := _max_bytes p; _used_bytes := _used_bytes p;
     _regions := _regions p; _storage := f (_storage p) |}.

(** [del d[key]] on one of the two dictionaries of the pool *)
Definition del_regions (key : string) : M unit :=
  p ← get;
  match _regions p !! key with
  | Some _ => modify (set_regions (delete key))
  | None => raise (KeyError key)
  end.

Definition del_storage (key : string) : M unit :=
  p ← get;
  match _storage p !! key with
  | Some _ => modify (set_storage (delete key))
  | None => raise (KeyError key)
  end.

Definition _require_region (region_id : string) : M Region :=
  p ← get;
  match _regions p !! region_id with
  | Some region => mret region
  | None => raise (MemoryErrorLogical (UnknownRegion region_id))
  end.

Definition _ensure_bounds (region : Region) (offset length : Z) : M unit :=
  if (offset <? 0) || (length <? 0) || (r_size region <? offset + length)
  then raise (MemoryErrorLogical (OutOfBounds offset length (r_size region)))
  else mret tt.

Definition _ensure_owner (region : Region) (requester_task_id : string) : M unit :=
  if bool_decide (r_owner_task_id region ≠ requester_task_id)
  then raise (MemoryErrorLogical
                (OwnerMismatch (r_owner_task_id region) requester_task_id))
  else mret tt.

(** [bytearray(size)] for a positive [size]: [size] zero bytes. *)
Definition bytearray {host : Host} (size : Z) : M (list byte) :=
  match refuses size with
  | Some e => raise (HostFailure e)
  | None => mret (replicate (Z.to_nat size) x00)
  end.

Definition alloc {host : Host} (region_id owner_task_id : string) (size : Z)
  : M Region :=
  p ← get;
  if size <=? 0 then raise (MemoryErrorLogical SizeNotPositive) else
  if _max_bytes p <? _used_bytes p + size
  then raise (MemoryErrorLogical
                (OutOfLogicalMemory size (_max_bytes p - _used_bytes p))) else
  if bool_decide (is_Some (_regions p !! region_id))
  then raise (MemoryErrorLogical (AlreadyExists region_id)) else
  let region := {| r_id := region_id; r_owner_task_id := owner_task_id;
                   r_size := size; r_read_only := false |} in
  modify (set_regions <[region_id := region]>);;
  buf ← bytearray size;
  modify (set_storage <[region_id := buf]>);;
  modify (set_used_bytes (fun u => u + size));;
  mret region.

Definition free (region_id requester_task_id : string) : M unit :=
  region ← _require_region region_id;
  _ensure_owner region requester_task_id;;
  modify (set_used_bytes (fun u => u - r_size region));;
  del_regions region_id;;
  del_storage region_id.

Definition read (region_id : string) (offset length : Z) : M (list byte) :=
  region ← _require_region region_id;
  _ensure_bounds region offset length;;
  p ← get;
  match _storage p !! region_id with
  | Some buf => mret (slice buf offset (offset + length))
  | None => raise (KeyError region_id)
  end.

Definition write (region_id requester_task_id : string) (offset : Z)
    (data : list byte) : M unit :=
  region ← _require_region region_id;
  if r_read_only region
  then raise (MemoryErrorLogical (ReadOnly region_id)) else
  _ensure_owner region requester_task_id;;
  _ensure_bounds region offset (Z.of_nat (length data));;
  p ← get;
  match _storage p !! region_id with
  | Some buf =>
      modify (set_storage
                <[region_id :=
                    slice_assign buf offset (offset + Z.of_nat (length data)) data]>)
  | None => raise (KeyError region_id)
  end.

(** Introspection properties *)
Definition used_bytes (p : MemoryPool) : Z := _used_bytes p.
Definition free_bytes (p : MemoryPool) : Z := _max_bytes p - _used_bytes p.
Definition region_count (p : MemoryPool) : Z := Z.of_nat (size (_regions p)).

(** One call of the public API, and what it returns. *)
Inductive Call : Type :=
  | Alloc (region_id owner_task_id : string) (size : Z)
  | Free (region_id requester_task_id : string)
  | Read (region_id : string) (offset length : Z)
  | Write (region_id requester_task_id : string) (offset : Z) (data : list byte).

Inductive Value : Type :=
  | VRegion (region : Region)
  | VBytes (data : list byte)
  | VNone.

Definition call {host : Host} (c : Call) : M Value :=
  match c with
  | Alloc region_id owner size => region ← alloc region_id owner size; mret (VRegion region)
  | Free region_id requester => free region_id requester;; mret VNone
  | Read region_id offset length => data ← read region_id offset length; mret (VBytes data)
  | Write region_id requester offset data =>
      write region_id requester offset data;; mret VNone
  end.

(** A client that issues a sequence of calls and carries on after each one,
    whether it returned or raised. *)
Definition run {host : Host} (calls : list Call) (p : MemoryPool) : MemoryPool :=
  foldl (fun p c => fst (call c p)) p calls.

(** An outcome that is an exception of the interpreter. *)
Definition is_host_failure {A} (o : outcome Exn A) : bool :=
  match o with
  | Raise (HostFailure _) => true
  | _ => false
  end.

(** No call of the sequence ends in an exception of the interpreter. *)
Fixpoint host_provides {host : Host} (calls : list Call) (p : MemoryPool) : bool :=
  match calls with
  | [] => true
  | c :: rest =>
      negb (is_host_failure (snd (call c p))) && host_provides rest (fst (call c p))
  end.

(** Sum of the sizes of the regions currently in the pool. *)
Definition region_bytes (p : MemoryPool) : Z :=
  map_fold (fun _ region acc => r_size region + acc) 0 (_regions p).

End memory.

(** ** monolith/metrics.py *)

Module metrics.

(** The lock of each metric serialises the handler thread against the
    foreground; the value is the only state.  [name] and [help_text] are
    constants used by the text exposition only. *)
Record Counter : Type := { c_value : Z }.

Definition Counter_new : Counter := {| c_value := 0 |}.

(** [Counter.inc(amount=1.0)] *)
Definition Counter_inc (amount : Z) (c : Counter) : Counter :=
  {| c_value := c_value c + amount |}.

Record Gauge : Type := { g_value : Z }.

Definition Gauge_new : Gauge := {| g_value := 0 |}.
Definition Gauge_set (value : Z) (g : Gauge) : Gauge := {| g_value := value |}.
Definition Gauge_inc (amount : Z) (g : Gauge) : Gauge := {| g_value := g_value g + amount |}.
Definition Gauge_dec (amount : Z) (g : Gauge) : Gauge := {| g_value := g_value g - amount |}.

Record _MetricsRegistry : Type := {
  tasks_submitted : Counter;
  tasks_completed : Counter;
  tasks_failed : Counter;
  tasks_cancelled : Counter;
  scheduler_quantum_overruns : Counter;
  memory_used_bytes : Gauge;
  memory_region_count : Gauge;
  worker_queue_depth : Gauge
}.

(** The registry as the module creates it at import time. *)
Definition METRICS_init : _MetricsRegistry :=
  {| tasks_submitted := Counter_new; tasks_completed := Counter_new;
     tasks_failed := Counter_new; tasks_cancelled := Counter_new;
     scheduler_quantum_overruns := Counter_new;
     memory_used_bytes := Gauge_new; memory_region_count := Gauge_new;
     worker_queue_depth := Gauge_new |}.

(** The operations a client can apply to a [Counter]. *)
Inductive CounterOp : Type :=
  | Inc (amount : Z)
  | ReadValue.

Definition counter_apply (c : Counter) (op : CounterOp) : Counter :=
  match op with
  | Inc amount => Counter_inc amount c
  | ReadValue => c
  end.

End metrics.

(** ** monolith/models.py *)

Module models.

Inductive TaskState : Type :=
  | PENDING | RUNNING | WAITING | DONE | FAILED | CANCELLED.

#[export] Instance TaskState_eq_dec : EqDecision TaskState.
Proof. solve_decision. Defined.

(** [TaskState.name] *)
Definition name (s : TaskState) : string :=
  match s with
  | PENDING => "PENDING" | RUNNING => "RUNNING" | WAITING => "WAITING"
  | DONE => "DONE" | FAILED => "FAILED" | CANCELLED => "CANCELLED"
  end.

Record TaskMetadata : Type := {
  id : string;
  owner : string;
  priority : Z;
  created_at : Z;
  deadline : option Z;
  labels : list (string * string);
  resource_hints : list (string * string)
}.

#[export] Instance TaskMetadata_eq_dec : EqDecision TaskMetadata.
Proof. solve_decision. Defined.

(** The [meta] sub-dictionary of a submission: every recognised key may be
    absent. *)
Record MetaDict : Type := {
  md_owner : option string;
  md_priority : option Z;
  md_deadline : option Z;
  md_labels : option (list (string * string));
  md_resource_hints : option (list (string * string))
}.

#[export] Instance MetaDict_eq_dec : EqDecision MetaDict.
Proof. solve_decision. Defined.

(** A submission payload: the optional [meta] block and the other keys,
    which the scheduler never reads. *)
Record Payload : Type := {
  p_meta : option MetaDict;
  p_rest : list (string * string)
}.

#[export] Instance Payload_eq_dec : EqDecision Payload.
Proof. solve_decision. Defined.

Record Task : Type := {
  meta : TaskMetadata;
  payload : Payload;
  state : TaskState;
  last_error : option string
}.

(** Dataclass equality: field by field. *)
#[export] Instance Task_eq_dec : EqDecision Task.
Proof. solve_decision. Defined.

Definition set_state (st : TaskState) (t : Task) : Task :=
  {| meta := meta t; payload := payload t; state := st; last_error := last_error t |}.

Definition set_last_error (e : option string) (t : Task) : Task :=
  {| meta := meta t; payload := payload t; state := state t; last_error := e |}.

End models.

(** ** monolith/ipc.py *)

Module ipc.

Inductive MessageType : Type :=
  | TASK_SUBMIT | TASK_RESULT | WORKER_STATUS | CONTROL.

(** The payload dictionary of the messages the scheduler builds. *)
Record ResultPayload : Type := {
  res_id : string;
  res_owner : string;
  res_state : string;
  res_last_error : option string
}.

Record Message : Type := {
  type : MessageType;
  payload : ResultPayload
}.

(** A [multiprocessing.Queue] seen from the sending process: the messages
    put so far, and how the coming [put] calls end.  [None] is a [put] that
    returns; [Some why] is a [put] that raises an exception whose [str] is
    [why] (the queue stayed full for the whole timeout, or is closed).  Once
    the script is used up every [put] returns. *)
Record Queue : Type := {
  items : list Message;
  script : list (option string)
}.

Definition Queue_new (script : list (option string)) : Queue :=
  {| items := []; script := script |}.

(** How the next [put] ends: [Some why] when it raises. *)
Definition next_fault (q : Queue) : option string :=
  match script q with
  | Some why :: _ => Some why
  | _ => None
  end.

(** The queue after a [put] that returned, and after one that raised. *)
Definition delivered (msg : Message) (q : Queue) : Queue :=
  {| items := items q ++ [msg]; script := tail (script q) |}.

Definition refused (q : Queue) : Queue :=
  {| items := items q; script := tail (script q) |}.

(** [queue.put(msg, timeout=timeout)], raising the [str] of the exception *)
Definition put (msg : Message) : stexn Queue string unit :=
  fun q =>
    match next_fault q with
    | Some why => (refused q, Raise why)
    | None => (delivered msg q, Return tt)
    end.

End ipc.

(** ** monolith/scheduler.py *)

Module scheduler.
Import metrics models.

(** Exceptions that travel through the scheduler.  [StepException] stands
    for any instance of [Exception] raised inside the step hook, known by its
    [str]; [StepBaseException] for an exception raised there whose class is
    not under [Exception] ([SystemExit], [KeyboardInterrupt],
    [GeneratorExit]); [DanglingTask] is the model's own signal for a task
    index that points outside the task list, which no run of [run_once]
    produces. *)
Inductive Exception : Type :=
  | IPCError (msg : string)
  | StepException (msg : string)
  | StepBaseException (msg : string)
  | ValueError (msg : string)
  | DanglingTask.

(** [str(exc)] *)
Definition str (exc : Exception) : string :=
  match exc with
  | IPCError msg => msg
  | StepException msg => msg
  | StepBaseException msg => msg
  | ValueError msg => msg
  | DanglingTask => ""
  end.

(** [isinstance(exc, Exception)] *)
Definition is_Exception (exc : Exception) : bool :=
  match exc with
  | StepBaseException _ => false
  | _ => true
  end.

(** Ghost record of what happened to the tasks, in program order: every
    assignment to [task.state] made by the scheduler, and every call of the
    step hook with the state in which the hook left the task.  No code reads
    it. *)
Inductive Event : Type :=
  | StateSet (task_id : string) (st : TaskState)
  | Stepped (task_id : string) (left_in : TaskState).

(** The state of one worker process as the scheduler sees it: the fields of
    the [Scheduler] object and the process-wide [METRICS] singleton. *)
Record Scheduler : Type := {
  _tasks : list Task;
  _result_queue : ipc.Queue;
  _quantum_ms : Z;
  _memory : memory.MemoryPool;
  METRICS : _MetricsRegistry;
  history : list Event
}.

(** What a hook raised, with its [str]: an instance of [Exception], or an
    exception whose class is not under [Exception]. *)
Inductive Raised : Type :=
  | an_Exception (msg : string)
  | a_BaseException (msg : string).

(** What one call of the step hook did: the task object as the hook left it,
    the memory pool as the hook left it, and what it raised, if it raised. *)
Record StepResult : Type := {
  sr_task : Task;
  sr_memory : memory.MemoryPool;
  sr_raised : option Raised
}.

(** The two overridable methods of [Scheduler]. *)
Class Hooks : Type := {
  _execute_step : Task -> memory.MemoryPool -> StepResult;
  _is_task_complete : Task -> bool
}.

(** [Scheduler._execute_step] as written: [pass]. *)
Definition default_execute_step (task : Task) (pool : memory.MemoryPool) : StepResult :=
  {| sr_task := task; sr_memory := pool; sr_raised := None |}.

(** [Scheduler._is_task_complete] as written:
    [task.state not in {TaskState.WAITING}]. *)
Definition default_is_task_complete (task : Task) : bool :=
  negb (bool_decide (state task = WAITING)).

Definition default_hooks : Hooks :=
  {| _execute_step := default_execute_step;
     _is_task_complete := default_is_task_complete |}.

(** The two readings of the clock that [run_once] makes: [now] at entry, and
    the time the quantum took, in milliseconds. *)
Record Clock : Type := {
  now : Z;
  elapsed_ms : Z
}.

Local Abbreviation M := (stexn Scheduler Exception).

(** [Scheduler.__init__] in a freshly started process *)
Definition new (result_queue : ipc.Queue) (quantum_ms memory_pool_bytes : Z) : Scheduler :=
  {| _tasks := []; _result_queue := result_queue; _quantum_ms := quantum_ms;
     _memory := memory.new memory_pool_bytes; METRICS := METRICS_init;
     history := [] |}.

Definition set_tasks (f : list Task -> list Task) (s : Scheduler) : Scheduler :=
  {| _tasks := f (_tasks s); _result_queue := _result_queue s;
     _quantum_ms := _quantum_ms s; _memory := _memory s; METRICS := METRICS s;
     history := history s |}.

Definition set_result_queue (q : ipc.Queue) (s : Scheduler) : Scheduler :=
  {| _tasks := _tasks s; _result_queue := q;
     _quantum_ms := _quantum_ms s; _memory := _memory s; METRICS := METRICS s;
     history := history s |}.

Definition set_memory (p : memory.MemoryPool) (s : Scheduler) : Scheduler :=
  {| _tasks := _tasks s; _result_queue := _result_queue s;
     _quantum_ms := _quantum_ms s; _memory := p; METRICS := METRICS s;
     history := history s |}.

Definition set_METRICS (f : _MetricsRegistry -> _MetricsRegistry) (s : Scheduler)
  : Scheduler :=
  {| _tasks := _tasks s; _result_queue := _result_queue s;
     _quantum_ms := _quantum_ms s; _memory := _memory s; METRICS := f (METRICS s);
     history := history s |}.

Definition record (e : Event) (s : Scheduler) : Scheduler :=
  {| _tasks := _tasks s; _result_queue := _result_queue s;
     _quantum_ms := _quantum_ms s; _memory := _memory s; METRICS := METRICS s;
     history := history s ++ [e] |}.

(** Registry updates, one per metric touched by the scheduler. *)
Definition inc_tasks_submitted (m : _MetricsRegistry) : _MetricsRegistry :=
  {| tasks_submitted := Counter_inc 1 (tasks_submitted m);
     tasks_completed := tasks_completed m; tasks_failed := tasks_failed m;
     tasks_cancelled := tasks_cancelled m;
     scheduler_quantum_overruns := scheduler_quantum_overruns m;
     memory_used_bytes := memory_used_bytes m;
     memory_region_count := memory_region_count m;
     worker_queue_depth := worker_queue_depth m |}.

Definition inc_tasks_completed (m : _MetricsRegistry) : _MetricsRegistry :=
  {| tasks_submitted := tasks_submitted m;
     tasks_completed := Counter_inc 1 (tasks_completed m);
     tasks_failed := tasks_failed m; tasks_cancelled := tasks_cancelled m;
     scheduler_quantum_overruns := scheduler_quantum_overruns m;
     memory_used_bytes := memory_used_bytes m;
     memory_region_count := memory_region_count m;
     worker_queue_depth := worker_queue_depth m |}.

Definition inc_tasks_failed (m : _MetricsRegistry) : _MetricsRegistry :=
  {| tasks_submitted := tasks_submitted m; tasks_completed := tasks_completed m;
     tasks_failed := Counter_inc 1 (tasks_failed m);
     tasks_cancelled := tasks_cancelled m;
     scheduler_quantum_overruns := scheduler_quantum_overruns m;
     memory_used_bytes := memory_used_bytes m;
     memory_region_count := memory_region_count m;
     worker_queue_depth := worker_queue_depth m |}.

Definition inc_tasks_cancelled (m : _MetricsRegistry) : _MetricsRegistry :=
  {| tasks_submitted := tasks_submitted m; tasks_completed := tasks_completed m;
     tasks_failed := tasks_failed m;
     tasks_cancelled := Counter_inc 1 (tasks_cancelled m);
     scheduler_quantum_overruns := scheduler_quantum_overruns m;
     memory_used_bytes := memory_used_bytes m;
     memory_region_count := memory_region_count m;
     worker_queue_depth := worker_queue_depth m |}.

Definition inc_scheduler_quantum_overruns (m : _MetricsRegistry) : _MetricsRegistry :=
  {| tasks_submitted := tasks_submitted m; tasks_completed := tasks_completed m;
     tasks_failed := tasks_failed m; tasks_cancelled := tasks_cancelled m;
     scheduler_quantum_overruns := Counter_inc 1 (scheduler_quantum_overruns m);
     memory_used_bytes := memory_used_bytes m;
     memory_region_count := memory_region_count m;
     worker_queue_depth := worker_queue_depth m |}.

Definition set_memory_used_bytes (v : Z) (m : _MetricsRegistry) : _MetricsRegistry :=
  {| tasks_submitted := tasks_submitted m; tasks_completed := tasks_completed m;
     tasks_failed := tasks_failed m; tasks_cancelled := tasks_cancelled m;
     scheduler_quantum_overruns := scheduler_quantum_overruns m;
     memory_used_bytes := Gauge_set v (memory_used_bytes m);
     memory_region_count := memory_region_count m;
     worker_queue_depth := worker_queue_depth m |}.

Definition set_memory_region_count (v : Z) (m : _MetricsRegistry) : _MetricsRegistry :=
  {| tasks_submitted := tasks_submitted m; tasks_completed := tasks_completed m;
     tasks_failed := tasks_failed m; tasks_cancelled := tasks_cancelled m;
     scheduler_quantum_overruns := scheduler_quantum_overruns m;
     memory_used_bytes := memory_used_bytes m;
     memory_region_count := Gauge_set v (memory_region_count m);
     worker_queue_depth := worker_queue_depth m |}.

Definition set_worker_queue_depth (v : Z) (m : _MetricsRegistry) : _MetricsRegistry :=
  {| tasks_submitted := tasks_submitted m; tasks_completed := tasks_completed m;
     tasks_failed := tasks_failed m; tasks_cancelled := tasks_cancelled m;
     scheduler_quantum_overruns := scheduler_quantum_overruns m;
     memory_used_bytes := memory_used_bytes m;
     memory_region_count := memory_region_count m;
     worker_queue_depth := Gauge_set v (worker_queue_depth m) |}.

(** [METRICS.worker_queue_depth.set(len(self._tasks))] *)
Definition refresh_worker_queue_depth : M unit :=
  s ← get;
  modify (set_METRICS (set_worker_queue_depth (Z.of_nat (length (_tasks s))))).

(** A task object is referred to by its position in [_tasks]: the list is
    only restructured by [append] and by the [remove] that ends a call. *)
Definition deref (i : nat) : M Task :=
  s ← get;
  match _tasks s !! i with
  | Some task => mret task
  | None => raise DanglingTask
  end.

(** [task.state = st] *)
Definition assign_state (i : nat) (st : TaskState) : M unit :=
  task ← deref i;
  modify (set_tasks (alter (set_state st) i));;
  modify (record (StateSet (id (meta task)) st)).

(** [task.last_error = e] *)
Definition assign_last_error (i : nat) (e : option string) : M unit :=
  modify (set_tasks (alter (set_last_error e) i)).

(** [list.remove(x)]: drops the first element equal to [x]. *)
Fixpoint list_remove (x : Task) (l : list Task) : option (list Task) :=
  match l with
  | [] => None
  | y :: l' =>
      if decide (y = x) then Some l'
      else match list_remove x l' with
           | Some r => Some (y :: r)
           | None => None
           end
  end.

(** [self._tasks.remove(task)] *)
Definition remove_task (i : nat) : M unit :=
  task ← deref i;
  s ← get;
  match list_remove task (_tasks s) with
  | Some l => modify (set_tasks (fun _ => l))
  | None => raise (ValueError "list.remove(x): x not in list")
  end.

(** [ipc.send(self._result_queue, msg)] *)
Definition send (msg : ipc.Message) : M unit :=
  fun s =>
    match ipc.put msg (_result_queue s) with
    | (q, Return _) => (set_result_queue q s, Return tt)
    | (q, Raise why) => (set_result_queue q s, Raise (IPCError ("send failed: " +:+ why)))
    end.

Definition result_message (task : Task) : ipc.Message :=
  {| ipc.type := ipc.TASK_RESULT;
     ipc.payload := {| ipc.res_id := id (meta task);
                       ipc.res_owner := owner (meta task);
                       ipc.res_state := name (state task);
                       ipc.res_last_error := last_error task |} |}.

Definition _emit_result (i : nat) : M unit :=
  task ← deref i;
  send (result_message task).

(** The call of the hook on the task object and the pool of this scheduler. *)
Definition execute_step `{Hooks} (i : nat) : M unit :=
  task ← deref i;
  s ← get;
  let r := _execute_step task (_memory s) in
  modify (set_tasks <[i := sr_task r]>);;
  modify (set_memory (sr_memory r));;
  modify (record (Stepped (id (meta task)) (state (sr_task r))));;
  match sr_raised r with
  | Some (an_Exception msg) => raise (StepException msg)
  | Some (a_BaseException msg) => raise (StepBaseException msg)
  | None => mret tt
  end.

(** The body of the [try] statement of [_run_task_quantum]. *)
Definition try_block `{Hooks} (i : nat) : M unit :=
  execute_step i;;
  task ← deref i;
  if _is_task_complete task then
    assign_state i DONE;;
    modify (set_METRICS inc_tasks_completed);;
    _emit_result i;;
    remove_task i
  else mret tt.

(** Its [except Exception as exc] clause. *)
Definition except_block (i : nat) (exc : Exception) : M unit :=
  assign_state i FAILED;;
  assign_last_error i (Some (str exc));;
  modify (set_METRICS inc_tasks_failed);;
  _emit_result i;;
  remove_task i.

(** Its [finally] clause. *)
Definition finally_block (clk : Clock) : M unit :=
  s ← get;
  (if _quantum_ms s <? elapsed_ms clk
   then modify (set_METRICS inc_scheduler_quantum_overruns)
   else mret tt);;
  refresh_worker_queue_depth;;
  s ← get;
  modify (set_METRICS (set_memory_used_bytes (memory.used_bytes (_memory s))));;
  modify (set_METRICS (set_memory_region_count (memory.region_count (_memory s)))).

Definition _run_task_quantum `{Hooks} (clk : Clock) (i : nat) : M unit :=
  assign_state i RUNNING;;
  try_finally (try_except is_Exception (try_block i) (except_block i))
    (finally_block clk).

Definition is_ready (t : Task) : bool :=
  match state t with
  | PENDING | WAITING => true
  | _ => false
  end.

(** [key(a) > key(b)] for [key = lambda t: (t.meta.priority, -t.meta.created_at)],
    compared as Python compares tuples. *)
Definition key_gt (a b : Task) : bool :=
  if priority (meta a) =? priority (meta b)
  then - created_at (meta b) <? - created_at (meta a)
  else priority (meta b) <? priority (meta a).

(** [max(iterable, key=...)]: the first item is the candidate, a later item
    replaces it only when its key is strictly greater. *)
Definition py_max {A} (gt : A -> A -> bool) (l : list A) : option A :=
  match l with
  | [] => None
  | x :: l' => Some (foldl (fun best y => if gt y best then y else best) x l')
  end.

(** The comprehension that builds [ready_tasks], each task with its
    position, followed by the [max]. *)
Definition ready_tasks (tasks : list Task) : list (nat * Task) :=
  filter (fun it => is_ready it.2) (imap pair tasks).

Definition select (tasks : list Task) : option (nat * Task) :=
  py_max (fun a b => key_gt a.2 b.2) (ready_tasks tasks).

(** [task.meta.deadline is not None and now > task.meta.deadline] *)
Definition deadline_passed (clk : Clock) (task : Task) : bool :=
  match deadline (meta task) with
  | Some d => d <? now clk
  | None => false
  end.

Definition run_once `{Hooks} (clk : Clock) : M unit :=
  s ← get;
  match select (_tasks s) with
  | None => mret tt
  | Some (i, task) =>
      if deadline_passed clk task then
        assign_state i CANCELLED;;
        modify (set_METRICS inc_tasks_cancelled);;
        _emit_result i;;
        remove_task i;;
        refresh_worker_queue_depth
      else _run_task_quantum clk i
  end.

Definition empty_meta : MetaDict :=
  {| md_owner := None; md_priority := None; md_deadline := None;
     md_labels := None; md_resource_hints := None |}.

(** [fresh_id] is the value of [uuid.uuid4()] and [created] the value of
    [time.time()] taken by the dataclass defaults. *)
Definition enqueue_from_payload (fresh_id : string) (created : Z) (payload : Payload)
  : M unit :=
  let meta_dict := default empty_meta (p_meta payload) in
  let meta := {| id := fresh_id;
                 owner := default "system" (md_owner meta_dict);
                 priority := default 0 (md_priority meta_dict);
                 created_at := created;
                 deadline := md_deadline meta_dict;
                 labels := default [] (md_labels meta_dict);
                 resource_hints := default [] (md_resource_hints meta_dict) |} in
  let task := {| meta := meta; payload := payload; state := PENDING;
                 last_error := None |} in
  modify (set_tasks (fun l => l ++ [task]));;
  modify (set_METRICS inc_tasks_submitted);;
  refresh_worker_queue_depth.

(** What a worker does with its scheduler between two polls. *)
Inductive Op : Type :=
  | Enqueue (fresh_id : string) (created : Z) (payload : Payload)
  | RunOnce (clk : Clock).

Definition step `{Hooks} (s : Scheduler) (op : Op) : Scheduler :=
  match op with
  | Enqueue fresh_id created payload =>
      fst (enqueue_from_payload fresh_id created payload s)
  | RunOnce clk => fst (run_once clk s)
  end.

Definition run `{Hooks} (ops : list Op) (s : Scheduler) : Scheduler :=
  foldl step s ops.

(** The identifiers handed out by [uuid4] along a run. *)
Definition enqueued_ids (ops : list Op) : list string :=
  omap (fun op => match op with Enqueue i _ _ => Some i | RunOnce _ => None end) ops.

Definition task_ids (s : Scheduler) : list string :=
  (fun t => id (meta t)) <$> _tasks s.

Definition results (s : Scheduler) : list ipc.Message :=
  ipc.items (_result_queue s).

Definition result_ids (s : Scheduler) : list string :=
  (fun m => ipc.res_id (ipc.payload m)) <$> results s.

End scheduler.

(** ** Invariants *)

(** What every pool built by [MemoryPool(max_bytes)] and driven through its
    public API satisfies. *)
Definition pool_ok (p : memory.MemoryPool) : Prop :=
  memory.used_bytes p = memory.region_bytes p
  ∧ (∀ k region, memory._regions p !! k = Some region -> 0 < memory.r_size region)
  ∧ memory.used_bytes p <= memory._max_bytes p.

(** ** States along one quantum

    The states that [_run_task_quantum] goes through when it runs the task
    [t] found at position [i] of the task list of [s]. *)

Section quantum_states.
Import metrics models scheduler.
Context `{Hooks}.

(** What the hook does when called on [t], which is then [RUNNING]. *)
Definition hook_result (s : Scheduler) (t : Task) : StepResult :=
  _execute_step (set_state RUNNING t) (_memory s).

(** The state in which the hook returns, or raises. *)
Definition stepped (s : Scheduler) (i : nat) (t : Task) : Scheduler :=
  let r := hook_result s t in
  {| _tasks := <[i := sr_task r]> (_tasks s);
     _result_queue := _result_queue s;
     _quantum_ms := _quantum_ms s;
     _memory := sr_memory r;
     METRICS := METRICS s;
     history := history s ++ [StateSet (id (meta t)) RUNNING;
                              Stepped (id (meta t)) (state (sr_task r))] |}.

(** The task object after [task.state = DONE]. *)
Definition done_task (s : Scheduler) (t : Task) : Task :=
  set_state DONE (sr_task (hook_result s t)).

(** The task object after the two assignments of the [except] clause, when
    the exception came from the hook and when it came from the first
    [_emit_result]. *)
Definition failed_task (msg : string) (t' : Task) : Task :=
  set_last_error (Some msg) (set_state FAILED t').

(** The state in which the [finally] clause is entered once the task is
    settled as [final] and its result is on the queue. *)
Definition settled (s : Scheduler) (i : nat) (t : Task) (final : Task)
    (q : ipc.Queue) (m : _MetricsRegistry) (events : list Event)
    (l' : list Task) : Scheduler :=
  {| _tasks := l';
     _result_queue := ipc.delivered (result_message final) q;
     _quantum_ms := _quantum_ms s;
     _memory := sr_memory (hook_result s t);
     METRICS := m;
     history := history (stepped s i t) ++ events |}.

(** The state in which the [finally] clause is entered when the last
    [_emit_result] raised: the task stays in the list as [final]. *)
Definition stranded (s : Scheduler) (i : nat) (t : Task) (final : Task)
    (q : ipc.Queue) (m : _MetricsRegistry) (events : list Event) : Scheduler :=
  {| _tasks := <[i := final]> (_tasks s);
     _result_queue := q;
     _quantum_ms := _quantum_ms s;
     _memory := sr_memory (hook_result s t);
     METRICS := m;
     history := history (stepped s i t) ++ events |}.

End quantum_states.

(** ** Results *)

(** A result message whose [state] names a terminal state. *)
Definition is_terminal_result (msg : ipc.Message) : Prop :=
  ipc.type msg = ipc.TASK_RESULT
  /\ ipc.res_state (ipc.payload msg) ∈ ["DONE"; "FAILED"; "CANCELLED"].

(** A hook that never rewrites the identifier of the task it steps. *)
Definition keeps_id (H : scheduler.Hooks) : Prop :=
  forall task pool,
    models.id (models.meta (scheduler.sr_task (scheduler._execute_step task pool)))
    = models.id (models.meta task).

(** Every identifier handed out so far is either still in the task list or
    in exactly one result message, and every message on the queue names a
    terminal state. *)
Definition accounted (s : scheduler.Scheduler) (submitted : list string) : Prop :=
  scheduler.result_ids s ++ scheduler.task_ids s ≡ₚ submitted
  /\ Forall is_terminal_result (scheduler.results s).

(** A scheduler whose tasks are all eligible and whose queue takes every
    message. *)
Definition undisturbed (s : scheduler.Scheduler) : Prop :=
  Forall (fun t => scheduler.is_ready t = true) (scheduler._tasks s)
  /\ ipc.script (scheduler._result_queue s) = [].

(** ** Concrete scenarios *)

Module scenarios.
Import models scheduler.

(** The payload built by [_payload] in [tests/test_scheduler.py]. *)
Definition test_payload (op : string) (prio : Z) (dl : option Z) : Payload :=
  {| p_meta := Some {| md_owner := Some "test-tenant"; md_priority := Some prio;
                       md_deadline := dl; md_labels := None;
                       md_resource_hints := None |};
     p_rest := [("op", op)] |}.

(** The fixture of [tests/test_scheduler.py] with a queue that follows
    [script]. *)
Definition fixture (script : list (option string)) : Scheduler :=
  scheduler.new (ipc.Queue_new script) 10 (1024 * 1024).

Definition clock (t : Z) : Clock := {| now := t; elapsed_ms := 0 |}.

(** One task submitted to the fixture at time 100. *)
Definition one_task (script : list (option string)) (dl : option Z) : Scheduler :=
  step (H := default_hooks) (fixture script) (Enqueue "t1" 100 (test_payload "test" 0 dl)).

(** The task that [one_task] holds. *)
Definition the_task (dl : option Z) : Task :=
  {| meta := {| id := "t1"; owner := "test-tenant"; priority := 0;
                created_at := 100; deadline := dl; labels := [];
                resource_hints := [] |};
     payload := test_payload "test" 0 dl;
     state := PENDING;
     last_error := None |}.

(** [test_priority_ordering_executes_highest_first]: a low-priority task,
    then a high-priority one. *)
Definition two_tasks : Scheduler :=
  run (H := default_hooks)
    [Enqueue "low" 100 (test_payload "low" 1 None);
     Enqueue "high" 101 (test_payload "high" 50 None)]
    (fixture []).

(** A hook that parks the task: it sets [WAITING] and returns. *)
Definition parking_hooks : Hooks :=
  {| _execute_step := fun task pool =>
       {| sr_task := set_state WAITING task; sr_memory := pool; sr_raised := None |};
     _is_task_complete := default_is_task_complete |}.

(** A subclass for multi-step tasks whose completion predicate is not yet
    satisfied, with a hook that leaves the state alone. *)
Definition multi_step_hooks : Hooks :=
  {| _execute_step := default_execute_step;
     _is_task_complete := fun _ => false |}.

(** A hook that takes a 64-byte stack for the task in the pool of the
    scheduler. *)
Definition allocating_hooks : Hooks :=
  {| _execute_step := fun task pool =>
       match memory.alloc (host := memory.cpython64)
               (id (meta task) +:+ "/stack") (id (meta task)) 64 pool with
       | (pool', Return _) =>
           {| sr_task := task; sr_memory := pool'; sr_raised := None |}
       | (pool', Raise _) =>
           {| sr_task := task; sr_memory := pool';
              sr_raised := Some (an_Exception "MemoryErrorLogical") |}
       end;
     _is_task_complete := default_is_task_complete |}.

(** The pool of [tests/test_memory.py] after [alloc("r1", "task-a", 64)]. *)
Definition pool_r1 : memory.MemoryPool :=
  fst (memory.call (host := memory.cpython64)
         (memory.Alloc "r1" "task-a" 64) (memory.new 1024)).

End scenarios.

(** * The rest of the runtime *)

(** ** More on the memory pool *)

(** The two dictionaries of a pool describe the same regions: every region
    is filed under its own identifier, has a positive size and a buffer of
    exactly that many bytes, and no buffer is left without a region. *)
Definition pool_wf (p : memory.MemoryPool) : Prop :=
  forall k,
    match memory._regions p !! k, memory._storage p !! k with
    | Some region, Some buf =>
        memory.r_id region = k
        /\ 0 < memory.r_size region
        /\ Z.of_nat (length buf) = memory.r_size region
    | None, None => True
    | _, _ => False
    end.

(** What holds of a pool driven through its public API whatever the
    interpreter does with [bytearray]: every region is filed under its own
    identifier and has a positive size; every buffer belongs to a region, has
    the size of that region, and is one that the interpreter provided; and
    [_used_bytes] does not exceed the capacity. *)
Definition pool_sound {host : memory.Host} (p : memory.MemoryPool) : Prop :=
  (forall k region,
      memory._regions p !! k = Some region ->
      memory.r_id region = k /\ 0 < memory.r_size region)
  /\ (forall k buf,
        memory._storage p !! k = Some buf ->
        exists region,
          memory._regions p !! k = Some region
          /\ memory.refuses (memory.r_size region) = None
          /\ Z.of_nat (length buf) = memory.r_size region)
  /\ memory._used_bytes p <= memory._max_bytes p.

(** ** The ways one call of [run_once] can go *)

Section run_once_outcomes.
Import metrics models scheduler.
Context `{Hooks}.

(** How the [try] statement of [_run_task_quantum] leaves the scheduler when
    it has run the task [t] found at position [i]: the state in which the
    [finally] clause is entered, and whether an exception is pending. *)
Inductive quantum_outcome (s : Scheduler) (i : nat) (t : Task)
  : Scheduler -> outcome Exception unit -> Prop :=
  | hook_returned_incomplete :
      sr_raised (hook_result s t) = None ->
      _is_task_complete (sr_task (hook_result s t)) = false ->
      quantum_outcome s i t (stepped s i t) (Return tt)
  | task_done (l' : list Task) :
      sr_raised (hook_result s t) = None ->
      _is_task_complete (sr_task (hook_result s t)) = true ->
      ipc.next_fault (_result_queue s) = None ->
      list_remove (done_task s t) (<[i := done_task s t]> (_tasks s)) = Some l' ->
      quantum_outcome s i t
        (settled s i t (done_task s t) (_result_queue s)
           (inc_tasks_completed (METRICS s))
           [StateSet (id (meta (sr_task (hook_result s t)))) DONE] l')
        (Return tt)
  | task_done_then_failed (why : string) (l' : list Task) :
      sr_raised (hook_result s t) = None ->
      _is_task_complete (sr_task (hook_result s t)) = true ->
      ipc.next_fault (_result_queue s) = Some why ->
      ipc.next_fault (ipc.refused (_result_queue s)) = None ->
      list_remove (failed_task ("send failed: " +:+ why) (done_task s t))
        (<[i := failed_task ("send failed: " +:+ why) (done_task s t)]> (_tasks s))
      = Some l' ->
      quantum_outcome s i t
        (settled s i t (failed_task ("send failed: " +:+ why) (done_task s t))
           (ipc.refused (_result_queue s))
           (inc_tasks_failed (inc_tasks_completed (METRICS s)))
           [StateSet (id (meta (sr_task (hook_result s t)))) DONE;
            StateSet (id (meta (sr_task (hook_result s t)))) FAILED] l')
        (Return tt)
  | task_done_then_stranded (why why' : string) :
      sr_raised (hook_result s t) = None ->
      _is_task_complete (sr_task (hook_result s t)) = true ->
      ipc.next_fault (_result_queue s) = Some why ->
      ipc.next_fault (ipc.refused (_result_queue s)) = Some why' ->
      quantum_outcome s i t
        (stranded s i t (failed_task ("send failed: " +:+ why) (done_task s t))
           (ipc.refused (ipc.refused (_result_queue s)))
           (inc_tasks_failed (inc_tasks_completed (METRICS s)))
           [StateSet (id (meta (sr_task (hook_result s t)))) DONE;
            StateSet (id (meta (sr_task (hook_result s t)))) FAILED])
        (Raise (IPCError ("send failed: " +:+ why')))
  | hook_raised (msg : string) (l' : list Task) :
      sr_raised (hook_result s t) = Some (an_Exception msg) ->
      ipc.next_fault (_result_queue s) = None ->
      list_remove (failed_task msg (sr_task (hook_result s t)))
        (<[i := failed_task msg (sr_task (hook_result s t))]> (_tasks s))
      = Some l' ->
      quantum_outcome s i t
        (settled s i t (failed_task msg (sr_task (hook_result s t)))
           (_result_queue s) (inc_tasks_failed (METRICS s))
           [StateSet (id (meta (sr_task (hook_result s t)))) FAILED] l')
        (Return tt)
  | hook_raised_then_stranded (msg why : string) :
      sr_raised (hook_result s t) = Some (an_Exception msg) ->
      ipc.next_fault (_result_queue s) = Some why ->
      quantum_outcome s i t
        (stranded s i t (failed_task msg (sr_task (hook_result s t)))
           (ipc.refused (_result_queue s)) (inc_tasks_failed (METRICS s))
           [StateSet (id (meta (sr_task (hook_result s t)))) FAILED])
        (Raise (IPCError ("send failed: " +:+ why)))
  | hook_left (msg : string) :
      sr_raised (hook_result s t) = Some (a_BaseException msg) ->
      quantum_outcome s i t (stepped s i t) (Raise (StepBaseException msg)).

(** How one call of [run_once] at clock [clk] leaves the scheduler [s]. *)
Inductive run_once_outcome (s : Scheduler) (clk : Clock)
  : Scheduler -> outcome Exception unit -> Prop :=
  | nothing_ready :
      select (_tasks s) = None ->
      run_once_outcome s clk s (Return tt)
  | deadline_cancelled (i : nat) (t : Task) (l' : list Task) :
      select (_tasks s) = Some (i, t) ->
      deadline_passed clk t = true ->
      ipc.next_fault (_result_queue s) = None ->
      list_remove (set_state CANCELLED t) (<[i := set_state CANCELLED t]> (_tasks s))
      = Some l' ->
      run_once_outcome s clk
        {| _tasks := l';
           _result_queue :=
             ipc.delivered (result_message (set_state CANCELLED t)) (_result_queue s);
           _quantum_ms := _quantum_ms s;
           _memory := _memory s;
           METRICS := set_worker_queue_depth (Z.of_nat (length l'))
                        (inc_tasks_cancelled (METRICS s));
           history := history s ++ [StateSet (id (meta t)) CANCELLED] |}
        (Return tt)
  | deadline_cancelled_then_stranded (i : nat) (t : Task) (why : string) :
      select (_tasks s) = Some (i, t) ->
      deadline_passed clk t = true ->
      ipc.next_fault (_result_queue s) = Some why ->
      run_once_outcome s clk
        {| _tasks := <[i := set_state CANCELLED t]> (_tasks s);
           _result_queue := ipc.refused (_result_queue s);
           _quantum_ms := _quantum_ms s;
           _memory := _memory s;
           METRICS := inc_tasks_cancelled (METRICS s);
           history := history s ++ [StateSet (id (meta t)) CANCELLED] |}
        (Raise (IPCError ("send failed: " +:+ why)))
  | quantum_run (i : nat) (t : Task) (mid : Scheduler)
      (o : outcome Exception unit) :
      select (_tasks s) = Some (i, t) ->
      deadline_passed clk t = false ->
      quantum_outcome s i t mid o ->
      run_once_outcome s clk (fst (finally_block clk mid)) o.

End run_once_outcomes.

(** ** Metrics and results *)

(** The tasks counted as settled: completed, failed or cancelled. *)
Definition settled_count (m : metrics._MetricsRegistry) : Z :=
  metrics.c_value (metrics.tasks_completed m)
  + metrics.c_value (metrics.tasks_failed m)
  + metrics.c_value (metrics.tasks_cancelled m).

(** What the counters say about the task list and the result queue of a
    scheduler that was built with a queue of script [script0]. *)
Definition metrics_agree (script0 : list (option string)) (s : scheduler.Scheduler)
  : Prop :=
  metrics.c_value (metrics.tasks_submitted (scheduler.METRICS s))
  = Z.of_nat (length (scheduler._tasks s)) + Z.of_nat (length (scheduler.results s))
  /\ Z.of_nat (length (scheduler.results s)) <= settled_count (scheduler.METRICS s)
  /\ (script0 = [] ->
      ipc.script (scheduler._result_queue s) = []
      /\ Z.of_nat (length (scheduler.results s)) = settled_count (scheduler.METRICS s)).

(** ** More scenarios *)

Module more_scenarios.
Import models scheduler.

(** The hook of [test_failed_task_emits_result]: it raises
    [RuntimeError("simulated failure")]. *)
Definition failing_hooks : Hooks :=
  {| _execute_step := fun task pool =>
       {| sr_task := task; sr_memory := pool;
          sr_raised := Some (an_Exception "simulated failure") |};
     _is_task_complete := default_is_task_complete |}.

(** A hook that ends in [sys.exit("bye")]: [SystemExit] is not an
    [Exception]. *)
Definition exiting_hooks : Hooks :=
  {| _execute_step := fun task pool =>
       {| sr_task := task; sr_memory := pool;
          sr_raised := Some (a_BaseException "bye") |};
     _is_task_complete := default_is_task_complete |}.

End more_scenarios.

(** ** monolith/ipc.py: [send] and [recv] on a queue *)

Module transport.
Import scheduler.

(** [ipc.send(queue, msg, timeout)] *)
Definition send (msg : ipc.Message) : stexn ipc.Queue Exception unit :=
  fun q =>
    match ipc.put msg q with
    | (q', Return _) => (q', Return tt)
    | (q', Raise why) => (q', Raise (IPCError ("send failed: " +:+ why)))
    end.

(** [queue.get(timeout=timeout)] with a finite timeout, on a queue into
    which nothing arrives during the wait: the oldest message, or
    [queue.Empty], whose [str] is empty. *)
Definition get : stexn ipc.Queue string ipc.Message :=
  fun q =>
    match ipc.items q with
    | msg :: rest => ({| ipc.items := rest; ipc.script := ipc.script q |}, Return msg)
    | [] => (q, Raise "")
    end.

(** [ipc.recv(queue, timeout)], called with a finite timeout as both the
    worker and the supervisor do. *)
Definition recv : stexn ipc.Queue Exception ipc.Message :=
  fun q =>
    match get q with
    | (q', Return msg) => (q', Return msg)
    | (q', Raise why) => (q', Raise (IPCError ("recv failed: " +:+ why)))
    end.

End transport.

(** ** monolith/supervisor.py: submission and collection *)

Module supervisor.
Import metrics models.

(** A message on the task queue: its payload is a submission dictionary. *)
Record TaskMessage : Type := {
  tm_type : ipc.MessageType;
  tm_payload : Payload
}.

(** The task queue seen from the supervisor, as [ipc.Queue] is the result
    queue seen from a worker. *)
Record TaskQueue : Type := {
  tq_items : list TaskMessage;
  tq_script : list (option string)
}.

Inductive Exception : Type :=
  | RuntimeError (msg : string)
  | IPCError (msg : string).

(** The part of a [Supervisor] that submission and collection use, with the
    [METRICS] singleton of the supervisor process. *)
Record Supervisor : Type := {
  _started : bool;
  _task_queue : TaskQueue;
  _result_queue : ipc.Queue;
  METRICS : _MetricsRegistry
}.

(** [ipc.send(self._task_queue, msg, timeout=...)] *)
Definition send_task (msg : TaskMessage) : stexn Supervisor Exception unit :=
  fun sup =>
    let q := _task_queue sup in
    match tq_script q with
    | Some why :: rest =>
        ({| _started := _started sup;
            _task_queue := {| tq_items := tq_items q; tq_script := rest |};
            _result_queue := _result_queue sup; METRICS := METRICS sup |},
         Raise (IPCError ("send failed: " +:+ why)))
    | rest =>
        ({| _started := _started sup;
            _task_queue := {| tq_items := tq_items q ++ [msg];
                              tq_script := tail rest |};
            _result_queue := _result_queue sup; METRICS := METRICS sup |},
         Return tt)
    end.

Definition submit_task (task_payload : Payload) : stexn Supervisor Exception unit :=
  sup ← get;
  if negb (_started sup)
  then raise (RuntimeError "Supervisor not started; call start() first") else
  send_task {| tm_type := ipc.TASK_SUBMIT; tm_payload := task_payload |};;
  modify (fun sup =>
            {| _started := _started sup; _task_queue := _task_queue sup;
               _result_queue := _result_queue sup;
               METRICS := scheduler.inc_tasks_submitted (METRICS sup) |}).

Definition is_task_result (t : ipc.MessageType) : bool :=
  match t with
  | ipc.TASK_RESULT => true
  | _ => false
  end.

(** The [for _ in range(n)] loop of [collect_results], [results] being the
    list built so far. *)
Fixpoint collect_loop (n : nat) (results : list ipc.ResultPayload)
  : stexn ipc.Queue scheduler.Exception (list ipc.ResultPayload) :=
  match n with
  | O => mret results
  | S n' =>
      fun q =>
        match transport.recv q with
        | (q', Return msg) =>
            collect_loop n'
              (if is_task_result (ipc.type msg)
               then results ++ [ipc.payload msg] else results) q'
        | (q', Raise (scheduler.IPCError _)) => (q', Return results)
        | (q', Raise exc) => (q', Raise exc)
        end
  end.

(** [Supervisor.collect_results(timeout, max_results)] on the result
    queue. *)
Definition collect_results (max_results : Z)
  : stexn ipc.Queue scheduler.Exception (list ipc.ResultPayload) :=
  collect_loop (Z.to_nat max_results) [].

End supervisor.

(** ** monolith/worker.py *)

Module worker.
Import models scheduler.

(** [d.get(key)] on the keys of a payload other than [meta]. *)
Fixpoint dict_get (key : string) (d : list (string * string)) : option string :=
  match d with
  | [] => None
  | (k, v) :: rest => if decide (k = key) then Some v else dict_get key rest
  end.

(** What one [ipc.recv(task_queue, timeout=1.0)] gave. *)
Inductive Received : Type :=
  | Timeout
  | Got (msg : supervisor.TaskMessage).

(** One turn of the loop as the environment makes it: what [recv] gave, and
    the values that [uuid4] and the clock would give in this turn. *)
Record Poll : Type := {
  received : Received;
  fresh_id : string;
  created : Z;
  clk : Clock
}.

(** The body of the [while True] loop; [false] is [break]. *)
Definition loop_body `{Hooks} (p : Poll) : stexn Scheduler Exception bool :=
  match received p with
  | Timeout => run_once (clk p);; mret true
  | Got msg =>
      match supervisor.tm_type msg with
      | ipc.TASK_SUBMIT =>
          enqueue_from_payload (fresh_id p) (created p) (supervisor.tm_payload msg);;
          run_once (clk p);;
          mret true
      | ipc.CONTROL =>
          let action :=
            default "" (dict_get "action" (p_rest (supervisor.tm_payload msg))) in
          if decide (action = "shutdown") then mret false else mret true
      | _ => run_once (clk p);; mret true
      end
  end.

(** How far the worker got. *)
Inductive Status : Type :=
  | Polling
  | Stopped
  | Crashed (exc : Exception).

(** The loop, run for as many turns as [polls] describes. *)
Fixpoint worker_loop `{Hooks} (polls : list Poll) (s : Scheduler) : Scheduler * Status :=
  match polls with
  | [] => (s, Polling)
  | p :: rest =>
      match loop_body p s with
      | (s', Return true) => worker_loop rest s'
      | (s', Return false) => (s', Stopped)
      | (s', Raise exc) => (s', Crashed exc)
      end
  end.

(** [worker_main(task_queue, result_queue, config)]: [quantum_ms] and
    [memory_pool_bytes] are the two fields of the configuration it reads. *)
Definition worker_main `{Hooks} (result_queue : ipc.Queue)
    (quantum_ms memory_pool_bytes : Z) (polls : list Poll) : Scheduler * Status :=
  worker_loop polls (scheduler.new result_queue quantum_ms memory_pool_bytes).

Definition is_shutdown (p : Poll) : bool :=
  match received p with
  | Got msg =>
      match supervisor.tm_type msg with
      | ipc.CONTROL =>
          bool_decide
            (default "" (dict_get "action" (p_rest (supervisor.tm_payload msg)))
             = "shutdown")
      | _ => false
      end
  | Timeout => false
  end.

(** The identifiers given to the submissions received before the first
    shutdown message. *)
Fixpoint submissions (polls : list Poll) : list string :=
  match polls with
  | [] => []
  | p :: rest =>
      if is_shutdown p then []
      else match received p with
           | Got msg =>
               match supervisor.tm_type msg with
               | ipc.TASK_SUBMIT => fresh_id p :: submissions rest
               | _ => submissions rest
               end
           | Timeout => submissions rest
           end
  end.

End worker.

(** ** Answers of a worker *)

(** The task object that [enqueue_from_payload] builds. *)
Definition new_task (fresh_id : string) (created : Z) (payload : models.Payload)
  : models.Task :=
  let meta_dict := default scheduler.empty_meta (models.p_meta payload) in
  {| models.meta :=
       {| models.id := fresh_id;
          models.owner := default "system" (models.md_owner meta_dict);
          models.priority := default 0 (models.md_priority meta_dict);
          models.created_at := created;
          models.deadline := models.md_deadline meta_dict;
          models.labels := default [] (models.md_labels meta_dict);
          models.resource_hints := default [] (models.md_resource_hints meta_dict) |};
     models.payload := payload;
     models.state := models.PENDING;
     models.last_error := None |}.

(** An exception that ends a worker: the [IPCError] of a refused send, or an
    exception that one of the hooks raised and whose class is not under
    [Exception]. *)
Definition fatal `{scheduler.Hooks} (e : scheduler.Exception) : Prop :=
  (exists why, e = scheduler.IPCError ("send failed: " +:+ why))
  \/ (exists task pool msg,
        scheduler.sr_raised (scheduler._execute_step task pool)
        = Some (scheduler.a_BaseException msg)
        /\ e = scheduler.StepBaseException msg).

(** A result that says [DONE] or [CANCELLED]. *)
Definition answered_ok (msg : ipc.Message) : Prop :=
  ipc.type msg = ipc.TASK_RESULT
  /\ (ipc.res_state (ipc.payload msg) = "DONE"
      \/ ipc.res_state (ipc.payload msg) = "CANCELLED").

(** The messages that a sequence of polls received, in order. *)
Definition received_messages (polls : list worker.Poll)
  : list supervisor.TaskMessage :=
  omap (fun p => match worker.received p with
                 | worker.Got msg => Some msg
                 | worker.Timeout => None
                 end) polls.

(** Submitting a batch of payloads, stopping at the first call that raises. *)
Fixpoint submit_all (payloads : list models.Payload)
  : stexn supervisor.Supervisor supervisor.Exception unit :=
  match payloads with
  | [] => mret tt
  | payload :: rest => supervisor.submit_task payload;; submit_all rest
  end.

(** * Properties of the memory pool *)

Section memory_pool.
Import memory.
Context {host : Host}.

Ltac step_pool :=
  unfold call, alloc, bytearray, free, read, write, _require_region, _ensure_owner,
    _ensure_bounds, del_regions, del_storage in *;
  unfold_stexn; simpl in *.

(** C9. A call of [alloc], [free], [read] or [write] that raises
    [MemoryErrorLogical] leaves the pool exactly as it found it: the same
    [_used_bytes], the same regions with the same attributes, the same
    bytes in every buffer. *)
Theorem memory_error_is_atomic (c : Call) (p : MemoryPool) (why : Fault) :
  snd (call c p) = Raise (MemoryErrorLogical why) -> fst (call c p) = p.
Proof.
  destruct c; step_pool; repeat (case_match; simpl in *; simplify_eq); done.
Qed.

Lemma slice_whole {A} (l : list A) :
  slice l 0 (0 + Z.of_nat (length l)) = l.
Proof.
  unfold slice, slice_index.
  destruct (Z.ltb_spec 0 0); [lia|].
  destruct (Z.ltb_spec (0 + Z.of_nat (length l)) 0); [lia|].
  rewrite !Z.min_l by lia.
  replace (Z.to_nat (0 + Z.of_nat (length l) - 0)) with (length l) by lia.
  change (Z.to_nat 0) with 0%nat. rewrite drop_0. apply firstn_all.
Qed.

(** C10. A region comes out of a successful [alloc] zero-filled: the read of
    its whole extent that follows returns [size] bytes, every one of them
    zero, and changes nothing. *)
Theorem alloc_is_zero_filled (region_id owner : string) (size : Z)
    (p p' : MemoryPool) (region : Region) :
  alloc region_id owner size p = (p', Return region) ->
  read region_id 0 size p' = (p', Return (replicate (Z.to_nat size) x00))
  /\ Z.of_nat (length (replicate (Z.to_nat size) x00)) = size.
Proof.
  intros Halloc. step_pool.
  destruct (Z.leb_spec size 0); [done|].
  destruct (_max_bytes p <? _used_bytes p + size); [done|].
  destruct (bool_decide (is_Some (_regions p !! region_id))); [done|].
  simpl in Halloc. destruct (refuses size); [done|].
  simplify_eq. simpl.
  rewrite !lookup_insert_eq. simpl.
  destruct (Z.ltb_spec size 0); [lia|].
  destruct (Z.ltb_spec size (0 + size)); [lia|]. simpl.
  rewrite lookup_insert_eq.
  rewrite length_replicate. split; [|lia].
  do 2 f_equal.
  pose proof (slice_whole (replicate (Z.to_nat size) x00)) as Hs.
  rewrite length_replicate in Hs.
  replace (Z.of_nat (Z.to_nat size)) with size in Hs by lia. exact Hs.
Qed.

(** *** Accounting *)

Lemma region_bytes_insert (p : MemoryPool) (k : string) (region : Region) :
  _regions p !! k = None ->
  region_bytes (set_regions <[k := region]> p) = r_size region + region_bytes p.
Proof.
  intros Hk. unfold region_bytes. simpl.
  apply (map_fold_insert_L (fun _ r acc => r_size r + acc)); [intros; lia|done].
Qed.

Lemma region_bytes_delete (p : MemoryPool) (k : string) (region : Region) :
  _regions p !! k = Some region ->
  region_bytes p = r_size region + region_bytes (set_regions (delete k) p).
Proof.
  intros Hk. unfold region_bytes. simpl.
  apply (map_fold_delete_L (fun _ r acc => r_size r + acc)); [intros; lia|done].
Qed.

Lemma region_bytes_nonneg (m : gmap string Region) :
  (forall k region, m !! k = Some region -> 0 < r_size region) ->
  0 <= map_fold (fun _ r acc => r_size r + acc) 0 m.
Proof.
  induction m as [|k region m Hk IH] using map_ind; intros Hpos.
  - by rewrite map_fold_empty.
  - rewrite map_fold_insert_L; [|intros; lia|done].
    specialize (Hpos k region (lookup_insert_eq _ _ _)) as Hr.
    assert (0 <= map_fold (fun _ r acc => r_size r + acc) 0 m); [|lia].
    apply IH. intros k' r' Hk'. apply (Hpos k').
    rewrite lookup_insert_ne; [done|]. intros ->. congruence.
Qed.

Lemma new_pool_ok (max_bytes : Z) : 0 <= max_bytes -> pool_ok (new max_bytes).
Proof.
  intros Hmax. unfold pool_ok. split; [|split]; simpl; [|done|done].
  unfold used_bytes, region_bytes. simpl. by rewrite map_fold_empty.
Qed.

Lemma alloc_keeps_pool_ok (region_id owner : string) (size : Z) (p : MemoryPool) :
  pool_ok p ->
  is_host_failure (snd (alloc region_id owner size p)) = false ->
  pool_ok (fst (alloc region_id owner size p)).
Proof.
  intros (Hsum & Hpos & Hcap). step_pool.
  destruct (Z.leb_spec size 0); [done|].
  destruct (Z.ltb_spec (_max_bytes p) (_used_bytes p + size)); [done|].
  case_bool_decide as Hin; [done|]. simpl.
  destruct (refuses size); [done|]. simpl. intros _.
  assert (_regions p !! region_id = None) as Hnone.
  { destruct (_regions p !! region_id) eqn:E; [|done]. destruct Hin; eauto. }
  unfold pool_ok. split; [|split]; simpl.
  - unfold used_bytes in *. simpl.
    pose proof (region_bytes_insert p region_id
                  {| r_id := region_id; r_owner_task_id := owner;
                     r_size := size; r_read_only := false |} Hnone) as Hins.
    unfold region_bytes in *. simpl in *. rewrite Hins. lia.
  - intros k r. rewrite lookup_insert. case_decide; intros; simplify_eq; eauto.
  - unfold used_bytes. simpl. lia.
Qed.

Lemma free_keeps_pool_ok (region_id requester : string) (p : MemoryPool) :
  pool_ok p -> pool_ok (fst (free region_id requester p)).
Proof.
  intros (Hsum & Hpos & Hcap). step_pool.
  destruct (_regions p !! region_id) as [region|] eqn:Hreg; [|done]. simpl.
  case_bool_decide; [done|]. simpl. rewrite Hreg. simpl.
  assert (pool_ok (set_regions (delete region_id)
                     (set_used_bytes (fun u => u - r_size region) p))) as Hok.
  { unfold pool_ok. split; [|split]; simpl.
    - unfold used_bytes in *. simpl.
      pose proof (region_bytes_delete p region_id region Hreg) as Hdel.
      unfold region_bytes in *. simpl in *. lia.
    - intros k r [_ Hk]%lookup_delete_Some. eauto.
    - specialize (Hpos _ _ Hreg). unfold used_bytes in *. simpl. lia. }
  destruct (_storage p !! region_id); exact Hok.
Qed.

Lemma call_keeps_pool_ok (c : Call) (p : MemoryPool) :
  pool_ok p -> is_host_failure (snd (call c p)) = false -> pool_ok (fst (call c p)).
Proof.
  intros Hok Hhost. destruct c as [rid o sz|rid rq|rid off len|rid rq off data].
  - pose proof (alloc_keeps_pool_ok rid o sz p Hok) as H.
    revert Hhost. unfold call. unfold_stexn.
    destruct (alloc rid o sz p) as [? [|[]]]; simpl in *; auto.
  - pose proof (free_keeps_pool_ok rid rq p Hok) as H.
    unfold call. unfold_stexn. by destruct (free rid rq p) as [? []].
  - assert (fst (call (Read rid off len) p) = p) as ->; [|done].
    step_pool. repeat (case_match; simpl in *; simplify_eq); done.
  - destruct Hok as (Hsum & Hpos & Hcap).
    step_pool. repeat (case_match; simpl in *; simplify_eq); done.
Qed.

Lemma call_keeps_max_bytes (c : Call) (p : MemoryPool) :
  _max_bytes (fst (call c p)) = _max_bytes p.
Proof.
  destruct c; step_pool; repeat (case_match; simpl in *; simplify_eq); done.
Qed.

Lemma run_keeps_pool_ok (calls : list Call) (p : MemoryPool) :
  pool_ok p ->
  host_provides calls p = true ->
  pool_ok (run calls p) /\ _max_bytes (run calls p) = _max_bytes p.
Proof.
  revert p. induction calls as [|c calls IH]; intros p Hok Hhost; [done|].
  simpl in *. apply andb_prop in Hhost as [Hc Hrest].
  apply negb_true_iff in Hc.
  destruct (IH (fst (call c p)) (call_keeps_pool_ok c p Hok Hc) Hrest) as [H1 H2].
  split; [exact H1|]. rewrite H2. apply call_keeps_max_bytes.
Qed.

(** C2, as the code has it.  Whatever sequence of [alloc], [free], [read]
    and [write] calls a pool of capacity [max_bytes >= 0] has gone through,
    returning or
    raising, as long as the interpreter provided every buffer that was asked
    of it, [used_bytes] is the sum of the sizes of the regions it holds and
    lies between 0 and [max_bytes]; and an [alloc] that would take it past
    [max_bytes] raises [MemoryErrorLogical] and changes nothing. *)
Theorem pool_accounting (max_bytes : Z) (calls : list Call) :
  0 <= max_bytes ->
  host_provides calls (new max_bytes) = true ->
  let p := run calls (new max_bytes) in
  used_bytes p = region_bytes p
  /\ 0 <= used_bytes p <= max_bytes
  /\ _max_bytes p = max_bytes
  /\ forall region_id owner size,
       used_bytes p + size > max_bytes ->
       exists why, alloc region_id owner size p = (p, Raise (MemoryErrorLogical why)).
Proof.
  intros Hmax Hhost p.
  destruct (run_keeps_pool_ok calls (new max_bytes) (new_pool_ok _ Hmax) Hhost)
    as [(Hsum & Hpos & Hcap) Hmb].
  fold p in Hsum, Hpos, Hcap, Hmb. simpl in Hmb.
  split; [exact Hsum|]. split; [|split; [exact Hmb|]].
  - split; [|lia]. rewrite Hsum. by apply region_bytes_nonneg.
  - intros region_id owner size Hover. unfold used_bytes in *. step_pool.
    destruct (Z.leb_spec size 0); [eauto|].
    destruct (Z.ltb_spec (_max_bytes p) (_used_bytes p + size)); [eauto|lia].
Qed.

End memory_pool.

Section memory_pool_witnesses.
Import memory.
#[local] Existing Instance cpython64.

(** The scenario "memory owner mismatch": the failed write leaves the pool of
    64 used bytes untouched. *)
Lemma memory_error_is_atomic_witness :
  snd (call (Write "r1" "task-b" 0 [x01]) scenarios.pool_r1)
    = Raise (MemoryErrorLogical (OwnerMismatch "task-a" "task-b"))
  /\ fst (call (Write "r1" "task-b" 0 [x01]) scenarios.pool_r1) = scenarios.pool_r1.
Proof.
  split; [reflexivity|].
  apply (memory_error_is_atomic (host := cpython64) _ _
           (OwnerMismatch "task-a" "task-b")).
  reflexivity.
Defined.

Lemma alloc_is_zero_filled_witness :
  read "r1" 0 64 scenarios.pool_r1
    = (scenarios.pool_r1, Return (replicate (Z.to_nat 64) x00))
  /\ Z.of_nat (length (replicate (Z.to_nat 64) x00)) = 64.
Proof.
  apply (alloc_is_zero_filled (host := cpython64) "r1" "task-a" 64 (new 1024)
           scenarios.pool_r1
           {| r_id := "r1"; r_owner_task_id := "task-a"; r_size := 64;
              r_read_only := false |}).
  reflexivity.
Defined.

(** The run of [tests/test_memory.py]: two regions allocated, one freed, a
    write by a stranger refused, an oversized request refused. *)
Lemma pool_accounting_witness :
  let p := run [Alloc "r1" "task-a" 100; Alloc "r2" "task-a" 200;
                Free "r1" "task-a"; Write "r2" "task-b" 0 [x01];
                Alloc "r3" "task-a" 2000; Read "r2" 0 8] (new 1024) in
  used_bytes p = region_bytes p
  /\ 0 <= used_bytes p <= 1024
  /\ _max_bytes p = 1024
  /\ forall region_id owner size,
       used_bytes p + size > 1024 ->
       exists why, alloc region_id owner size p = (p, Raise (MemoryErrorLogical why)).
Proof.
  apply (pool_accounting (host := cpython64) 1024); [lia|]. by vm_compute.
Defined.

(** C2, as stated, fails.  Asked for [2**65] bytes, CPython raises
    [OverflowError] in [bytearray(size)], after the region has been entered
    in [_regions] and before [_used_bytes] is updated: the pool then holds a
    region of [2**65] bytes with zero bytes in use.  And a pool created with
    a negative capacity has [used_bytes] above [max_bytes] from the start. *)
Lemma used_bytes_misses_a_region :
  let big := Alloc "big" "t" (2 ^ 65) in
  let p := run (host := cpython64) [big] (new (2 ^ 70)) in
  snd (call (host := cpython64) big (new (2 ^ 70))) = Raise (HostFailure OverflowError)
  /\ used_bytes p = 0
  /\ region_bytes p = 2 ^ 65
  /\ used_bytes p <> region_bytes p
  /\ ~ (0 <= used_bytes (new (-1)) <= _max_bytes (new (-1))).
Proof.
  repeat split; try (by vm_compute).
  unfold used_bytes, new. simpl. lia.
Qed.

End memory_pool_witnesses.

(** * Properties of the scheduler *)

Section selection.
Import models scheduler.

Lemma elem_of_ready_tasks (tasks : list Task) (i : nat) (t : Task) :
  (i, t) ∈ ready_tasks tasks <-> tasks !! i = Some t /\ is_ready t = true.
Proof.
  unfold ready_tasks. rewrite list_elem_of_filter, elem_of_lookup_imap. simpl.
  split.
  - intros [Hr (j & y & Heq & Hj)]. simplify_eq. split; [done|].
    by apply Is_true_true.
  - intros [Hl Hr]. split; [by apply Is_true_true|eauto].
Qed.

(** The candidate kept by the loop of [max] is an item seen so far, and no
    item seen so far has a strictly greater key. *)
Lemma max_loop_spec (l : list (nat * Task)) (x : nat * Task) :
  let best := foldl (fun best y => if key_gt y.2 best.2 then y else best) x l in
  (best = x \/ best ∈ l)
  /\ key_gt x.2 best.2 = false
  /\ forall y, y ∈ l -> key_gt y.2 best.2 = false.
Proof.
  revert x. induction l as [|y l IH]; intros x; simpl.
  - split; [by left|]. split; [|by intros ? ?%elem_of_nil].
    unfold key_gt. repeat case_match; lia.
  - destruct (key_gt y.2 x.2) eqn:Hgt.
    + destruct (IH y) as (Hin & Hy & Hall).
      split; [right; destruct Hin as [->|]; [left|by right]|].
      split.
      * revert Hgt Hy. unfold key_gt. repeat case_match; lia.
      * intros z [->|Hz]%elem_of_cons; eauto.
    + destruct (IH x) as (Hin & Hx & Hall).
      split; [destruct Hin; [by left|by right; right]|].
      split; [done|].
      intros z [->|Hz]%elem_of_cons; [|eauto].
      revert Hgt Hx. unfold key_gt. repeat case_match; lia.
Qed.

Lemma select_None (tasks : list Task) :
  select tasks = None <-> ready_tasks tasks = [].
Proof. unfold select, py_max. by destruct (ready_tasks tasks). Qed.

Lemma select_Some (tasks : list Task) (i : nat) (t : Task) :
  select tasks = Some (i, t) ->
  tasks !! i = Some t
  /\ is_ready t = true
  /\ forall j t', tasks !! j = Some t' -> is_ready t' = true -> key_gt t' t = false.
Proof.
  unfold select, py_max. destruct (ready_tasks tasks) as [|x l] eqn:Hready; [done|].
  intros [= Hbest].
  destruct (max_loop_spec l x) as (Hin & Hx & Hall). simpl in *.
  rewrite Hbest in Hin, Hx, Hall. simpl in *.
  assert ((i, t) ∈ ready_tasks tasks) as Hsel.
  { rewrite Hready. destruct Hin as [<-|]; [left|by right]. }
  apply elem_of_ready_tasks in Hsel as [Hl Hr]. do 2 (split; [done|]).
  intros j t' Hj Hr'.
  assert ((j, t') ∈ x :: l) as [Hjx|Hin']%elem_of_cons.
  { rewrite <- Hready. by apply elem_of_ready_tasks. }
  - by rewrite <- Hjx in Hx.
  - by apply (Hall (j, t')).
Qed.

Lemma is_ready_states (t : Task) :
  is_ready t = true <-> state t = PENDING \/ state t = WAITING.
Proof.
  unfold is_ready.
  destruct (state t); split; intros Hs; try done; try (by left); try (by right);
    by destruct Hs.
Qed.

Lemma key_gt_false (a b : Task) :
  key_gt a b = false <->
  priority (meta a) <= priority (meta b)
  /\ (priority (meta a) = priority (meta b) ->
      created_at (meta b) <= created_at (meta a)).
Proof. unfold key_gt. repeat case_match; lia. Qed.

End selection.

Section primitives.
Import metrics models scheduler.

Local Abbreviation M := (stexn Scheduler Exception).

Lemma bind_Return {A B} (m : M A) (k : A -> M B) (s s' : Scheduler) (a : A) :
  m s = (s', Return a) -> (m ≫= k) s = k a s'.
Proof. intros Hm. unfold_stexn. by rewrite Hm. Qed.

Lemma bind_Raise {A B} (m : M A) (k : A -> M B) (s s' : Scheduler) (e : Exception) :
  m s = (s', Raise e) -> (m ≫= k) s = (s', Raise e).
Proof. intros Hm. unfold_stexn. by rewrite Hm. Qed.

Lemma alter_at {A} (f : A -> A) (l : list A) (i : nat) (x : A) :
  l !! i = Some x -> alter f i l = <[i := f x]> l.
Proof.
  revert i. induction l as [|y l IH]; intros [|i] Hi; simplify_eq/=; [done|].
  f_equal. by apply IH.
Qed.

Lemma lookup_insert_at {A} (l : list A) (i : nat) (x y : A) :
  l !! i = Some x -> <[i := y]> l !! i = Some y.
Proof. intros Hi. apply list_lookup_insert_eq. by eapply lookup_lt_Some. Qed.

Lemma deref_at (s : Scheduler) (i : nat) (t : Task) :
  _tasks s !! i = Some t -> deref i s = (s, Return t).
Proof. intros Hi. unfold deref. unfold_stexn. by rewrite Hi. Qed.

Lemma assign_state_at (s : Scheduler) (i : nat) (t : Task) (st : TaskState) :
  _tasks s !! i = Some t ->
  assign_state i st s
  = (record (StateSet (id (meta t)) st) (set_tasks <[i := set_state st t]> s),
     Return tt).
Proof.
  intros Hi. unfold assign_state.
  rewrite (bind_Return _ _ _ _ _ (deref_at _ _ _ Hi)).
  unfold_stexn. unfold record, set_tasks. simpl. by rewrite (alter_at _ _ _ _ Hi).
Qed.

Lemma assign_last_error_at (s : Scheduler) (i : nat) (t : Task) (e : option string) :
  _tasks s !! i = Some t ->
  assign_last_error i e s = (set_tasks <[i := set_last_error e t]> s, Return tt).
Proof.
  intros Hi. unfold assign_last_error. unfold_stexn. unfold set_tasks. simpl.
  by rewrite (alter_at _ _ _ _ Hi).
Qed.

Lemma emit_result_ok (s : Scheduler) (i : nat) (t : Task) :
  _tasks s !! i = Some t ->
  ipc.next_fault (_result_queue s) = None ->
  _emit_result i s
  = (set_result_queue (ipc.delivered (result_message t) (_result_queue s)) s, Return tt).
Proof.
  intros Hi Hq. unfold _emit_result.
  rewrite (bind_Return _ _ _ _ _ (deref_at _ _ _ Hi)).
  unfold send, ipc.put. by rewrite Hq.
Qed.

Lemma emit_result_fails (s : Scheduler) (i : nat) (t : Task) (why : string) :
  _tasks s !! i = Some t ->
  ipc.next_fault (_result_queue s) = Some why ->
  _emit_result i s
  = (set_result_queue (ipc.refused (_result_queue s)) s,
     Raise (IPCError ("send failed: " +:+ why))).
Proof.
  intros Hi Hq. unfold _emit_result.
  rewrite (bind_Return _ _ _ _ _ (deref_at _ _ _ Hi)).
  unfold send, ipc.put. by rewrite Hq.
Qed.

Lemma list_remove_elem (x : Task) (l : list Task) :
  x ∈ l -> exists l', list_remove x l = Some l'.
Proof.
  induction l as [|y l IH]; [by intros ?%elem_of_nil|].
  intros Hin. simpl. destruct (decide (y = x)); [eauto|].
  apply elem_of_cons in Hin as [->|Hin]; [done|].
  destruct (IH Hin) as [l' ->]. eauto.
Qed.

Lemma list_remove_Permutation (x : Task) (l l' : list Task) :
  list_remove x l = Some l' -> l ≡ₚ x :: l'.
Proof.
  revert l'. induction l as [|y l IH]; intros l'; [done|]. simpl.
  destruct (decide (y = x)) as [->|]; [by intros [= ->]|].
  destruct (list_remove x l) as [r|]; [|done].
  intros [= <-]. rewrite (IH r eq_refl). apply Permutation_swap.
Qed.

(** With distinct identifiers the element that [remove] drops is the task
    object itself. *)
Lemma list_remove_at (l : list Task) (i : nat) (t : Task) :
  NoDup ((fun t => id (meta t)) <$> l) ->
  l !! i = Some t ->
  list_remove t l = Some (delete i l).
Proof.
  revert i. induction l as [|y l IH]; intros i Hnd Hi; [done|].
  rewrite fmap_cons in Hnd. apply NoDup_cons in Hnd as [Hy Hnd].
  destruct i as [|i]; simpl in *.
  - simplify_eq. by rewrite decide_True.
  - rewrite decide_False.
    + by rewrite (IH i Hnd Hi).
    + intros ->. apply Hy. apply list_elem_of_fmap. exists t. split; [done|].
      by eapply list_elem_of_lookup_2.
Qed.

Lemma remove_task_at (s : Scheduler) (i : nat) (t : Task) (l' : list Task) :
  _tasks s !! i = Some t ->
  list_remove t (_tasks s) = Some l' ->
  remove_task i s = (set_tasks (fun _ => l') s, Return tt).
Proof.
  intros Hi Hrm. unfold remove_task.
  rewrite (bind_Return _ _ _ _ _ (deref_at _ _ _ Hi)).
  unfold_stexn. by rewrite Hrm.
Qed.

End primitives.

Ltac known_task :=
  simpl; rewrite ?list_insert_insert_eq;
  first [eassumption | eapply lookup_insert_at; eassumption].

Ltac returns lem :=
  erewrite bind_Return by (eapply lem; try known_task; try eassumption).
Ltac raises lem :=
  erewrite bind_Raise by (eapply lem; try known_task; try eassumption).


Section deadline.
Import metrics models scheduler.
Context `{Hooks}.

Lemma run_once_idle (s : Scheduler) (clk : Clock) :
  select (_tasks s) = None -> run_once clk s = (s, Return tt).
Proof. intros Hsel. unfold run_once. unfold_stexn. by rewrite Hsel. Qed.

Lemma run_once_selected (s : Scheduler) (clk : Clock) (i : nat) (t : Task) :
  select (_tasks s) = Some (i, t) ->
  run_once clk s
  = (if deadline_passed clk t then
       assign_state i CANCELLED;;
       modify (set_METRICS inc_tasks_cancelled);;
       _emit_result i;;
       remove_task i;;
       refresh_worker_queue_depth
     else _run_task_quantum clk i) s.
Proof. intros Hsel. unfold run_once. unfold_stexn. by rewrite Hsel. Qed.

Lemma run_once_cancel_ok (s : Scheduler) (clk : Clock) (i : nat) (t : Task)
    (l' : list Task) :
  select (_tasks s) = Some (i, t) ->
  deadline_passed clk t = true ->
  ipc.next_fault (_result_queue s) = None ->
  list_remove (set_state CANCELLED t) (<[i := set_state CANCELLED t]> (_tasks s))
    = Some l' ->
  run_once clk s
  = ({| _tasks := l';
        _result_queue :=
          ipc.delivered (result_message (set_state CANCELLED t)) (_result_queue s);
        _quantum_ms := _quantum_ms s;
        _memory := _memory s;
        METRICS := set_worker_queue_depth (Z.of_nat (length l'))
                     (inc_tasks_cancelled (METRICS s));
        history := history s ++ [StateSet (id (meta t)) CANCELLED] |},
     Return tt).
Proof.
  intros Hsel Hdl Hq Hrm.
  destruct (select_Some _ _ _ Hsel) as (Hi & _ & _).
  rewrite (run_once_selected _ _ _ _ Hsel), Hdl.
  returns assign_state_at.
  erewrite bind_Return by reflexivity.
  returns emit_result_ok.
  returns remove_task_at.
  reflexivity.
Qed.

Lemma run_once_cancel_fails (s : Scheduler) (clk : Clock) (i : nat) (t : Task)
    (why : string) :
  select (_tasks s) = Some (i, t) ->
  deadline_passed clk t = true ->
  ipc.next_fault (_result_queue s) = Some why ->
  run_once clk s
  = ({| _tasks := <[i := set_state CANCELLED t]> (_tasks s);
        _result_queue := ipc.refused (_result_queue s);
        _quantum_ms := _quantum_ms s;
        _memory := _memory s;
        METRICS := inc_tasks_cancelled (METRICS s);
        history := history s ++ [StateSet (id (meta t)) CANCELLED] |},
     Raise (IPCError ("send failed: " +:+ why))).
Proof.
  intros Hsel Hdl Hq.
  destruct (select_Some _ _ _ Hsel) as (Hi & _ & _).
  rewrite (run_once_selected _ _ _ _ Hsel), Hdl.
  returns assign_state_at.
  erewrite bind_Return by reflexivity.
  raises emit_result_fails.
  reflexivity.
Qed.

End deadline.

Section quantum.
Import metrics models scheduler.
Context `{Hooks}.

(** The registry after the [finally] clause has run on state [s]. *)
Lemma finally_block_returns (clk : Clock) (s : Scheduler) :
  finally_block clk s
  = (set_METRICS
       (fun m =>
          set_memory_region_count (memory.region_count (_memory s))
            (set_memory_used_bytes (memory.used_bytes (_memory s))
               (set_worker_queue_depth (Z.of_nat (length (_tasks s)))
                  (if _quantum_ms s <? elapsed_ms clk
                   then inc_scheduler_quantum_overruns m else m)))) s,
     Return tt).
Proof.
  unfold finally_block, refresh_worker_queue_depth. unfold_stexn.
  by destruct (_quantum_ms s <? elapsed_ms clk).
Qed.

Lemma try_finally_block {A} (body : stexn Scheduler Exception A) (clk : Clock)
    (s s' : Scheduler) (o : outcome Exception A) :
  body s = (s', o) ->
  try_finally body (finally_block clk) s = (fst (finally_block clk s'), o).
Proof.
  intros Hb. unfold try_finally. rewrite Hb. by rewrite finally_block_returns.
Qed.

Lemma execute_step_at (s : Scheduler) (i : nat) (t : Task) :
  _tasks s !! i = Some t ->
  let r := _execute_step t (_memory s) in
  execute_step i s
  = (record (Stepped (id (meta t)) (state (sr_task r)))
       (set_memory (sr_memory r) (set_tasks <[i := sr_task r]> s)),
     match sr_raised r with
     | Some (an_Exception msg) => Raise (StepException msg)
     | Some (a_BaseException msg) => Raise (StepBaseException msg)
     | None => Return tt
     end).
Proof.
  intros Hi r. unfold execute_step.
  rewrite (bind_Return _ _ _ _ _ (deref_at _ _ _ Hi)).
  unfold_stexn. fold r. by destruct (sr_raised r) as [[]|].
Qed.

Lemma quantum_incomplete (s : Scheduler) (clk : Clock) (i : nat) (t : Task) :
  _tasks s !! i = Some t ->
  sr_raised (hook_result s t) = None ->
  _is_task_complete (sr_task (hook_result s t)) = false ->
  _run_task_quantum clk i s = (fst (finally_block clk (stepped s i t)), Return tt).
Proof.
  intros Hi Hret Hinc. unfold _run_task_quantum.
  returns assign_state_at.
  apply try_finally_block. unfold try_except, try_block.
  erewrite bind_Return; cycle 1.
  { erewrite execute_step_at by known_task. simpl. fold (hook_result s t).
    rewrite Hret. reflexivity. }
  returns deref_at. rewrite Hinc. unfold_stexn. unfold stepped, record. simpl.
  by rewrite list_insert_insert_eq, <- app_assoc.
Qed.

Lemma except_block_ok (s : Scheduler) (i : nat) (t' : Task) (exc : Exception)
    (l' : list Task) :
  _tasks s !! i = Some t' ->
  ipc.next_fault (_result_queue s) = None ->
  list_remove (failed_task (str exc) t') (<[i := failed_task (str exc) t']> (_tasks s))
    = Some l' ->
  except_block i exc s
  = ({| _tasks := l';
        _result_queue :=
          ipc.delivered (result_message (failed_task (str exc) t')) (_result_queue s);
        _quantum_ms := _quantum_ms s;
        _memory := _memory s;
        METRICS := inc_tasks_failed (METRICS s);
        history := history s ++ [StateSet (id (meta t')) FAILED] |},
     Return tt).
Proof.
  intros Hi Hq Hrm. unfold except_block.
  returns assign_state_at.
  returns assign_last_error_at.
  erewrite bind_Return by reflexivity.
  returns emit_result_ok.
  erewrite remove_task_at; [reflexivity|known_task|].
  simpl. by rewrite !list_insert_insert_eq.
Qed.

Lemma except_block_fails (s : Scheduler) (i : nat) (t' : Task) (exc : Exception)
    (why : string) :
  _tasks s !! i = Some t' ->
  ipc.next_fault (_result_queue s) = Some why ->
  except_block i exc s
  = ({| _tasks := <[i := failed_task (str exc) t']> (_tasks s);
        _result_queue := ipc.refused (_result_queue s);
        _quantum_ms := _quantum_ms s;
        _memory := _memory s;
        METRICS := inc_tasks_failed (METRICS s);
        history := history s ++ [StateSet (id (meta t')) FAILED] |},
     Raise (IPCError ("send failed: " +:+ why))).
Proof.
  intros Hi Hq. unfold except_block.
  returns assign_state_at.
  returns assign_last_error_at.
  erewrite bind_Return by reflexivity.
  raises emit_result_fails.
  unfold record, set_METRICS, set_tasks, set_result_queue. simpl.
  by rewrite !list_insert_insert_eq.
Qed.

(** The [try] body when the hook has returned and the task is complete. *)
Lemma try_block_done_ok (s : Scheduler) (i : nat) (t : Task) (l' : list Task) :
  _tasks s !! i = Some t ->
  sr_raised (hook_result s t) = None ->
  _is_task_complete (sr_task (hook_result s t)) = true ->
  ipc.next_fault (_result_queue s) = None ->
  list_remove (done_task s t) (<[i := done_task s t]> (_tasks s)) = Some l' ->
  try_block i (record (StateSet (id (meta t)) RUNNING)
                 (set_tasks <[i := set_state RUNNING t]> s))
  = (settled s i t (done_task s t) (_result_queue s)
       (inc_tasks_completed (METRICS s))
       [StateSet (id (meta (sr_task (hook_result s t)))) DONE] l',
     Return tt).
Proof.
  intros Hi Hret Hc Hq Hrm. unfold try_block.
  erewrite bind_Return; cycle 1.
  { erewrite execute_step_at by known_task. simpl. fold (hook_result s t).
    rewrite Hret. reflexivity. }
  returns deref_at. rewrite Hc.
  returns assign_state_at.
  erewrite bind_Return by reflexivity.
  returns emit_result_ok.
  erewrite remove_task_at; cycle 1.
  { known_task. }
  { simpl. rewrite !list_insert_insert_eq. exact Hrm. }
  unfold settled, stepped, set_tasks. simpl. by rewrite <- !app_assoc.
Qed.

Lemma try_block_done_fails (s : Scheduler) (i : nat) (t : Task) (why : string) :
  _tasks s !! i = Some t ->
  sr_raised (hook_result s t) = None ->
  _is_task_complete (sr_task (hook_result s t)) = true ->
  ipc.next_fault (_result_queue s) = Some why ->
  try_block i (record (StateSet (id (meta t)) RUNNING)
                 (set_tasks <[i := set_state RUNNING t]> s))
  = (stranded s i t (done_task s t) (ipc.refused (_result_queue s))
       (inc_tasks_completed (METRICS s))
       [StateSet (id (meta (sr_task (hook_result s t)))) DONE],
     Raise (IPCError ("send failed: " +:+ why))).
Proof.
  intros Hi Hret Hc Hq. unfold try_block.
  erewrite bind_Return; cycle 1.
  { erewrite execute_step_at by known_task. simpl. fold (hook_result s t).
    rewrite Hret. reflexivity. }
  returns deref_at. rewrite Hc.
  returns assign_state_at.
  erewrite bind_Return by reflexivity.
  raises emit_result_fails.
  unfold stranded, stepped, record, set_METRICS, set_tasks, set_result_queue.
  simpl. by rewrite !list_insert_insert_eq, <- !app_assoc.
Qed.

Lemma try_block_raises (s : Scheduler) (i : nat) (t : Task) (msg : string) :
  _tasks s !! i = Some t ->
  sr_raised (hook_result s t) = Some (an_Exception msg) ->
  try_block i (record (StateSet (id (meta t)) RUNNING)
                 (set_tasks <[i := set_state RUNNING t]> s))
  = (stepped s i t, Raise (StepException msg)).
Proof.
  intros Hi Hr. unfold try_block.
  erewrite bind_Raise; cycle 1.
  { erewrite execute_step_at by known_task. simpl. fold (hook_result s t).
    rewrite Hr. reflexivity. }
  unfold stepped, record, set_memory, set_tasks. simpl.
  by rewrite !list_insert_insert_eq, <- !app_assoc.
Qed.

Lemma try_block_leaves (s : Scheduler) (i : nat) (t : Task) (msg : string) :
  _tasks s !! i = Some t ->
  sr_raised (hook_result s t) = Some (a_BaseException msg) ->
  try_block i (record (StateSet (id (meta t)) RUNNING)
                 (set_tasks <[i := set_state RUNNING t]> s))
  = (stepped s i t, Raise (StepBaseException msg)).
Proof.
  intros Hi Hr. unfold try_block.
  erewrite bind_Raise; cycle 1.
  { erewrite execute_step_at by known_task. simpl. fold (hook_result s t).
    rewrite Hr. reflexivity. }
  unfold stepped, record, set_memory, set_tasks. simpl.
  by rewrite !list_insert_insert_eq, <- !app_assoc.
Qed.

Ltac enter_quantum :=
  unfold _run_task_quantum; returns assign_state_at;
  apply try_finally_block; unfold try_except.

Lemma quantum_done_ok (s : Scheduler) (clk : Clock) (i : nat) (t : Task)
    (l' : list Task) :
  _tasks s !! i = Some t ->
  sr_raised (hook_result s t) = None ->
  _is_task_complete (sr_task (hook_result s t)) = true ->
  ipc.next_fault (_result_queue s) = None ->
  list_remove (done_task s t) (<[i := done_task s t]> (_tasks s)) = Some l' ->
  _run_task_quantum clk i s
  = (fst (finally_block clk
            (settled s i t (done_task s t) (_result_queue s)
               (inc_tasks_completed (METRICS s))
               [StateSet (id (meta (sr_task (hook_result s t)))) DONE] l')),
     Return tt).
Proof.
  intros Hi Hret Hc Hq Hrm. enter_quantum.
  by rewrite (try_block_done_ok s i t l').
Qed.

Lemma quantum_done_retry_ok (s : Scheduler) (clk : Clock) (i : nat) (t : Task)
    (why : string) (l' : list Task) :
  _tasks s !! i = Some t ->
  sr_raised (hook_result s t) = None ->
  _is_task_complete (sr_task (hook_result s t)) = true ->
  ipc.next_fault (_result_queue s) = Some why ->
  ipc.next_fault (ipc.refused (_result_queue s)) = None ->
  let final := failed_task ("send failed: " +:+ why) (done_task s t) in
  list_remove final (<[i := final]> (_tasks s)) = Some l' ->
  _run_task_quantum clk i s
  = (fst (finally_block clk
            (settled s i t final (ipc.refused (_result_queue s))
               (inc_tasks_failed (inc_tasks_completed (METRICS s)))
               [StateSet (id (meta (sr_task (hook_result s t)))) DONE;
                StateSet (id (meta (sr_task (hook_result s t)))) FAILED] l')),
     Return tt).
Proof.
  intros Hi Hret Hc Hq Hq' final Hrm. enter_quantum.
  rewrite (try_block_done_fails s i t why) by done.
  erewrite (except_block_ok _ i (done_task s t)); cycle 1.
  { simpl. by eapply lookup_insert_at. }
  { done. }
  { simpl. rewrite list_insert_insert_eq. exact Hrm. }
  unfold settled, stranded. simpl. by rewrite <- !app_assoc.
Qed.

Lemma quantum_done_retry_fails (s : Scheduler) (clk : Clock) (i : nat) (t : Task)
    (why why' : string) :
  _tasks s !! i = Some t ->
  sr_raised (hook_result s t) = None ->
  _is_task_complete (sr_task (hook_result s t)) = true ->
  ipc.next_fault (_result_queue s) = Some why ->
  ipc.next_fault (ipc.refused (_result_queue s)) = Some why' ->
  _run_task_quantum clk i s
  = (fst (finally_block clk
            (stranded s i t (failed_task ("send failed: " +:+ why) (done_task s t))
               (ipc.refused (ipc.refused (_result_queue s)))
               (inc_tasks_failed (inc_tasks_completed (METRICS s)))
               [StateSet (id (meta (sr_task (hook_result s t)))) DONE;
                StateSet (id (meta (sr_task (hook_result s t)))) FAILED])),
     Raise (IPCError ("send failed: " +:+ why'))).
Proof.
  intros Hi Hret Hc Hq Hq'. enter_quantum.
  rewrite (try_block_done_fails s i t why) by done.
  erewrite (except_block_fails _ i (done_task s t)); cycle 1.
  { simpl. by eapply lookup_insert_at. }
  { exact Hq'. }
  unfold stranded. simpl. by rewrite list_insert_insert_eq, <- !app_assoc.
Qed.

Lemma quantum_raise_ok (s : Scheduler) (clk : Clock) (i : nat) (t : Task)
    (msg : string) (l' : list Task) :
  _tasks s !! i = Some t ->
  sr_raised (hook_result s t) = Some (an_Exception msg) ->
  ipc.next_fault (_result_queue s) = None ->
  let final := failed_task msg (sr_task (hook_result s t)) in
  list_remove final (<[i := final]> (_tasks s)) = Some l' ->
  _run_task_quantum clk i s
  = (fst (finally_block clk
            (settled s i t final (_result_queue s) (inc_tasks_failed (METRICS s))
               [StateSet (id (meta (sr_task (hook_result s t)))) FAILED] l')),
     Return tt).
Proof.
  intros Hi Hr Hq final Hrm. enter_quantum.
  rewrite (try_block_raises s i t msg) by done.
  erewrite (except_block_ok _ i (sr_task (hook_result s t))); cycle 1.
  { simpl. by eapply lookup_insert_at. }
  { done. }
  { simpl. rewrite list_insert_insert_eq. exact Hrm. }
  unfold settled. simpl. by rewrite <- !app_assoc.
Qed.

Lemma quantum_raise_fails (s : Scheduler) (clk : Clock) (i : nat) (t : Task)
    (msg why : string) :
  _tasks s !! i = Some t ->
  sr_raised (hook_result s t) = Some (an_Exception msg) ->
  ipc.next_fault (_result_queue s) = Some why ->
  _run_task_quantum clk i s
  = (fst (finally_block clk
            (stranded s i t (failed_task msg (sr_task (hook_result s t)))
               (ipc.refused (_result_queue s)) (inc_tasks_failed (METRICS s))
               [StateSet (id (meta (sr_task (hook_result s t)))) FAILED])),
     Raise (IPCError ("send failed: " +:+ why))).
Proof.
  intros Hi Hr Hq. enter_quantum.
  rewrite (try_block_raises s i t msg) by done.
  erewrite (except_block_fails _ i (sr_task (hook_result s t))); cycle 1.
  { simpl. by eapply lookup_insert_at. }
  { exact Hq. }
  unfold stranded. simpl. by rewrite list_insert_insert_eq, <- !app_assoc.
Qed.

(** An exception of the hook that is not an [Exception] passes the [except]
    clause: only the [finally] clause runs, and the exception goes on. *)
Lemma quantum_leaves (s : Scheduler) (clk : Clock) (i : nat) (t : Task)
    (msg : string) :
  _tasks s !! i = Some t ->
  sr_raised (hook_result s t) = Some (a_BaseException msg) ->
  _run_task_quantum clk i s
  = (fst (finally_block clk (stepped s i t)), Raise (StepBaseException msg)).
Proof.
  intros Hi Hr. enter_quantum.
  by rewrite (try_block_leaves s i t msg).
Qed.

End quantum.

Section run_once_claims.
Import metrics models scheduler.
Context `{Hooks}.

(** C4. The ready set is exactly the tasks in state [PENDING] or [WAITING].
    When it is empty [run_once] returns and changes nothing.  Otherwise the
    task that [run_once] goes on with is a member of the ready set, no ready
    task has a higher priority, and among the ready tasks of that priority
    none was created earlier. *)
Theorem run_once_selects_by_priority (s : Scheduler) (clk : Clock) :
  (forall i t, (i, t) ∈ ready_tasks (_tasks s) <->
               _tasks s !! i = Some t /\ (state t = PENDING \/ state t = WAITING))
  /\ (ready_tasks (_tasks s) = [] -> run_once clk s = (s, Return tt))
  /\ (ready_tasks (_tasks s) <> [] ->
      exists i t,
        select (_tasks s) = Some (i, t)
        /\ _tasks s !! i = Some t
        /\ (state t = PENDING \/ state t = WAITING)
        /\ (forall j t', _tasks s !! j = Some t' ->
                         state t' = PENDING \/ state t' = WAITING ->
                         priority (meta t') <= priority (meta t)
                         /\ (priority (meta t') = priority (meta t) ->
                             created_at (meta t) <= created_at (meta t')))
        /\ run_once clk s
           = (if deadline_passed clk t then
                assign_state i CANCELLED;;
                modify (set_METRICS inc_tasks_cancelled);;
                _emit_result i;;
                remove_task i;;
                refresh_worker_queue_depth
              else _run_task_quantum clk i) s).
Proof.
  split; [|split].
  - intros i t. rewrite elem_of_ready_tasks. by rewrite is_ready_states.
  - intros Hnone. apply run_once_idle. by apply select_None.
  - intros Hsome. destruct (select (_tasks s)) as [[i t]|] eqn:Hsel.
    + exists i, t. destruct (select_Some _ _ _ Hsel) as (Hi & Hr & Hmax).
      split; [done|]. split; [done|]. split; [by apply is_ready_states|].
      split; [|by apply run_once_selected].
      intros j t' Hj Hr'. apply key_gt_false, (Hmax j); [done|].
      by apply is_ready_states.
    + by apply select_None in Hsel.
Qed.

(** C3, as the code has it.  A task that [run_once] selects while its
    deadline lies strictly in the past is cancelled at once: the only thing
    that happens
    to it is the assignment of [CANCELLED] (it is never [RUNNING], the hook
    is not called, the memory pool is untouched), [tasks_cancelled] grows by
    one and one [put] on the result queue is attempted.  When that [put]
    returns, the message on the queue carries the task's id and the state
    [CANCELLED], the task list is one task shorter (it is the old list
    without the selected task when identifiers are pairwise distinct) and
    [worker_queue_depth] is the new length of the list.  When the [put]
    raises, [run_once] raises [IPCError], no result is emitted, the task
    stays in the list, cancelled, and [worker_queue_depth] is not set. *)
Theorem past_deadline_cancels (s : Scheduler) (clk : Clock) (i : nat) (t : Task)
    (d : Z) :
  select (_tasks s) = Some (i, t) ->
  deadline (meta t) = Some d ->
  d < now clk ->
  let s' := fst (run_once clk s) in
  history s' = history s ++ [StateSet (id (meta t)) CANCELLED]
  /\ _memory s' = _memory s
  /\ c_value (tasks_cancelled (METRICS s')) = c_value (tasks_cancelled (METRICS s)) + 1
  /\ ipc.script (_result_queue s') = tail (ipc.script (_result_queue s))
  /\ (ipc.next_fault (_result_queue s) = None ->
      snd (run_once clk s) = Return tt
      /\ results s'
         = results s
           ++ [{| ipc.type := ipc.TASK_RESULT;
                  ipc.payload := {| ipc.res_id := id (meta t);
                                    ipc.res_owner := owner (meta t);
                                    ipc.res_state := "CANCELLED";
                                    ipc.res_last_error := last_error t |} |}]
      /\ length (_tasks s) = S (length (_tasks s'))
      /\ (NoDup (task_ids s) -> _tasks s' = delete i (_tasks s))
      /\ g_value (worker_queue_depth (METRICS s')) = Z.of_nat (length (_tasks s')))
  /\ (forall why, ipc.next_fault (_result_queue s) = Some why ->
      snd (run_once clk s) = Raise (IPCError ("send failed: " +:+ why))
      /\ results s' = results s
      /\ _tasks s' = <[i := set_state CANCELLED t]> (_tasks s)
      /\ g_value (worker_queue_depth (METRICS s'))
         = g_value (worker_queue_depth (METRICS s))).
Proof.
  intros Hsel Hd Hlt s'.
  destruct (select_Some _ _ _ Hsel) as (Hi & _ & _).
  assert (deadline_passed clk t = true) as Hdl.
  { unfold deadline_passed. rewrite Hd. by apply Z.ltb_lt. }
  destruct (ipc.next_fault (_result_queue s)) as [why|] eqn:Hq; subst s'.
  - rewrite (run_once_cancel_fails s clk i t why) by done. simpl.
    do 4 (split; [done|]). split; [done|].
    intros why' [= <-]. done.
  - destruct (list_remove_elem (set_state CANCELLED t)
                (<[i := set_state CANCELLED t]> (_tasks s))) as [l' Hrm].
    { eapply list_elem_of_lookup_2, lookup_insert_at, Hi. }
    rewrite (run_once_cancel_ok s clk i t _ Hsel Hdl Hq Hrm). simpl.
    do 4 (split; [done|]). split; [|done].
    intros _. split; [done|]. split; [done|]. split; [|split; [|done]].
    + pose proof (list_remove_Permutation _ _ _ Hrm) as Hperm.
      rewrite <- (length_insert (_tasks s) i (set_state CANCELLED t)).
      by rewrite Hperm.
    + intros Hnd.
      assert (list_remove (set_state CANCELLED t)
                (<[i := set_state CANCELLED t]> (_tasks s))
              = Some (delete i (_tasks s))) as Hrm'.
      { erewrite list_remove_at; [|
          rewrite list_fmap_insert; simpl; rewrite list_insert_id; [done|];
          by rewrite list_lookup_fmap, Hi
          | by eapply lookup_insert_at].
        f_equal. clear -Hi. revert i Hi.
        induction (_tasks s) as [|y l IH]; intros [|i] Hi; simplify_eq/=; [done|].
        f_equal. by apply IH. }
      rewrite Hrm in Hrm'. by injection Hrm'.
Qed.

(** C7, as the code has it.  When the hook returns and the completion
    predicate is false, [run_once] returns, no result is emitted, and the
    task stays in the task list in the state in which the hook left it; with
    the predicate as written that state is [WAITING].  [run_once] selects it
    again only from [PENDING] or [WAITING]: left in [RUNNING], it is not
    selected. *)
Theorem incomplete_task_is_kept (s : Scheduler) (clk : Clock) (i : nat) (t : Task) :
  select (_tasks s) = Some (i, t) ->
  deadline_passed clk t = false ->
  sr_raised (hook_result s t) = None ->
  _is_task_complete (sr_task (hook_result s t)) = false ->
  let s' := fst (run_once clk s) in
  let t' := sr_task (hook_result s t) in
  snd (run_once clk s) = Return tt
  /\ _tasks s' = <[i := t']> (_tasks s)
  /\ _tasks s' !! i = Some t'
  /\ results s' = results s
  /\ (forall j u, select (_tasks s') = Some (j, u) ->
                  state u = PENDING \/ state u = WAITING)
  /\ (state t' = RUNNING -> forall u, select (_tasks s') <> Some (i, u))
  /\ (_is_task_complete = default_is_task_complete -> state t' = WAITING).
Proof.
  intros Hsel Hdl Hret Hinc s' t'.
  destruct (select_Some _ _ _ Hsel) as (Hi & _ & _).
  assert (run_once clk s = (fst (finally_block clk (stepped s i t)), Return tt))
    as Hrun.
  { rewrite (run_once_selected _ _ _ _ Hsel), Hdl. by apply quantum_incomplete. }
  subst s'. rewrite Hrun, finally_block_returns. simpl.
  split; [done|]. split; [done|]. split; [by eapply lookup_insert_at|].
  split; [done|]. split; [|split].
  - intros j u Hsel'. apply is_ready_states.
    by destruct (select_Some _ _ _ Hsel') as (_ & Hr & _).
  - intros Hrunning u Hsel'.
    destruct (select_Some _ _ _ Hsel') as (Hi' & Hr & _).
    rewrite (lookup_insert_at _ _ _ _ Hi) in Hi'. simplify_eq.
    apply is_ready_states in Hr as [Hr|Hr]; fold t' in Hr; congruence.
  - intros Hdef. fold t' in Hinc. rewrite Hdef in Hinc.
    unfold default_is_task_complete in Hinc.
    by case_bool_decide.
Qed.

End run_once_claims.

Section run_once_witnesses.
Import metrics models scheduler scenarios.

Lemma run_once_selects_by_priority_witness :
  ready_tasks (_tasks two_tasks) <> []
  /\ exists i t,
       select (_tasks two_tasks) = Some (i, t)
       /\ _tasks two_tasks !! i = Some t
       /\ (state t = PENDING \/ state t = WAITING)
       /\ (forall j t', _tasks two_tasks !! j = Some t' ->
                        state t' = PENDING \/ state t' = WAITING ->
                        priority (meta t') <= priority (meta t)
                        /\ (priority (meta t') = priority (meta t) ->
                            created_at (meta t) <= created_at (meta t')))
       /\ run_once (H := default_hooks) (clock 200) two_tasks
          = (if deadline_passed (clock 200) t then
               assign_state i CANCELLED;;
               modify (set_METRICS inc_tasks_cancelled);;
               _emit_result i;;
               remove_task i;;
               refresh_worker_queue_depth
             else _run_task_quantum (H := default_hooks) (clock 200) i) two_tasks.
Proof.
  assert (ready_tasks (_tasks two_tasks) <> []) as Hne by (vm_compute; discriminate).
  split; [exact Hne|].
  exact (proj2 (proj2 (run_once_selects_by_priority (H := default_hooks)
                         two_tasks (clock 200))) Hne).
Defined.

Lemma past_deadline_cancels_witness :
  let s := one_task [] (Some 150) in
  let s' := fst (run_once (H := default_hooks) (clock 200) s) in
  history s' = history s ++ [StateSet "t1" CANCELLED]
  /\ _memory s' = _memory s
  /\ c_value (tasks_cancelled (METRICS s')) = c_value (tasks_cancelled (METRICS s)) + 1
  /\ ipc.script (_result_queue s') = tail (ipc.script (_result_queue s))
  /\ (ipc.next_fault (_result_queue s) = None ->
      snd (run_once (H := default_hooks) (clock 200) s) = Return tt
      /\ results s'
         = results s
           ++ [{| ipc.type := ipc.TASK_RESULT;
                  ipc.payload := {| ipc.res_id := "t1";
                                    ipc.res_owner := "test-tenant";
                                    ipc.res_state := "CANCELLED";
                                    ipc.res_last_error := None |} |}]
      /\ length (_tasks s) = S (length (_tasks s'))
      /\ (NoDup (task_ids s) -> _tasks s' = delete 0%nat (_tasks s))
      /\ g_value (worker_queue_depth (METRICS s')) = Z.of_nat (length (_tasks s')))
  /\ (forall why, ipc.next_fault (_result_queue s) = Some why ->
      snd (run_once (H := default_hooks) (clock 200) s)
      = Raise (IPCError ("send failed: " +:+ why))
      /\ results s' = results s
      /\ _tasks s' = <[0%nat := set_state CANCELLED (the_task (Some 150))]> (_tasks s)
      /\ g_value (worker_queue_depth (METRICS s'))
         = g_value (worker_queue_depth (METRICS s))).
Proof.
  apply (past_deadline_cancels (H := default_hooks) (one_task [] (Some 150))
           (clock 200) 0 (the_task (Some 150)) 150).
  - reflexivity.
  - reflexivity.
  - simpl. lia.
Defined.

(** C3 as stated fails: when the queue refuses the result of the cancelled
    task, [run_once] raises, no result is emitted and the task is not
    removed from the task list. *)
Lemma cancelled_task_stays_when_the_send_fails :
  let s := one_task [Some "Queue is closed"] (Some 150) in
  let s' := fst (run_once (H := default_hooks) (clock 200) s) in
  select (_tasks s) = Some (0%nat, the_task (Some 150))
  /\ deadline_passed (clock 200) (the_task (Some 150)) = true
  /\ snd (run_once (H := default_hooks) (clock 200) s)
     = Raise (IPCError "send failed: Queue is closed")
  /\ results s' = []
  /\ _tasks s' = [set_state CANCELLED (the_task (Some 150))]
  /\ c_value (tasks_cancelled (METRICS s')) = 1.
Proof. repeat split. Qed.

Lemma incomplete_task_is_kept_witness :
  let s := one_task [] None in
  let s' := fst (run_once (H := parking_hooks) (clock 200) s) in
  let t' := set_state WAITING (the_task None) in
  snd (run_once (H := parking_hooks) (clock 200) s) = Return tt
  /\ _tasks s' = <[0%nat := t']> (_tasks s)
  /\ _tasks s' !! 0%nat = Some t'
  /\ results s' = results s
  /\ (forall j u, select (_tasks s') = Some (j, u) ->
                  state u = PENDING \/ state u = WAITING)
  /\ (state t' = RUNNING -> forall u, select (_tasks s') <> Some (0%nat, u))
  /\ (_is_task_complete (Hooks := parking_hooks) = default_is_task_complete ->
      state t' = WAITING).
Proof.
  apply (incomplete_task_is_kept (H := parking_hooks) (one_task [] None)
           (clock 200) 0 (the_task None)); reflexivity.
Defined.

End run_once_witnesses.

Section results.
Import metrics models scheduler.

Local Abbreviation ids := (fmap (M := list) (fun t : Task => id (meta t))).

Lemma ids_insert (l : list Task) (i : nat) (t final : Task) :
  l !! i = Some t -> id (meta final) = id (meta t) ->
  ids (<[i := final]> l) = ids l.
Proof.
  intros Hi Hid. rewrite list_fmap_insert, Hid.
  apply list_insert_id. by rewrite list_lookup_fmap, Hi.
Qed.

Lemma remove_after_insert (l : list Task) (i : nat) (t final : Task) :
  l !! i = Some t -> exists l', list_remove final (<[i := final]> l) = Some l'.
Proof.
  intros Hi. apply list_remove_elem.
  eapply list_elem_of_lookup_2, lookup_insert_at, Hi.
Qed.

Lemma ids_removed (l l' : list Task) (i : nat) (t final : Task) :
  l !! i = Some t -> id (meta final) = id (meta t) ->
  list_remove final (<[i := final]> l) = Some l' ->
  ids l ≡ₚ id (meta t) :: ids l'.
Proof.
  intros Hi Hid Hrm. rewrite <- (ids_insert l i t final Hi Hid), <- Hid.
  apply list_remove_Permutation in Hrm. by rewrite Hrm.
Qed.

Lemma finally_block_tasks (clk : Clock) (s : Scheduler) :
  _tasks (fst (finally_block clk s)) = _tasks s.
Proof. by rewrite finally_block_returns. Qed.

Lemma finally_block_queue (clk : Clock) (s : Scheduler) :
  _result_queue (fst (finally_block clk s)) = _result_queue s.
Proof. by rewrite finally_block_returns. Qed.

Context `{Hooks}.
Hypothesis Hkeeps : keeps_id H.

Lemma hook_result_id (s : Scheduler) (t : Task) :
  id (meta (sr_task (hook_result s t))) = id (meta t).
Proof. unfold hook_result. by rewrite Hkeeps. Qed.

(** One call of [run_once] either leaves identifiers and results as they
    are, or moves one identifier from the task list to the results, in a
    message that names a terminal state. *)
Lemma run_once_effect (s : Scheduler) (clk : Clock) :
  let s' := fst (run_once clk s) in
  (task_ids s' = task_ids s /\ results s' = results s)
  \/ (exists msg,
        results s' = results s ++ [msg]
        /\ is_terminal_result msg
        /\ task_ids s ≡ₚ ipc.res_id (ipc.payload msg) :: task_ids s').
Proof.
  intros s'. subst s'. unfold task_ids, results.
  destruct (select (_tasks s)) as [[i t]|] eqn:Hsel;
    [|rewrite run_once_idle by done; by left].
  destruct (select_Some _ _ _ Hsel) as (Hi & _ & _).
  pose proof (hook_result_id s t) as Hid.
  destruct (deadline_passed clk t) eqn:Hdl.
  { destruct (ipc.next_fault (_result_queue s)) as [why|] eqn:Hq.
    - rewrite (run_once_cancel_fails s clk i t why) by done. simpl. left.
      split; [|done]. eapply ids_insert; [done|]. simpl. first [done|exact Hid].
    - destruct (remove_after_insert _ i t (set_state CANCELLED t) Hi) as [l' Hrm].
      rewrite (run_once_cancel_ok s clk i t l') by done. simpl. right.
      eexists. split; [reflexivity|]. split.
      + split; [done|]. simpl. set_solver.
      + simpl. by apply (ids_removed _ l' i t (set_state CANCELLED t)). }
  rewrite (run_once_selected _ _ _ _ Hsel), Hdl.
  destruct (sr_raised (hook_result s t)) as [[msg|msg]|] eqn:Hr.
  { destruct (ipc.next_fault (_result_queue s)) as [why|] eqn:Hq.
    - rewrite (quantum_raise_fails s clk i t msg why) by done. simpl.
      rewrite finally_block_tasks, finally_block_queue. simpl. left.
      split; [|done]. eapply ids_insert; [done|]. simpl. first [done|exact Hid].
    - destruct (remove_after_insert _ i t
                  (failed_task msg (sr_task (hook_result s t))) Hi) as [l' Hrm].
      rewrite (quantum_raise_ok s clk i t msg l') by done. simpl.
      rewrite finally_block_tasks, finally_block_queue. simpl. right.
      eexists. split; [reflexivity|]. split.
      + split; [done|]. simpl. set_solver.
      + simpl. rewrite Hid. eapply (ids_removed _ l' i t); [done| |exact Hrm].
        simpl. exact Hid. }
  { rewrite (quantum_leaves s clk i t msg) by done. simpl.
    rewrite finally_block_tasks, finally_block_queue. simpl. left.
    split; [|done]. eapply ids_insert; [done|]. simpl. first [done|exact Hid]. }
  destruct (_is_task_complete (sr_task (hook_result s t))) eqn:Hc; cycle 1.
  { rewrite (quantum_incomplete s clk i t) by done. simpl.
    rewrite finally_block_tasks, finally_block_queue. simpl. left.
    split; [|done]. eapply ids_insert; [done|]. simpl. first [done|exact Hid]. }
  destruct (ipc.next_fault (_result_queue s)) as [why|] eqn:Hq; cycle 1.
  { destruct (remove_after_insert _ i t (done_task s t) Hi) as [l' Hrm].
    rewrite (quantum_done_ok s clk i t l') by done. simpl.
    rewrite finally_block_tasks, finally_block_queue. simpl. right.
    eexists. split; [reflexivity|]. split.
    + split; [done|]. simpl. set_solver.
    + simpl. rewrite Hid. eapply (ids_removed _ l' i t); [done| |exact Hrm].
      simpl. exact Hid. }
  destruct (ipc.next_fault (ipc.refused (_result_queue s))) as [why'|] eqn:Hq'.
  - rewrite (quantum_done_retry_fails s clk i t why why') by done. simpl.
    rewrite finally_block_tasks, finally_block_queue. simpl. left.
    split; [|done]. eapply ids_insert; [done|]. simpl. first [done|exact Hid].
  - destruct (remove_after_insert _ i t
                (failed_task ("send failed: " +:+ why) (done_task s t)) Hi)
      as [l' Hrm].
    rewrite (quantum_done_retry_ok s clk i t why l') by done. simpl.
    rewrite finally_block_tasks, finally_block_queue. simpl. right.
    eexists. split; [reflexivity|]. split.
    + split; [done|]. simpl. set_solver.
    + simpl. rewrite Hid. eapply (ids_removed _ l' i t); [done| |exact Hrm].
      simpl. exact Hid.
Qed.

(** The scheduler itself never touches the pool: after [run_once] the pool is
    the one it started with, or the one in which the hook left it. *)
Lemma run_once_memory (s : Scheduler) (clk : Clock) :
  let s' := fst (run_once clk s) in
  _memory s' = _memory s
  \/ exists i t, select (_tasks s) = Some (i, t)
                 /\ _memory s' = sr_memory (hook_result s t).
Proof.
  intros s'. subst s'.
  destruct (select (_tasks s)) as [[i t]|] eqn:Hsel;
    [|rewrite run_once_idle by done; by left].
  destruct (select_Some _ _ _ Hsel) as (Hi & _ & _).
  destruct (deadline_passed clk t) eqn:Hdl.
  { left. destruct (ipc.next_fault (_result_queue s)) as [why|] eqn:Hq.
    - by rewrite (run_once_cancel_fails s clk i t why).
    - destruct (remove_after_insert _ i t (set_state CANCELLED t) Hi) as [l' Hrm].
      by rewrite (run_once_cancel_ok s clk i t l'). }
  right. exists i, t. split; [done|].
  rewrite (run_once_selected _ _ _ _ Hsel), Hdl.
  destruct (sr_raised (hook_result s t)) as [[msg|msg]|] eqn:Hr.
  { destruct (ipc.next_fault (_result_queue s)) as [why|] eqn:Hq.
    - rewrite (quantum_raise_fails s clk i t msg why) by done.
      by rewrite finally_block_returns.
    - destruct (remove_after_insert _ i t
                  (failed_task msg (sr_task (hook_result s t))) Hi) as [l' Hrm].
      rewrite (quantum_raise_ok s clk i t msg l') by done.
      by rewrite finally_block_returns. }
  { rewrite (quantum_leaves s clk i t msg) by done.
    by rewrite finally_block_returns. }
  destruct (_is_task_complete (sr_task (hook_result s t))) eqn:Hc; cycle 1.
  { rewrite (quantum_incomplete s clk i t) by done.
    by rewrite finally_block_returns. }
  destruct (ipc.next_fault (_result_queue s)) as [why|] eqn:Hq; cycle 1.
  { destruct (remove_after_insert _ i t (done_task s t) Hi) as [l' Hrm].
    rewrite (quantum_done_ok s clk i t l') by done.
    by rewrite finally_block_returns. }
  destruct (ipc.next_fault (ipc.refused (_result_queue s))) as [why'|] eqn:Hq'.
  - rewrite (quantum_done_retry_fails s clk i t why why') by done.
    by rewrite finally_block_returns.
  - destruct (remove_after_insert _ i t
                (failed_task ("send failed: " +:+ why) (done_task s t)) Hi)
      as [l' Hrm].
    rewrite (quantum_done_retry_ok s clk i t why l') by done.
    by rewrite finally_block_returns.
Qed.

End results.

Section runs.
Import metrics models scheduler.

Lemma enqueue_effect (s : Scheduler) (fresh_id : string) (created : Z)
    (payload : Payload) :
  let s' := fst (enqueue_from_payload fresh_id created payload s) in
  task_ids s' = task_ids s ++ [fresh_id]
  /\ results s' = results s
  /\ _result_queue s' = _result_queue s
  /\ exists t, _tasks s' = _tasks s ++ [t] /\ state t = PENDING.
Proof.
  unfold enqueue_from_payload, refresh_worker_queue_depth, task_ids, results.
  unfold_stexn. simpl. rewrite fmap_app. simpl. eauto 10.
Qed.

Lemma run_snoc `{Hooks} (ops : list Op) (op : Op) (s : Scheduler) :
  run (ops ++ [op]) s = step (run ops s) op.
Proof. unfold run. by rewrite foldl_app. Qed.

Lemma run_accounted `{Hooks} (ops : list Op) (s : Scheduler) (submitted : list string) :
  keeps_id H ->
  accounted s submitted ->
  accounted (run ops s) (submitted ++ enqueued_ids ops).
Proof.
  intros Hkeeps Hs. induction ops as [|op ops IH] using rev_ind.
  { by rewrite app_nil_r. }
  rewrite run_snoc. destruct IH as [Hperm Hterm].
  unfold enqueued_ids in *. rewrite omap_app.
  destruct op as [fresh_id created payload|clk]; unfold step; simpl omap.
  - destruct (enqueue_effect (run ops s) fresh_id created payload)
      as (Hids & Hres & _). unfold accounted, result_ids.
    rewrite Hids, Hres. split; [|done].
    unfold result_ids in Hperm. by rewrite !app_assoc, Hperm.
  - rewrite app_nil_r.
    destruct (run_once_effect Hkeeps (run ops s) clk)
      as [[Hids Hres]|(msg & Hres & Hmsg & Hids)]; unfold accounted, result_ids.
    + by rewrite Hids, Hres.
    + rewrite Hres, fmap_app. simpl. split.
      * rewrite <- Hperm. unfold result_ids. rewrite Hids.
        rewrite <- app_assoc. simpl. done.
      * apply Forall_app. split; [done|]. by apply Forall_singleton.
Qed.

Lemma new_accounted (script : list (option string)) (quantum_ms pool_bytes : Z) :
  accounted (scheduler.new (ipc.Queue_new script) quantum_ms pool_bytes) [].
Proof. by split. Qed.

(** *** Draining the task list with the hooks as written *)

Lemma list_remove_insert_fresh (l : list Task) (i : nat) (t final : Task) :
  l !! i = Some t -> final ∉ l ->
  list_remove final (<[i := final]> l) = Some (delete i l).
Proof.
  revert i. induction l as [|y l IH]; intros [|i] Hi Hnotin; simplify_eq/=.
  - by rewrite decide_True.
  - apply not_elem_of_cons in Hnotin as [Hne Hnotin].
    rewrite decide_False by done. by rewrite (IH i Hi Hnotin).
Qed.

Lemma not_ready_fresh (l : list Task) (final : Task) :
  Forall (fun t => is_ready t = true) l -> is_ready final = false -> final ∉ l.
Proof.
  intros Hall Hnot Hin. rewrite Forall_forall in Hall.
  specialize (Hall _ Hin). congruence.
Qed.

Lemma select_is_Some (l : list Task) :
  Forall (fun t => is_ready t = true) l -> l <> [] ->
  exists i t, select l = Some (i, t).
Proof.
  intros Hall Hne. destruct (select l) as [[i t]|] eqn:Hsel; [eauto|].
  apply select_None in Hsel. destruct l as [|t l]; [done|].
  apply Forall_cons in Hall as [Ht _].
  assert ((0%nat, t) ∈ ready_tasks (t :: l)) as Hin
    by by apply elem_of_ready_tasks.
  rewrite Hsel in Hin. by apply elem_of_nil in Hin.
Qed.

Lemma run_once_drains_one (s : Scheduler) (clk : Clock) :
  undisturbed s -> _tasks s <> [] ->
  let s' := fst (run_once (H := default_hooks) clk s) in
  undisturbed s'
  /\ exists i, (i < length (_tasks s))%nat /\ _tasks s' = delete i (_tasks s).
Proof.
  intros [Hall Hscript] Hne s'. subst s'.
  destruct (select_is_Some _ Hall Hne) as (i & t & Hsel).
  destruct (select_Some _ _ _ Hsel) as (Hi & _ & _).
  assert (ipc.next_fault (_result_queue s) = None) as Hq
    by (unfold ipc.next_fault; by rewrite Hscript).
  destruct (deadline_passed clk t) eqn:Hdl.
  - rewrite (run_once_cancel_ok s clk i t (delete i (_tasks s))); try done.
    + simpl. split; [split; simpl; [by apply Forall_delete|by rewrite Hscript]|].
      exists i. split; [by eapply lookup_lt_Some|done].
    + apply (list_remove_insert_fresh _ _ t); [done|].
      by apply not_ready_fresh.
  - rewrite (run_once_selected _ _ _ _ Hsel), Hdl.
    rewrite (quantum_done_ok s clk i t (delete i (_tasks s))); try done.
    + rewrite finally_block_returns. simpl.
      split; [split; simpl; [by apply Forall_delete|by rewrite Hscript]|].
      exists i. split; [by eapply lookup_lt_Some|done].
    + apply (list_remove_insert_fresh _ _ t); [done|].
      by apply not_ready_fresh.
Qed.

Lemma run_undisturbed (ops : list Op) (s : Scheduler) :
  undisturbed s -> undisturbed (run (H := default_hooks) ops s).
Proof.
  intros Hs. induction ops as [|op ops IH] using rev_ind; [done|].
  rewrite run_snoc. destruct op as [fresh_id created payload|clk]; unfold step.
  - destruct (enqueue_effect (run (H := default_hooks) ops s) fresh_id created payload)
      as (_ & _ & Hq & t & Ht & Hst).
    destruct IH as [Hall Hscript]. split; [|by rewrite Hq].
    rewrite Ht. apply Forall_app. split; [done|].
    apply Forall_singleton. by apply is_ready_states; left.
  - destruct (decide (_tasks (run (H := default_hooks) ops s) = [])) as [Hnil|Hne].
    + rewrite run_once_idle; [done|]. by rewrite Hnil.
    + by apply run_once_drains_one.
Qed.

Lemma run_drains (clks : list Clock) (s : Scheduler) :
  undisturbed s ->
  (length (_tasks s) <= length clks)%nat ->
  _tasks (run (H := default_hooks) (RunOnce <$> clks) s) = [].
Proof.
  revert s. induction clks as [|clk clks IH]; intros s Hs Hlen.
  - simpl in *. destruct (_tasks s); [done|simpl in *; lia].
  - change (run (H := default_hooks) (RunOnce <$> clk :: clks) s)
      with (run (H := default_hooks) (RunOnce <$> clks)
              (fst (run_once (H := default_hooks) clk s))).
    simpl in Hlen.
    destruct (decide (_tasks s = [])) as [Hnil|Hne].
    + rewrite run_once_idle by (by rewrite Hnil). simpl.
      apply IH; [done|]. rewrite Hnil. simpl. lia.
    + destruct (run_once_drains_one s clk Hs Hne) as (Hs' & i & Hi & Hdel).
      apply IH; [done|]. rewrite Hdel, length_delete.
      * lia.
      * by apply lookup_lt_is_Some.
Qed.

End runs.

Section submitted_tasks.
Import metrics models scheduler.

Lemma run_app `{Hooks} (ops1 ops2 : list Op) (s : Scheduler) :
  run (ops1 ++ ops2) s = run ops2 (run ops1 s).
Proof. unfold run. by rewrite foldl_app. Qed.

Lemma enqueued_ids_run_once (clks : list Clock) :
  enqueued_ids (RunOnce <$> clks) = [].
Proof. induction clks as [|clk clks IH]; [done|]. exact IH. Qed.

Lemma default_hooks_keep_id : keeps_id default_hooks.
Proof. by intros task pool. Qed.

Lemma idle_forever `{Hooks} (s : Scheduler) (clks : list Clock) :
  select (_tasks s) = None -> run (RunOnce <$> clks) s = s.
Proof.
  intros Hsel. induction clks as [|clk clks IH]; [done|].
  change (run (RunOnce <$> clk :: clks) s)
    with (run (RunOnce <$> clks) (fst (run_once clk s))).
  by rewrite run_once_idle.
Qed.

Lemma accounted_once (s : Scheduler) (submitted : list string) :
  NoDup submitted ->
  accounted s submitted ->
  NoDup (result_ids s) /\ (forall x, x ∈ result_ids s -> x ∉ task_ids s).
Proof.
  intros Hnd [Hperm _]. rewrite <- Hperm in Hnd.
  apply NoDup_app in Hnd as (Hres & Hdisj & _). eauto.
Qed.


End submitted_tasks.

Section scenarios_checked.
Import metrics models scheduler scenarios.



(** C7 as stated fails.  With the completion predicate as written, a task
    whose hook returned and which is not complete is left [WAITING], not
    [RUNNING].  With an overriding predicate it is left [RUNNING], it stays
    in the task list, and no later call of [run_once] selects it. *)
Lemma running_task_is_not_selected_again :
  let s0 := one_task [] None in
  let s1 := fst (run_once (H := parking_hooks) (clock 200) s0) in
  let s2 := fst (run_once (H := multi_step_hooks) (clock 200) s0) in
  (sr_raised (hook_result (H := parking_hooks) s0 (the_task None)) = None
   /\ _is_task_complete (Hooks := parking_hooks)
        (sr_task (hook_result (H := parking_hooks) s0 (the_task None))) = false
   /\ state <$> _tasks s1 = [WAITING])
  /\ (sr_raised (hook_result (H := multi_step_hooks) s0 (the_task None)) = None
      /\ _is_task_complete (Hooks := multi_step_hooks)
           (sr_task (hook_result (H := multi_step_hooks) s0 (the_task None))) = false
      /\ state <$> _tasks s2 = [RUNNING]
      /\ select (_tasks s2) = None
      /\ forall clks, run (H := multi_step_hooks) (RunOnce <$> clks) s2 = s2).
Proof.
  intros s0 s1 s2. repeat split.
  intros clks. by apply idle_forever.
Qed.

(** C5: failing input.  A hook takes a 64-byte region for its task; the task
    completes, its [DONE] result is emitted and it leaves the task list, yet
    the region it owns is still in the pool and still counted, and the
    gauges published after the quantum say so. *)
Theorem regions_of_a_finished_task_are_not_freed :
  let s0 := one_task [] None in
  let s1 := fst (run_once (H := allocating_hooks) (clock 200) s0) in
  ipc.res_state ∘ ipc.payload <$> results s1 = ["DONE"]
  /\ _tasks s1 = []
  /\ memory._regions (_memory s1) !! "t1/stack"
     = Some {| memory.r_id := "t1/stack"; memory.r_owner_task_id := "t1";
               memory.r_size := 64; memory.r_read_only := false |}
  /\ memory.used_bytes (_memory s1) = 64
  /\ g_value (memory_region_count (METRICS s1)) = 1.
Proof. intros s0 s1. repeat split. Qed.

(** C6: failing input.  On the [DONE] path the first [put] raises
    ([queue.Full], whose message is empty) and the second one returns:
    [run_once] returns normally, the task that was [DONE] is reported as
    [FAILED] with the send failure as its [last_error], and it is counted
    both as completed and as failed. *)
Theorem send_failure_on_done_path_is_absorbed :
  let s0 := one_task [Some ""; None] None in
  let s1 := fst (run_once (H := default_hooks) (clock 200) s0) in
  snd (run_once (H := default_hooks) (clock 200) s0) = Return tt
  /\ results s1
     = [{| ipc.type := ipc.TASK_RESULT;
           ipc.payload := {| ipc.res_id := "t1"; ipc.res_owner := "test-tenant";
                             ipc.res_state := "FAILED";
                             ipc.res_last_error := Some "send failed: " |} |}]
  /\ history s1 = [StateSet "t1" RUNNING; Stepped "t1" RUNNING;
                   StateSet "t1" DONE; StateSet "t1" FAILED]
  /\ c_value (tasks_completed (METRICS s1)) = 1
  /\ c_value (tasks_failed (METRICS s1)) = 1.
Proof. intros s0 s1. repeat split. Qed.

(** C8: failing input.  [inc] takes any amount: a negative one makes the
    value of a counter smaller than it was. *)
Theorem counter_decreases_on_negative_amount :
  c_value (counter_apply Counter_new (Inc (-1))) < c_value Counter_new.
Proof. reflexivity. Qed.

(** The increments the scheduler makes, all by one, never lower a counter. *)
Lemma counter_inc_nonnegative (c : Counter) (amount : Z) :
  0 <= amount -> c_value c <= c_value (Counter_inc amount c).
Proof. simpl. lia. Qed.

End scenarios_checked.

(** * More properties of the memory pool *)

Section memory_more.
Import memory.
Context {host : Host}.

Ltac step_pool :=
  unfold call, alloc, bytearray, free, read, write, _require_region, _ensure_owner,
    _ensure_bounds, del_regions, del_storage in *;
  unfold_stexn; simpl in *.

Lemma pool_wf_region (p : MemoryPool) (k : string) (region : Region) :
  pool_wf p -> _regions p !! k = Some region ->
  exists buf, _storage p !! k = Some buf
              /\ r_id region = k
              /\ 0 < r_size region
              /\ Z.of_nat (length buf) = r_size region.
Proof.
  intros Hwf Hk. specialize (Hwf k). rewrite Hk in Hwf.
  destruct (_storage p !! k) as [buf|]; [eauto|done].
Qed.

Lemma pool_wf_absent (p : MemoryPool) (k : string) :
  pool_wf p -> _regions p !! k = None -> _storage p !! k = None.
Proof.
  intros Hwf Hk. specialize (Hwf k). rewrite Hk in Hwf.
  by destruct (_storage p !! k).
Qed.

(** *** Slices inside the bounds *)

Lemma slice_index_inside (len i : Z) :
  0 <= i <= len -> slice_index len i = i.
Proof.
  intros Hi. unfold slice_index. destruct (Z.ltb_spec i 0); lia.
Qed.

Lemma slice_inside {A} (l : list A) (a n : Z) :
  0 <= a -> 0 <= n -> a + n <= Z.of_nat (length l) ->
  slice l a (a + n) = take (Z.to_nat n) (drop (Z.to_nat a) l).
Proof.
  intros Ha Hn Hlen. unfold slice.
  rewrite !slice_index_inside by lia. do 2 f_equal. lia.
Qed.

Lemma slice_assign_inside {A} (l data : list A) (a : Z) :
  0 <= a -> a + Z.of_nat (length data) <= Z.of_nat (length l) ->
  slice_assign l a (a + Z.of_nat (length data)) data
  = take (Z.to_nat a) l ++ data ++ drop (Z.to_nat a + length data) l.
Proof.
  intros Ha Hlen. unfold slice_assign.
  rewrite !slice_index_inside by lia. rewrite Z.max_r by lia.
  do 3 f_equal. lia.
Qed.

Lemma length_slice_assign_inside {A} (l data : list A) (a : Z) :
  0 <= a -> a + Z.of_nat (length data) <= Z.of_nat (length l) ->
  length (slice_assign l a (a + Z.of_nat (length data)) data) = length l.
Proof.
  intros Ha Hlen. rewrite slice_assign_inside by done.
  rewrite !length_app, length_take, length_drop. lia.
Qed.

Lemma slice_of_slice_assign {A} (l data : list A) (a : Z) :
  0 <= a -> a + Z.of_nat (length data) <= Z.of_nat (length l) ->
  slice (slice_assign l a (a + Z.of_nat (length data)) data)
    a (a + Z.of_nat (length data)) = data.
Proof.
  intros Ha Hlen.
  rewrite slice_inside by (rewrite ?length_slice_assign_inside; lia).
  rewrite slice_assign_inside by done.
  rewrite drop_app_length'; [|rewrite length_take; lia].
  rewrite Nat2Z.id. by rewrite take_app_length.
Qed.

(** *** What a call that returned has checked *)

Lemma alloc_returns (rid owner : string) (size : Z) (p p' : MemoryPool)
    (region : Region) :
  alloc rid owner size p = (p', Return region) ->
  0 < size
  /\ _used_bytes p + size <= _max_bytes p
  /\ _regions p !! rid = None
  /\ region = {| r_id := rid; r_owner_task_id := owner; r_size := size;
                 r_read_only := false |}
  /\ p' = set_used_bytes (fun u => u + size)
            (set_storage <[rid := replicate (Z.to_nat size) x00]>
               (set_regions <[rid := region]> p))
  /\ refuses size = None.
Proof.
  intros Halloc. step_pool.
  destruct (Z.leb_spec size 0); [done|].
  destruct (Z.ltb_spec (_max_bytes p) (_used_bytes p + size)); [done|].
  case_bool_decide as Hin; [done|]. simpl in Halloc.
  destruct (refuses size) eqn:Hhost; [done|]. simplify_eq.
  do 2 (split; [lia|]). split; [|done].
  destruct (_regions p !! rid) eqn:E; [|done]. destruct Hin; eauto.
Qed.

Lemma free_returns (rid req : string) (p p' : MemoryPool) :
  free rid req p = (p', Return tt) ->
  exists region buf,
    _regions p !! rid = Some region
    /\ r_owner_task_id region = req
    /\ _storage p !! rid = Some buf
    /\ p' = set_storage (delete rid)
              (set_regions (delete rid)
                 (set_used_bytes (fun u => u - r_size region) p)).
Proof.
  intros Hfree. step_pool.
  destruct (_regions p !! rid) as [region|] eqn:Hreg; [|done]. simpl in *.
  case_bool_decide as Hown; [done|]. simpl in *. rewrite Hreg in Hfree.
  simpl in *. destruct (_storage p !! rid) as [buf|] eqn:Hbuf; [|done].
  assert (r_owner_task_id region = req) as Hreq
    by (destruct (decide (r_owner_task_id region = req)); done).
  simplify_eq. exists region, buf. done.
Qed.

Lemma read_returns (rid : string) (off len : Z) (p p' : MemoryPool)
    (data : list byte) :
  read rid off len p = (p', Return data) ->
  exists region buf,
    _regions p !! rid = Some region
    /\ 0 <= off /\ 0 <= len /\ off + len <= r_size region
    /\ _storage p !! rid = Some buf
    /\ data = slice buf off (off + len)
    /\ p' = p.
Proof.
  intros Hread. step_pool.
  destruct (_regions p !! rid) as [region|] eqn:Hreg; [|done]. simpl in *.
  destruct (Z.ltb_spec off 0); [done|].
  destruct (Z.ltb_spec len 0); [done|].
  destruct (Z.ltb_spec (r_size region) (off + len)); [done|]. simpl in *.
  destruct (_storage p !! rid) as [buf|] eqn:Hbuf; [|done].
  simplify_eq. exists region, buf. repeat split; done.
Qed.

Lemma write_returns (rid req : string) (off : Z) (data : list byte)
    (p p' : MemoryPool) :
  write rid req off data p = (p', Return tt) ->
  exists region buf,
    _regions p !! rid = Some region
    /\ r_read_only region = false
    /\ r_owner_task_id region = req
    /\ 0 <= off /\ off + Z.of_nat (length data) <= r_size region
    /\ _storage p !! rid = Some buf
    /\ p' = set_storage
              <[rid := slice_assign buf off (off + Z.of_nat (length data)) data]> p.
Proof.
  intros Hwrite. step_pool.
  destruct (_regions p !! rid) as [region|] eqn:Hreg; [|done]. simpl in *.
  destruct (r_read_only region) eqn:Hro; [done|].
  case_bool_decide as Hown; [done|]. simpl in *.
  destruct (Z.ltb_spec off 0); [done|].
  destruct (Z.ltb_spec (Z.of_nat (length data)) 0); [done|].
  destruct (Z.ltb_spec (r_size region) (off + Z.of_nat (length data))); [done|].
  simpl in *. destruct (_storage p !! rid) as [buf|] eqn:Hbuf; [|done].
  assert (r_owner_task_id region = req) as Hreq
    by (destruct (decide (r_owner_task_id region = req)); done).
  simplify_eq. exists region, buf. repeat split; done.
Qed.

(** *** Well-formed pools *)

Lemma call_raises_wf (c : Call) (p p' : MemoryPool) (e : Exn) :
  pool_wf p -> call c p = (p', Raise e) ->
  (p' = p /\ exists why, e = MemoryErrorLogical why)
  \/ (exists rid owner size he,
        c = Alloc rid owner size /\ refuses size = Some he /\ e = HostFailure he).
Proof.
  intros Hwf Hcall.
  destruct c as [rid o sz|rid rq|rid off len|rid rq off data]; step_pool;
    [|left..].
  - destruct (sz <=? 0); [simplify_eq; eauto|].
    destruct (_max_bytes p <? _used_bytes p + sz); [simplify_eq; eauto|].
    destruct (bool_decide (is_Some (_regions p !! rid))); [simplify_eq; eauto|].
    simpl in Hcall. destruct (refuses sz) as [he|] eqn:Hhost; [|done].
    simplify_eq. right. by exists rid, o, sz, he.
  - destruct (_regions p !! rid) as [region|] eqn:Hreg; simpl in *;
      [|simplify_eq; eauto].
    destruct (pool_wf_region p rid region Hwf Hreg) as (buf & Hbuf & _).
    case_bool_decide; simpl in *; [simplify_eq; eauto|].
    rewrite Hreg in Hcall. simpl in *. rewrite Hbuf in Hcall. done.
  - destruct (_regions p !! rid) as [region|] eqn:Hreg; simpl in *;
      [|simplify_eq; eauto].
    destruct (pool_wf_region p rid region Hwf Hreg) as (buf & Hbuf & _).
    destruct ((off <? 0) || (len <? 0) || (r_size region <? off + len));
      simpl in *; [simplify_eq; eauto|].
    rewrite Hbuf in Hcall. done.
  - destruct (_regions p !! rid) as [region|] eqn:Hreg; simpl in *;
      [|simplify_eq; eauto].
    destruct (pool_wf_region p rid region Hwf Hreg) as (buf & Hbuf & _).
    destruct (r_read_only region); simpl in *; [simplify_eq; eauto|].
    case_bool_decide; simpl in *; [simplify_eq; eauto|].
    destruct ((off <? 0) || (Z.of_nat (length data) <? 0)
              || (r_size region <? off + Z.of_nat (length data)));
      simpl in *; [simplify_eq; eauto|].
    rewrite Hbuf in Hcall. done.
Qed.

Lemma new_pool_wf (max_bytes : Z) : pool_wf (new max_bytes).
Proof. intros k. simpl. by rewrite !lookup_empty. Qed.

Lemma alloc_keeps_wf (rid owner : string) (size : Z) (p p' : MemoryPool)
    (region : Region) :
  pool_wf p -> alloc rid owner size p = (p', Return region) -> pool_wf p'.
Proof.
  intros Hwf (Hpos & _ & _ & -> & -> & _)%alloc_returns k. simpl.
  destruct (decide (rid = k)) as [->|Hne].
  - rewrite !lookup_insert_eq. simpl. rewrite length_replicate.
    split; [done|]. lia.
  - rewrite !lookup_insert_ne by done. apply Hwf.
Qed.

Lemma free_keeps_wf (rid req : string) (p p' : MemoryPool) :
  pool_wf p -> free rid req p = (p', Return tt) -> pool_wf p'.
Proof.
  intros Hwf (region & buf & _ & _ & _ & ->)%free_returns k. simpl.
  destruct (decide (rid = k)) as [->|Hne].
  - by rewrite !lookup_delete_eq.
  - rewrite !lookup_delete_ne by done. apply Hwf.
Qed.

Lemma write_keeps_wf (rid req : string) (off : Z) (data : list byte)
    (p p' : MemoryPool) :
  pool_wf p -> write rid req off data p = (p', Return tt) -> pool_wf p'.
Proof.
  intros Hwf (region & buf & Hreg & _ & _ & Hoff & Hend & Hbuf & ->)%write_returns k.
  simpl. destruct (decide (rid = k)) as [->|Hne].
  - rewrite lookup_insert_eq, Hreg.
    destruct (pool_wf_region p k region Hwf Hreg) as (buf' & Hbuf' & Hid & Hpos & Hlen).
    simplify_eq. do 2 (split; [done|]).
    rewrite length_slice_assign_inside; [done|done|lia].
  - rewrite lookup_insert_ne by done. apply Hwf.
Qed.

Lemma call_keeps_wf (c : Call) (p : MemoryPool) :
  pool_wf p -> is_host_failure (snd (call c p)) = false -> pool_wf (fst (call c p)).
Proof.
  intros Hwf Hhost. destruct (call c p) as [p' [v|e]] eqn:Hcall; simpl.
  - destruct c as [rid o sz|rid rq|rid off len|rid rq off data];
      unfold call in Hcall; unfold_stexn.
    + destruct (alloc rid o sz p) as [p1 [r|]] eqn:H1; simplify_eq.
      by eapply alloc_keeps_wf.
    + destruct (free rid rq p) as [p1 [[]|]] eqn:H1; simplify_eq.
      by eapply free_keeps_wf.
    + destruct (read rid off len p) as [p1 [d|]] eqn:H1; simplify_eq.
      by apply read_returns in H1 as (? & ? & _ & _ & _ & _ & _ & _ & ->).
    + destruct (write rid rq off data p) as [p1 [[]|]] eqn:H1; simplify_eq.
      by eapply write_keeps_wf.
  - destruct (call_raises_wf c p p' e Hwf Hcall)
      as [[-> _]|(? & ? & ? & ? & _ & _ & ->)]; done.
Qed.

Lemma run_keeps_wf (calls : list Call) (p : MemoryPool) :
  pool_wf p -> host_provides calls p = true -> pool_wf (run calls p).
Proof.
  revert p. induction calls as [|c calls IH]; intros p Hwf Hhost; [done|].
  simpl in *. apply andb_prop in Hhost as [Hc Hrest].
  apply negb_true_iff in Hc. apply IH; [|done]. by apply call_keeps_wf.
Qed.

(** *** What holds whatever the interpreter does *)

Lemma new_pool_sound (max_bytes : Z) : 0 <= max_bytes -> pool_sound (new max_bytes).
Proof.
  intros Hmax. split; [|split]; simpl; [| |done].
  - intros k region. by rewrite lookup_empty.
  - intros k buf. by rewrite lookup_empty.
Qed.

Lemma call_keeps_sound (c : Call) (p : MemoryPool) :
  pool_sound p -> pool_sound (fst (call c p)).
Proof.
  intros (Hreg & Hsto & Hcap).
  destruct c as [rid o sz|rid rq|rid off len|rid rq off data]; step_pool.
  - destruct (Z.leb_spec sz 0); [done|].
    destruct (Z.ltb_spec (_max_bytes p) (_used_bytes p + sz)); [done|].
    case_bool_decide as Hin; [done|]. simpl.
    assert (_regions p !! rid = None) as Hnone.
    { destruct (_regions p !! rid) eqn:E; [|done]. destruct Hin; eauto. }
    assert (_storage p !! rid = None) as Hnobuf.
    { destruct (_storage p !! rid) as [buf|] eqn:E; [|done].
      destruct (Hsto _ _ E) as (region & Hr & _). congruence. }
    destruct (refuses sz) as [he|] eqn:Hhost; simpl.
    + split; [|split]; simpl; [| |done].
      * intros k region. rewrite lookup_insert. case_decide; intros; simplify_eq; eauto.
      * intros k buf Hk. destruct (decide (rid = k)) as [->|Hne]; [congruence|].
        rewrite lookup_insert_ne by done. eauto.
    + split; [|split]; simpl; [| |lia].
      * intros k region. rewrite lookup_insert. case_decide; intros; simplify_eq; eauto.
      * intros k buf. destruct (decide (rid = k)) as [->|Hne].
        -- rewrite !lookup_insert_eq. intros [= <-]. eexists. split; [done|]. simpl.
           rewrite length_replicate. split; [done|lia].
        -- rewrite !lookup_insert_ne by done. eauto.
  - destruct (_regions p !! rid) as [region|] eqn:Hr; [|done]. simpl.
    case_bool_decide; [done|]. simpl. rewrite Hr. simpl.
    destruct (Hreg _ _ Hr) as [_ Hpos].
    destruct (_storage p !! rid) as [buf|] eqn:Hb; simpl.
    + split; [|split]; simpl; [| |lia].
      * intros k region' [_ Hk]%lookup_delete_Some. eauto.
      * intros k buf' [Hne Hk]%lookup_delete_Some.
        rewrite lookup_delete_ne by done. eauto.
    + split; [|split]; simpl; [| |lia].
      * intros k region' [_ Hk]%lookup_delete_Some. eauto.
      * intros k buf' Hk. destruct (decide (rid = k)) as [->|Hne]; [congruence|].
        rewrite lookup_delete_ne by done. eauto.
  - repeat (case_match; simpl in *; simplify_eq); done.
  - destruct (_regions p !! rid) as [region|] eqn:Hr; [|done]. simpl.
    destruct (r_read_only region); [done|].
    case_bool_decide; [done|]. simpl.
    destruct (Z.ltb_spec off 0); [done|].
    destruct (Z.ltb_spec (Z.of_nat (length data)) 0); [done|].
    destruct (Z.ltb_spec (r_size region) (off + Z.of_nat (length data))); [done|].
    simpl. destruct (_storage p !! rid) as [buf|] eqn:Hb; [|done]. simpl.
    split; [|split]; simpl; [done| |done].
    intros k buf'. destruct (decide (rid = k)) as [->|Hne].
    + rewrite lookup_insert_eq. intros [= <-].
      destruct (Hsto _ _ Hb) as (region' & Hr' & Hok & Hlen). simplify_eq.
      eexists. split; [done|]. split; [done|].
      rewrite length_slice_assign_inside; [done|done|lia].
    + rewrite lookup_insert_ne by done. eauto.
Qed.

Lemma run_keeps_sound (calls : list Call) (p : MemoryPool) :
  pool_sound p -> pool_sound (run calls p).
Proof.
  revert p. induction calls as [|c calls IH]; intros p Hok; [done|].
  simpl. apply IH. by apply call_keeps_sound.
Qed.

(** X1. In a well-formed pool, the bytes a write has stored are the bytes
    the read of the same range returns, to any reader. *)
Theorem write_then_read (rid req : string) (off : Z) (data : list byte)
    (p p' : MemoryPool) :
  pool_wf p ->
  write rid req off data p = (p', Return tt) ->
  read rid off (Z.of_nat (length data)) p' = (p', Return data).
Proof.
  intros Hwf (region & buf & Hreg & _ & _ & Hoff & Hend & Hbuf & ->)%write_returns.
  destruct (pool_wf_region p rid region Hwf Hreg) as (buf' & Hbuf' & _ & _ & Hlen).
  simplify_eq. step_pool. rewrite Hreg. simpl.
  destruct (Z.ltb_spec off 0); [lia|].
  destruct (Z.ltb_spec (Z.of_nat (length data)) 0); [lia|].
  destruct (Z.ltb_spec (r_size region) (off + Z.of_nat (length data))); [lia|].
  simpl. rewrite lookup_insert_eq. do 2 f_equal.
  apply slice_of_slice_assign; lia.
Qed.

Lemma lookup_slice_assign_outside {A} (l data : list A) (a : Z) (j : nat) :
  0 <= a -> a + Z.of_nat (length data) <= Z.of_nat (length l) ->
  (j < Z.to_nat a \/ Z.to_nat a + length data <= j)%nat ->
  slice_assign l a (a + Z.of_nat (length data)) data !! j = l !! j.
Proof.
  intros Ha Hlen Hj. rewrite slice_assign_inside by done.
  assert (length (take (Z.to_nat a) l) = Z.to_nat a) as Htake
    by (rewrite length_take; lia).
  destruct Hj as [Hj|Hj].
  - rewrite lookup_app_l by lia. by apply lookup_take_lt.
  - rewrite lookup_app_r by lia. rewrite lookup_app_r by lia.
    rewrite lookup_drop. f_equal. lia.
Qed.

Lemma slice_outside_slice_assign {A} (l data : list A) (a o n : Z) :
  0 <= a -> a + Z.of_nat (length data) <= Z.of_nat (length l) ->
  0 <= o -> 0 <= n -> o + n <= Z.of_nat (length l) ->
  o + n <= a \/ a + Z.of_nat (length data) <= o ->
  slice (slice_assign l a (a + Z.of_nat (length data)) data) o (o + n)
  = slice l o (o + n).
Proof.
  intros Ha Hlen Ho Hn Hon Hdisj.
  rewrite !slice_inside by (rewrite ?length_slice_assign_inside; lia).
  apply list_eq. intros j.
  destruct (decide (j < Z.to_nat n)%nat) as [Hj|Hj].
  - rewrite !lookup_take_lt, !lookup_drop by done.
    apply lookup_slice_assign_outside; [done|done|lia].
  - by rewrite !lookup_take_ge by lia.
Qed.

(** X2. A write changes nothing but the bytes of its range: the accounting
    and the region table are as before, and every read of another region,
    or of a range of the same region that does not meet the written one,
    answers as it did before the write. *)
Theorem write_touches_only_its_range (rid req : string) (off : Z)
    (data : list byte) (p p' : MemoryPool) :
  pool_wf p ->
  write rid req off data p = (p', Return tt) ->
  _used_bytes p' = _used_bytes p
  /\ _max_bytes p' = _max_bytes p
  /\ _regions p' = _regions p
  /\ forall rid' o n,
       rid' <> rid \/ o + n <= off \/ off + Z.of_nat (length data) <= o ->
       snd (read rid' o n p') = snd (read rid' o n p).
Proof.
  intros Hwf (region & buf & Hreg & _ & _ & Hoff & Hend & Hbuf & ->)%write_returns.
  destruct (pool_wf_region p rid region Hwf Hreg) as (buf' & Hbuf' & _ & _ & Hlen).
  simplify_eq. do 3 (split; [done|]).
  intros rid' o n Hdisj. step_pool.
  destruct (_regions p !! rid') as [region'|] eqn:Hreg'; [|done]. simpl.
  destruct (Z.ltb_spec o 0); [done|].
  destruct (Z.ltb_spec n 0); [done|].
  destruct (Z.ltb_spec (r_size region') (o + n)); [done|]. simpl.
  destruct (decide (rid' = rid)) as [->|Hne].
  - simplify_eq. rewrite lookup_insert_eq, Hbuf. simpl. f_equal.
    apply slice_outside_slice_assign; try lia. destruct Hdisj as [?|?]; [done|lia].
  - rewrite lookup_insert_ne by done. by destruct (_storage p !! rid').
Qed.

(** X3. Allocating a region and freeing it again as its owner gives back
    the pool one started from: same accounting, same regions, same
    buffers. *)
Theorem alloc_then_free (rid owner : string) (size : Z) (p p' : MemoryPool)
    (region : Region) :
  pool_wf p ->
  alloc rid owner size p = (p', Return region) ->
  free rid owner p' = (p, Return tt).
Proof.
  intros Hwf (Hpos & Hcap & Hnone & -> & -> & Hhost)%alloc_returns.
  pose proof (pool_wf_absent p rid Hwf Hnone) as Hbuf.
  destruct p as [mx used regs sto]. simpl in *.
  step_pool. unfold set_storage, set_regions, set_used_bytes. simpl.
  rewrite lookup_insert_eq. simpl.
  rewrite bool_decide_eq_false_2 by (by intros Hne). simpl.
  repeat (rewrite lookup_insert_eq; simpl).
  rewrite !delete_insert_id by done.
  do 2 f_equal. lia.
Qed.

(** X4. In a pool built through the API, a region that has just been freed
    can be allocated again under the same identifier and with the same
    size, by any task: the pool is then as full as before the free and holds
    as many regions. *)
Theorem free_then_alloc_again (max_bytes : Z) (calls : list Call)
    (rid req owner : string) (region : Region) (p' : MemoryPool) :
  0 <= max_bytes ->
  let p := run calls (new max_bytes) in
  _regions p !! rid = Some region ->
  free rid req p = (p', Return tt) ->
  exists p'',
    alloc rid owner (r_size region) p'
    = (p'', Return {| r_id := rid; r_owner_task_id := owner;
                      r_size := r_size region; r_read_only := false |})
    /\ used_bytes p'' = used_bytes p
    /\ region_count p'' = region_count p.
Proof.
  intros Hmax p Hreg Hfree.
  destruct (run_keeps_sound calls (new max_bytes) (new_pool_sound _ Hmax))
    as (Hpos & Hsto & Hcap). fold p in Hpos, Hsto, Hcap.
  apply free_returns in Hfree as (region' & buf & Hreg' & _ & Hbuf & ->).
  simplify_eq. destruct (Hpos _ _ Hreg) as [_ Hsize].
  destruct (Hsto _ _ Hbuf) as (region' & Hreg' & Hhost & _). simplify_eq.
  unfold used_bytes in *.
  eexists. step_pool. rewrite lookup_delete_eq.
  destruct (Z.leb_spec (r_size region) 0); [lia|].
  destruct (Z.ltb_spec (_max_bytes p) (_used_bytes p - r_size region + r_size region));
    [lia|].
  rewrite bool_decide_eq_false_2 by (by intros [? ?]). simpl.
  rewrite Hhost. simpl.
  split; [reflexivity|]. simpl. split; [lia|].
  unfold region_count. simpl. rewrite insert_delete_eq.
  rewrite map_size_insert_Some; [done|eauto].
Qed.

(** X5. As long as the interpreter provided every buffer that was asked of
    it, a pool built through the API is well formed, and a call on it either
    returns, or raises [MemoryErrorLogical] and leaves the pool as it was, or
    is an [alloc] whose [bytearray(size)] the interpreter refuses: the
    lookups in [_storage] and the two [del] statements never raise
    [KeyError]. *)
Theorem api_pool_raises_only_memory_errors (max_bytes : Z) (calls : list Call)
    (c : Call) :
  host_provides calls (new max_bytes) = true ->
  let p := run calls (new max_bytes) in
  pool_wf p
  /\ forall p' e, call c p = (p', Raise e) ->
                  (p' = p /\ exists why, e = MemoryErrorLogical why)
                  \/ (exists rid owner size he,
                        c = Alloc rid owner size
                        /\ refuses size = Some he
                        /\ e = HostFailure he).
Proof.
  intros Hhost p.
  assert (pool_wf p) as Hwf by (apply run_keeps_wf; [apply new_pool_wf|done]).
  split; [done|]. intros p' e. by apply call_raises_wf.
Qed.

(** X6. Mutation needs ownership: a [free] that returns was asked for by the
    owner of the region, which is then gone and whose bytes are given back;
    a [write] that returns was asked for by the owner of a region that is
    not read-only, within its bounds. *)
Theorem only_the_owner_mutates (rid req : string) (p p' : MemoryPool) :
  (free rid req p = (p', Return tt) ->
   exists region,
     _regions p !! rid = Some region
     /\ r_owner_task_id region = req
     /\ _regions p' !! rid = None
     /\ _storage p' !! rid = None
     /\ used_bytes p' = used_bytes p - r_size region)
  /\ (forall off data,
        write rid req off data p = (p', Return tt) ->
        exists region,
          _regions p !! rid = Some region
          /\ r_owner_task_id region = req
          /\ r_read_only region = false
          /\ 0 <= off /\ off + Z.of_nat (length data) <= r_size region).
Proof.
  split.
  - intros (region & buf & Hreg & Hown & _ & ->)%free_returns.
    exists region. simpl. by rewrite !lookup_delete_eq.
  - intros off data (region & buf & Hreg & Hro & Hown & Hoff & Hend & _)%write_returns.
    exists region. done.
Qed.

Lemma region_count_le_bytes (m : gmap string Region) :
  (forall k region, m !! k = Some region -> 0 < r_size region) ->
  Z.of_nat (size m) <= map_fold (fun _ r acc => r_size r + acc) 0 m.
Proof.
  induction m as [|k region m Hk IH] using map_ind; intros Hpos.
  - by rewrite map_fold_empty, map_size_empty.
  - rewrite map_fold_insert_L; [|intros; lia|done].
    rewrite map_size_insert_None by done.
    specialize (Hpos k region (lookup_insert_eq _ _ _)) as Hr.
    assert (Z.of_nat (size m) <= map_fold (fun _ r acc => r_size r + acc) 0 m);
      [|lia].
    apply IH. intros k' r' Hk'. apply (Hpos k').
    rewrite lookup_insert_ne; [done|]. intros ->. congruence.
Qed.

(** X7. Every region takes at least one byte, so a pool built through the
    API, as long as the interpreter provided every buffer that was asked of
    it, never holds more regions than it has bytes in use, nor more than its
    capacity. *)
Theorem region_count_is_bounded (max_bytes : Z) (calls : list Call) :
  0 <= max_bytes ->
  host_provides calls (new max_bytes) = true ->
  let p := run calls (new max_bytes) in
  0 <= region_count p <= used_bytes p /\ used_bytes p <= max_bytes.
Proof.
  intros Hmax Hhost p.
  destruct (run_keeps_pool_ok calls (new max_bytes) (new_pool_ok _ Hmax) Hhost)
    as [(Hsum & Hpos & Hcap) Hmb]. fold p in Hsum, Hpos, Hcap, Hmb.
  simpl in Hmb. rewrite Hmb in Hcap. split; [|done].
  split; [unfold region_count; lia|].
  rewrite Hsum. by apply region_count_le_bytes.
Qed.

(** X8. In a well-formed pool a read that returns gives exactly [length]
    bytes and leaves the pool as it was. *)
Theorem read_gives_length_bytes (rid : string) (off len : Z) (p p' : MemoryPool)
    (data : list byte) :
  pool_wf p ->
  read rid off len p = (p', Return data) ->
  p' = p /\ Z.of_nat (length data) = len.
Proof.
  intros Hwf (region & buf & Hreg & Hoff & Hlen & Hend & Hbuf & -> & ->)%read_returns.
  destruct (pool_wf_region p rid region Hwf Hreg) as (buf' & Hbuf' & _ & _ & Hsz).
  simplify_eq. split; [done|].
  rewrite slice_inside by lia. rewrite length_take, length_drop. lia.
Qed.

(** X9. A zero-length read is in bounds at every offset from 0 up to and
    including the size of the region, and returns no bytes. *)
Theorem zero_length_read (rid : string) (off : Z) (p : MemoryPool) (region : Region) :
  pool_wf p ->
  _regions p !! rid = Some region ->
  0 <= off <= r_size region ->
  read rid off 0 p = (p, Return []).
Proof.
  intros Hwf Hreg Hoff.
  destruct (pool_wf_region p rid region Hwf Hreg) as (buf & Hbuf & _ & _ & Hsz).
  step_pool. rewrite Hreg. simpl.
  destruct (Z.ltb_spec off 0); [lia|].
  destruct (Z.ltb_spec (r_size region) (off + 0)); [lia|]. simpl.
  rewrite Hbuf. do 2 f_equal. by rewrite slice_inside by lia.
Qed.

End memory_more.

Section memory_more_witnesses.
Import memory.
#[local] Existing Instance cpython64.

Lemma write_then_read_witness :
  let p := scenarios.pool_r1 in
  let p' := fst (write "r1" "task-a" 3 [x68; x69] p) in
  read "r1" 3 (Z.of_nat (length [x68; x69])) p' = (p', Return [x68; x69]).
Proof.
  apply (write_then_read "r1" "task-a" 3 [x68; x69] scenarios.pool_r1).
  - by apply (run_keeps_wf [Alloc "r1" "task-a" 64] (new 1024)); [apply new_pool_wf|].
  - reflexivity.
Defined.

Lemma write_touches_only_its_range_witness :
  let p := scenarios.pool_r1 in
  let p' := fst (write "r1" "task-a" 3 [x68; x69] p) in
  _used_bytes p' = _used_bytes p
  /\ _max_bytes p' = _max_bytes p
  /\ _regions p' = _regions p
  /\ forall rid' o n,
       rid' <> "r1" \/ o + n <= 3 \/ 3 + Z.of_nat (length [x68; x69]) <= o ->
       snd (read rid' o n p') = snd (read rid' o n p).
Proof.
  apply (write_touches_only_its_range "r1" "task-a" 3 [x68; x69] scenarios.pool_r1).
  - by apply (run_keeps_wf [Alloc "r1" "task-a" 64] (new 1024)); [apply new_pool_wf|].
  - reflexivity.
Defined.

Lemma alloc_then_free_witness :
  free "r2" "task-b" (fst (alloc "r2" "task-b" 16 scenarios.pool_r1))
  = (scenarios.pool_r1, Return tt).
Proof.
  apply (alloc_then_free "r2" "task-b" 16 scenarios.pool_r1 _
           {| r_id := "r2"; r_owner_task_id := "task-b"; r_size := 16;
              r_read_only := false |}).
  - by apply (run_keeps_wf [Alloc "r1" "task-a" 64] (new 1024)); [apply new_pool_wf|].
  - reflexivity.
Defined.

Lemma free_then_alloc_again_witness :
  exists p'',
    alloc "r1" "task-b" 64 (fst (free "r1" "task-a" scenarios.pool_r1))
    = (p'', Return {| r_id := "r1"; r_owner_task_id := "task-b";
                      r_size := 64; r_read_only := false |})
    /\ used_bytes p'' = used_bytes scenarios.pool_r1
    /\ region_count p'' = region_count scenarios.pool_r1.
Proof.
  apply (free_then_alloc_again 1024 [Alloc "r1" "task-a" 64] "r1" "task-a" "task-b"
           {| r_id := "r1"; r_owner_task_id := "task-a"; r_size := 64;
              r_read_only := false |}).
  - lia.
  - reflexivity.
  - reflexivity.
Defined.

Lemma api_pool_raises_only_memory_errors_witness :
  let p := scenarios.pool_r1 in
  pool_wf p
  /\ forall p' e, call (Free "r1" "task-b") p = (p', Raise e) ->
                  (p' = p /\ exists why, e = MemoryErrorLogical why)
                  \/ (exists rid owner size he,
                        Free "r1" "task-b" = Alloc rid owner size
                        /\ refuses size = Some he
                        /\ e = HostFailure he).
Proof.
  apply (api_pool_raises_only_memory_errors 1024 [Alloc "r1" "task-a" 64]
           (Free "r1" "task-b")).
  reflexivity.
Defined.

Lemma only_the_owner_mutates_witness :
  let p := scenarios.pool_r1 in
  let p' := fst (free "r1" "task-a" p) in
  exists region,
    _regions p !! "r1" = Some region
    /\ r_owner_task_id region = "task-a"
    /\ _regions p' !! "r1" = None
    /\ _storage p' !! "r1" = None
    /\ used_bytes p' = used_bytes p - r_size region.
Proof.
  apply (proj1 (only_the_owner_mutates "r1" "task-a" scenarios.pool_r1 _)).
  reflexivity.
Defined.

Lemma region_count_is_bounded_witness :
  let p := run [Alloc "r1" "task-a" 100; Alloc "r2" "task-a" 200;
                Free "r1" "task-a"] (new 1024) in
  0 <= region_count p <= used_bytes p /\ used_bytes p <= 1024.
Proof. apply (region_count_is_bounded 1024); [lia|reflexivity]. Defined.

Lemma read_gives_length_bytes_witness :
  fst (read "r1" 8 5 scenarios.pool_r1) = scenarios.pool_r1
  /\ Z.of_nat (length [x00; x00; x00; x00; x00]) = 5.
Proof.
  apply (read_gives_length_bytes "r1" 8 5 scenarios.pool_r1).
  - by apply (run_keeps_wf [Alloc "r1" "task-a" 64] (new 1024)); [apply new_pool_wf|].
  - reflexivity.
Defined.

Lemma zero_length_read_witness :
  read "r1" 64 0 scenarios.pool_r1 = (scenarios.pool_r1, Return []).
Proof.
  apply (zero_length_read "r1" 64 scenarios.pool_r1
           {| r_id := "r1"; r_owner_task_id := "task-a"; r_size := 64;
              r_read_only := false |}).
  - by apply (run_keeps_wf [Alloc "r1" "task-a" 64] (new 1024)); [apply new_pool_wf|].
  - reflexivity.
  - simpl. lia.
Defined.

End memory_more_witnesses.

(** * More properties of the scheduler *)

Section run_once_spec.
Import metrics models scheduler.
Context `{Hooks}.

Lemma remove_exists (l : list Task) (i : nat) (t final : Task) :
  l !! i = Some t -> exists l', list_remove final (<[i := final]> l) = Some l'.
Proof.
  intros Hi. apply list_remove_elem.
  eapply list_elem_of_lookup_2, lookup_insert_at, Hi.
Qed.

Lemma quantum_spec (s : Scheduler) (clk : Clock) (i : nat) (t : Task) :
  _tasks s !! i = Some t ->
  exists mid o,
    _run_task_quantum clk i s = (fst (finally_block clk mid), o)
    /\ quantum_outcome s i t mid o.
Proof.
  intros Hi.
  destruct (sr_raised (hook_result s t)) as [[msg|msg]|] eqn:Hr.
  { destruct (ipc.next_fault (_result_queue s)) as [why|] eqn:Hq.
    - eexists _, _. split; [by apply (quantum_raise_fails s clk i t msg why)|].
      by constructor.
    - destruct (remove_exists _ i t
                  (failed_task msg (sr_task (hook_result s t))) Hi) as [l' Hrm].
      eexists _, _. split; [by apply (quantum_raise_ok s clk i t msg l')|].
      by constructor. }
  { eexists _, _. split; [by apply (quantum_leaves s clk i t msg)|].
    by constructor. }
  destruct (_is_task_complete (sr_task (hook_result s t))) eqn:Hc; cycle 1.
  { eexists _, _. split; [by apply quantum_incomplete|]. by constructor. }
  destruct (ipc.next_fault (_result_queue s)) as [why|] eqn:Hq; cycle 1.
  { destruct (remove_exists _ i t (done_task s t) Hi) as [l' Hrm].
    eexists _, _. split; [by apply (quantum_done_ok s clk i t l')|].
    by constructor. }
  destruct (ipc.next_fault (ipc.refused (_result_queue s))) as [why'|] eqn:Hq'.
  - eexists _, _.
    split; [by apply (quantum_done_retry_fails s clk i t why why')|].
    by constructor.
  - destruct (remove_exists _ i t
                (failed_task ("send failed: " +:+ why) (done_task s t)) Hi)
      as [l' Hrm].
    eexists _, _. split; [by apply (quantum_done_retry_ok s clk i t why l')|].
    by constructor.
Qed.

(** Every call of [run_once] goes one of the ways listed by
    [run_once_outcome]. *)
Lemma run_once_spec (s : Scheduler) (clk : Clock) :
  run_once_outcome s clk (fst (run_once clk s)) (snd (run_once clk s)).
Proof.
  destruct (select (_tasks s)) as [[i t]|] eqn:Hsel;
    [|rewrite run_once_idle by done; by constructor].
  destruct (select_Some _ _ _ Hsel) as (Hi & _ & _).
  destruct (deadline_passed clk t) eqn:Hdl.
  - destruct (ipc.next_fault (_result_queue s)) as [why|] eqn:Hq.
    + rewrite (run_once_cancel_fails s clk i t why) by done.
      by eapply deadline_cancelled_then_stranded.
    + destruct (remove_exists _ i t (set_state CANCELLED t) Hi) as [l' Hrm].
      rewrite (run_once_cancel_ok s clk i t l') by done.
      by eapply deadline_cancelled.
  - rewrite (run_once_selected _ _ _ _ Hsel), Hdl.
    destruct (quantum_spec s clk i t Hi) as (mid & o & -> & Hq).
    by eapply quantum_run.
Qed.

End run_once_spec.

Ltac run_once_cases s clk :=
  let Hspec := fresh "Hspec" in
  let s' := fresh "s'" in
  let o := fresh "o" in
  pose proof (run_once_spec s clk) as Hspec;
  generalize dependent (snd (scheduler.run_once clk s));
  generalize dependent (fst (scheduler.run_once clk s));
  intros s' o Hspec.

Section scheduler_more.
Import metrics models scheduler.
Context `{Hooks}.

Lemma list_remove_length (x : Task) (l l' : list Task) :
  list_remove x l = Some l' -> length l = S (length l').
Proof.
  intros Hrm%list_remove_Permutation. by rewrite Hrm.
Qed.

(** X10. The only exceptions that leave [run_once] are the [IPCError] of a
    refused send and an exception of the hook whose class is not under
    [Exception] ([SystemExit], [KeyboardInterrupt]); an [Exception] raised
    by the hook never leaves it.  When [run_once] raises, nothing has been
    added to the result queue and no task has left the list. *)
Theorem what_leaves_run_once (s : Scheduler) (clk : Clock) (e : Exception) :
  snd (run_once clk s) = Raise e ->
  ((exists why, e = IPCError ("send failed: " +:+ why))
   \/ (exists i t msg,
         select (_tasks s) = Some (i, t)
         /\ deadline_passed clk t = false
         /\ sr_raised (hook_result s t) = Some (a_BaseException msg)
         /\ e = StepBaseException msg))
  /\ results (fst (run_once clk s)) = results s
  /\ length (_tasks (fst (run_once clk s))) = length (_tasks s).
Proof.
  run_once_cases s clk. intros He.
  destruct Hspec as [| | |i t mid o' Hsel Hdl Hq]; simplify_eq.
  - split; [eauto|]. split; [done|]. simpl. by rewrite length_insert.
  - unfold results. rewrite finally_block_queue, finally_block_tasks.
    inversion Hq; subst; simpl; rewrite length_insert; eauto 10.
Qed.

(** X11. Along any run of a freshly built scheduler, whatever the hooks and
    the result queue do and whether or not [run_once] raises, the gauge
    [worker_queue_depth] is the length of the task list. *)
Theorem queue_depth_gauge_is_exact (script : list (option string))
    (quantum_ms pool_bytes : Z) (ops : list Op) :
  let s := run ops (scheduler.new (ipc.Queue_new script) quantum_ms pool_bytes) in
  g_value (worker_queue_depth (METRICS s)) = Z.of_nat (length (_tasks s)).
Proof.
  intros s. subst s. induction ops as [|op ops IH] using rev_ind; [done|].
  rewrite run_snoc.
  set (s := run ops (scheduler.new (ipc.Queue_new script) quantum_ms pool_bytes)) in *.
  destruct op as [fresh_id created payload|clk]; unfold step; [done|].
  run_once_cases s clk.
  destruct Hspec as [| | |i t mid o' Hsel Hdl Hq]; simpl; try done.
  - by rewrite length_insert.
  - by rewrite finally_block_returns.
Qed.

(** X12. When the hook raises an [Exception], the task is reported as
    [FAILED] with the message of the exception as its [last_error], and
    [tasks_failed] grows by one while [tasks_completed] stays.  If the queue
    takes the message, [run_once] returns and the task has left the list; if
    it refuses it, [run_once] raises [IPCError] and the task stays in the
    list, failed. *)
Theorem hook_exception_fails_the_task (s : Scheduler) (clk : Clock) (i : nat)
    (t : Task) (msg : string) :
  select (_tasks s) = Some (i, t) ->
  deadline_passed clk t = false ->
  sr_raised (hook_result s t) = Some (an_Exception msg) ->
  let s' := fst (run_once clk s) in
  let t' := sr_task (hook_result s t) in
  c_value (tasks_failed (METRICS s')) = c_value (tasks_failed (METRICS s)) + 1
  /\ c_value (tasks_completed (METRICS s')) = c_value (tasks_completed (METRICS s))
  /\ _memory s' = sr_memory (hook_result s t)
  /\ (ipc.next_fault (_result_queue s) = None ->
      snd (run_once clk s) = Return tt
      /\ results s'
         = results s
           ++ [{| ipc.type := ipc.TASK_RESULT;
                  ipc.payload := {| ipc.res_id := id (meta t');
                                    ipc.res_owner := owner (meta t');
                                    ipc.res_state := "FAILED";
                                    ipc.res_last_error := Some msg |} |}]
      /\ length (_tasks s) = S (length (_tasks s'))
      /\ (NoDup (task_ids s) -> id (meta t') = id (meta t) ->
          _tasks s' = delete i (_tasks s)))
  /\ (forall why, ipc.next_fault (_result_queue s) = Some why ->
      snd (run_once clk s) = Raise (IPCError ("send failed: " +:+ why))
      /\ results s' = results s
      /\ _tasks s' = <[i := failed_task msg t']> (_tasks s)).
Proof.
  intros Hsel Hdl Hr s' t'. subst s'.
  destruct (select_Some _ _ _ Hsel) as (Hi & _ & _).
  rewrite (run_once_selected _ _ _ _ Hsel), Hdl.
  destruct (ipc.next_fault (_result_queue s)) as [why|] eqn:Hq.
  - rewrite (quantum_raise_fails s clk i t msg why) by done.
    rewrite finally_block_returns. simpl.
    destruct (_quantum_ms s <? elapsed_ms clk); simpl.
    all: do 3 (split; [done|]); split; [done|]; by intros why' [= <-].
  - destruct (remove_exists _ i t (failed_task msg t') Hi) as [l' Hrm].
    rewrite (quantum_raise_ok s clk i t msg l') by done.
    rewrite finally_block_returns. simpl.
    assert (forall m : _MetricsRegistry,
               c_value (tasks_failed
                          (if _quantum_ms s <? elapsed_ms clk
                           then inc_scheduler_quantum_overruns m else m))
               = c_value (tasks_failed m)
               /\ c_value (tasks_completed
                             (if _quantum_ms s <? elapsed_ms clk
                              then inc_scheduler_quantum_overruns m else m))
                  = c_value (tasks_completed m)) as Hm
      by (intros m; by destruct (_quantum_ms s <? elapsed_ms clk)).
    destruct (Hm (inc_tasks_failed (METRICS s))) as [-> ->]. simpl.
    do 3 (split; [done|]). split; [|done]. intros _.
    do 2 (split; [done|]). split.
    + apply list_remove_length in Hrm. by rewrite length_insert in Hrm.
    + intros Hnd Hid. rewrite list_remove_at with (i := i) in Hrm.
      * simplify_eq. clear -Hi. revert i Hi.
        induction (_tasks s) as [|y l IH]; intros [|i] Hi; simplify_eq/=; [done|].
        f_equal. by apply IH.
      * rewrite list_fmap_insert. simpl. fold t'. rewrite Hid.
        rewrite list_insert_id; [done|]. by rewrite list_lookup_fmap, Hi.
      * by eapply lookup_insert_at.
Qed.

(** X13. When the hook returns and the task is complete, and the queue takes
    the message, the task is reported as [DONE] with the [last_error] the
    hook left, [tasks_completed] grows by one, [tasks_failed] stays, and
    the task has left the list. *)
Theorem completed_task_is_done (s : Scheduler) (clk : Clock) (i : nat) (t : Task) :
  select (_tasks s) = Some (i, t) ->
  deadline_passed clk t = false ->
  sr_raised (hook_result s t) = None ->
  _is_task_complete (sr_task (hook_result s t)) = true ->
  ipc.next_fault (_result_queue s) = None ->
  let s' := fst (run_once clk s) in
  let t' := sr_task (hook_result s t) in
  snd (run_once clk s) = Return tt
  /\ results s'
     = results s
       ++ [{| ipc.type := ipc.TASK_RESULT;
              ipc.payload := {| ipc.res_id := id (meta t');
                                ipc.res_owner := owner (meta t');
                                ipc.res_state := "DONE";
                                ipc.res_last_error := last_error t' |} |}]
  /\ c_value (tasks_completed (METRICS s'))
     = c_value (tasks_completed (METRICS s)) + 1
  /\ c_value (tasks_failed (METRICS s')) = c_value (tasks_failed (METRICS s))
  /\ _memory s' = sr_memory (hook_result s t)
  /\ length (_tasks s) = S (length (_tasks s'))
  /\ (NoDup (task_ids s) -> id (meta t') = id (meta t) ->
      _tasks s' = delete i (_tasks s)).
Proof.
  intros Hsel Hdl Hr Hc Hq s' t'. subst s'.
  destruct (select_Some _ _ _ Hsel) as (Hi & _ & _).
  rewrite (run_once_selected _ _ _ _ Hsel), Hdl.
  destruct (remove_exists _ i t (done_task s t) Hi) as [l' Hrm].
  rewrite (quantum_done_ok s clk i t l') by done.
  rewrite finally_block_returns. simpl.
  assert (forall m : _MetricsRegistry,
             c_value (tasks_failed
                        (if _quantum_ms s <? elapsed_ms clk
                         then inc_scheduler_quantum_overruns m else m))
             = c_value (tasks_failed m)
             /\ c_value (tasks_completed
                           (if _quantum_ms s <? elapsed_ms clk
                            then inc_scheduler_quantum_overruns m else m))
                = c_value (tasks_completed m)) as Hm
    by (intros m; by destruct (_quantum_ms s <? elapsed_ms clk)).
  destruct (Hm (inc_tasks_completed (METRICS s))) as [-> ->]. simpl.
  do 5 (split; [done|]). split.
  - apply list_remove_length in Hrm. by rewrite length_insert in Hrm.
  - intros Hnd Hid. rewrite list_remove_at with (i := i) in Hrm.
    + simplify_eq. clear -Hi. revert i Hi.
      induction (_tasks s) as [|y l IH]; intros [|i] Hi; simplify_eq/=; [done|].
      f_equal. by apply IH.
    + rewrite list_fmap_insert. simpl. fold t'. rewrite Hid.
      rewrite list_insert_id; [done|]. by rewrite list_lookup_fmap, Hi.
    + by eapply lookup_insert_at.
Qed.

Lemma quantum_outcome_quantum_ms (s : Scheduler) (i : nat) (t : Task)
    (mid : Scheduler) (o : outcome Exception unit) :
  quantum_outcome s i t mid o ->
  _quantum_ms mid = _quantum_ms s
  /\ scheduler_quantum_overruns (METRICS mid) = scheduler_quantum_overruns (METRICS s).
Proof. by destruct 1. Qed.

(** X14. The overrun counter grows by one exactly when a quantum was run and
    took longer than [quantum_ms], whatever became of the task and whether
    or not [run_once] raises; it does not move when nothing was ready or
    when the selected task was cancelled for its deadline. *)
Theorem overrun_is_counted_per_quantum (s : Scheduler) (clk : Clock) :
  c_value (scheduler_quantum_overruns (METRICS (fst (run_once clk s))))
  = c_value (scheduler_quantum_overruns (METRICS s))
    + match select (_tasks s) with
      | Some (_, t) =>
          if deadline_passed clk t then 0
          else if _quantum_ms s <? elapsed_ms clk then 1 else 0
      | None => 0
      end.
Proof.
  run_once_cases s clk.
  destruct Hspec as [Hsel|i t l' Hsel Hdl|i t why Hsel Hdl|i t mid o' Hsel Hdl Hq];
    rewrite Hsel; rewrite ?Hdl; simpl; try lia.
  rewrite finally_block_returns. simpl.
  destruct (quantum_outcome_quantum_ms _ _ _ _ _ Hq) as [-> Hov].
  destruct (_quantum_ms s <? elapsed_ms clk); simpl; rewrite Hov; lia.
Qed.

(** X15. After every quantum, whatever became of the task and whether or not
    [run_once] raises, the three gauges are fresh: [memory_used_bytes] and
    [memory_region_count] are those of the pool and [worker_queue_depth] is
    the length of the task list. *)
Theorem gauges_are_fresh_after_a_quantum (s : Scheduler) (clk : Clock) (i : nat)
    (t : Task) :
  select (_tasks s) = Some (i, t) ->
  deadline_passed clk t = false ->
  let s' := fst (run_once clk s) in
  g_value (memory_used_bytes (METRICS s')) = memory.used_bytes (_memory s')
  /\ g_value (memory_region_count (METRICS s')) = memory.region_count (_memory s')
  /\ g_value (worker_queue_depth (METRICS s')) = Z.of_nat (length (_tasks s')).
Proof.
  intros Hsel Hdl s'. subst s'.
  destruct (select_Some _ _ _ Hsel) as (Hi & _ & _).
  rewrite (run_once_selected _ _ _ _ Hsel), Hdl.
  destruct (quantum_spec s clk i t Hi) as (mid & o & -> & _).
  by rewrite finally_block_returns.
Qed.

(** The three counters of settled tasks. *)
Lemma settled_counters_after_finally (clk : Clock) (s : Scheduler) :
  tasks_submitted (METRICS (fst (finally_block clk s))) = tasks_submitted (METRICS s)
  /\ tasks_completed (METRICS (fst (finally_block clk s))) = tasks_completed (METRICS s)
  /\ tasks_failed (METRICS (fst (finally_block clk s))) = tasks_failed (METRICS s)
  /\ tasks_cancelled (METRICS (fst (finally_block clk s))) = tasks_cancelled (METRICS s).
Proof.
  rewrite finally_block_returns. simpl.
  by destruct (_quantum_ms s <? elapsed_ms clk).
Qed.

Lemma no_script_no_fault (q : ipc.Queue) :
  ipc.script q = [] -> ipc.next_fault q = None.
Proof. unfold ipc.next_fault. by intros ->. Qed.

Lemma run_once_keeps_metrics_agree (script0 : list (option string))
    (s : Scheduler) (clk : Clock) :
  metrics_agree script0 s -> metrics_agree script0 (fst (run_once clk s)).
Proof.
  intros (Hsub & Hle & Heq). run_once_cases s clk.
  unfold metrics_agree, settled_count, results in *.
  destruct Hspec as [Hsel|i t l' Hsel Hdl Hq Hrm|i t why Hsel Hdl Hq
                    |i t mid o' Hsel Hdl Hq]; simpl.
  - done.
  - apply list_remove_length in Hrm. rewrite length_insert in Hrm.
    rewrite length_app. simpl. split; [lia|]. split; [lia|].
    intros Hs. destruct (Heq Hs) as [Hscript Hn]. rewrite Hscript. split; [done|lia].
  - rewrite length_insert. split; [lia|]. split; [lia|].
    intros Hs. destruct (Heq Hs) as [Hscript Hn].
    rewrite (no_script_no_fault _ Hscript) in Hq. done.
  - rewrite finally_block_tasks, finally_block_queue.
    destruct (settled_counters_after_finally clk mid) as (-> & -> & -> & ->).
    destruct Hq as [Hr Hc|l' Hr Hc Hq Hrm|why l' Hr Hc Hq Hq' Hrm|why why' Hr Hc Hq Hq'
                   |msg l' Hr Hq Hrm|msg why Hr Hq|msg Hr]; simpl;
      try (apply list_remove_length in Hrm; rewrite length_insert in Hrm);
      rewrite ?length_insert, ?length_app; simpl.
    + done.
    + split; [lia|]. split; [lia|].
      intros Hs. destruct (Heq Hs) as [Hscript Hn]. rewrite Hscript. split; [done|lia].
    + split; [lia|]. split; [lia|].
      intros Hs. destruct (Heq Hs) as [Hscript Hn].
      rewrite (no_script_no_fault _ Hscript) in Hq. done.
    + split; [lia|]. split; [lia|].
      intros Hs. destruct (Heq Hs) as [Hscript Hn].
      rewrite (no_script_no_fault _ Hscript) in Hq. done.
    + split; [lia|]. split; [lia|].
      intros Hs. destruct (Heq Hs) as [Hscript Hn]. rewrite Hscript. split; [done|lia].
    + split; [lia|]. split; [lia|].
      intros Hs. destruct (Heq Hs) as [Hscript Hn].
      rewrite (no_script_no_fault _ Hscript) in Hq. done.
    + done.
Qed.

(** X16. Along any run of a freshly built scheduler, whatever the hooks do:
    [tasks_submitted] is the number of tasks in the list plus the number of
    results on the queue; no result is uncounted, the results being at most
    the tasks counted as completed, failed or cancelled; and when the queue
    takes every message the two numbers are equal. *)
Theorem counters_agree_with_results (script : list (option string))
    (quantum_ms pool_bytes : Z) (ops : list Op) :
  let s := run ops (scheduler.new (ipc.Queue_new script) quantum_ms pool_bytes) in
  c_value (tasks_submitted (METRICS s))
  = Z.of_nat (length (_tasks s)) + Z.of_nat (length (results s))
  /\ Z.of_nat (length (results s)) <= settled_count (METRICS s)
  /\ (script = [] -> Z.of_nat (length (results s)) = settled_count (METRICS s)).
Proof.
  intros s.
  assert (metrics_agree script s) as (Hsub & Hle & Heq).
  { subst s. induction ops as [|op ops IH] using rev_ind.
    - split; [done|]. split; [done|]. by intros ->.
    - rewrite run_snoc.
      destruct op as [fresh_id created payload|clk]; unfold step.
      + destruct IH as (Hsub & Hle & Heq).
        unfold metrics_agree, settled_count, results in *. simpl.
        rewrite length_app. simpl. split; [lia|]. done.
      + by apply run_once_keeps_metrics_agree. }
  do 2 (split; [done|]). intros Hs. by destruct (Heq Hs).
Qed.

Lemma delete_insert_same {A} (l : list A) (i : nat) (x : A) :
  delete i (<[i := x]> l) = delete i l.
Proof.
  revert i. induction l as [|y l IH]; intros [|i]; simpl; [done..|].
  f_equal. apply IH.
Qed.

Lemma removed_is_selected (l l' : list Task) (i : nat) (t final : Task) :
  NoDup ((fun t => id (meta t)) <$> l) ->
  l !! i = Some t ->
  id (meta final) = id (meta t) ->
  list_remove final (<[i := final]> l) = Some l' ->
  l' = delete i l.
Proof.
  intros Hnd Hi Hid Hrm. rewrite list_remove_at with (i := i) in Hrm.
  - simplify_eq. apply delete_insert_same.
  - rewrite list_fmap_insert, Hid.
    rewrite list_insert_id; [done|]. by rewrite list_lookup_fmap, Hi.
  - by eapply lookup_insert_at.
Qed.

(** X17. One call of [run_once] works on one task.  When task identifiers
    are pairwise distinct and the hook keeps the identifier of the task it
    steps, the task list afterwards is the old one with the selected task
    either taken out or replaced, in place, by its new state: every other
    task is where and as it was. *)
Theorem run_once_touches_one_task (s : Scheduler) (clk : Clock) (i : nat) (t : Task) :
  NoDup (task_ids s) ->
  select (_tasks s) = Some (i, t) ->
  id (meta (sr_task (hook_result s t))) = id (meta t) ->
  let s' := fst (run_once clk s) in
  _tasks s' = delete i (_tasks s)
  \/ exists t', _tasks s' = <[i := t']> (_tasks s) /\ id (meta t') = id (meta t).
Proof.
  intros Hnd Hsel Hid s'. subst s'.
  destruct (select_Some _ _ _ Hsel) as (Hi & _ & _).
  run_once_cases s clk.
  destruct Hspec as [Hsel'|i' t0 l' Hsel' Hdl Hq Hrm|i' t0 why Hsel' Hdl Hq
                    |i' t0 mid o' Hsel' Hdl Hq]; simplify_eq; simpl.
  - left. by eapply (removed_is_selected _ _ i t (set_state CANCELLED t)).
  - right. eexists. split; [done|]. done.
  - rewrite finally_block_tasks.
    destruct Hq as [Hr Hc|l' Hr Hc Hq Hrm|why l' Hr Hc Hq Hq' Hrm|why why' Hr Hc Hq Hq'
                   |msg l' Hr Hq Hrm|msg why Hr Hq|msg Hr]; simpl.
    + right. eexists. split; [done|]. done.
    + left. by eapply (removed_is_selected _ _ i t (done_task s t)).
    + left. by eapply (removed_is_selected _ _ i t
                         (failed_task ("send failed: " +:+ why) (done_task s t))).
    + right. eexists. split; [done|]. done.
    + left. by eapply (removed_is_selected _ _ i t
                         (failed_task msg (sr_task (hook_result s t)))).
    + right. eexists. split; [done|]. done.
    + right. eexists. split; [done|]. done.
Qed.

(** X25. An exception of the hook whose class is not under [Exception]
    ([SystemExit], [KeyboardInterrupt]) passes [run_once] untouched: the
    [except] clause does not run, so the task stays in the list as the hook
    left it, no result is sent and none of the counters of settled tasks
    moves; the [finally] clause still runs and refreshes the gauges. *)
Theorem hook_exit_passes_through (s : Scheduler) (clk : Clock) (i : nat)
    (t : Task) (msg : string) :
  select (_tasks s) = Some (i, t) ->
  deadline_passed clk t = false ->
  sr_raised (hook_result s t) = Some (a_BaseException msg) ->
  let s' := fst (run_once clk s) in
  snd (run_once clk s) = Raise (StepBaseException msg)
  /\ _tasks s' = <[i := sr_task (hook_result s t)]> (_tasks s)
  /\ results s' = results s
  /\ ipc.script (_result_queue s') = ipc.script (_result_queue s)
  /\ tasks_completed (METRICS s') = tasks_completed (METRICS s)
  /\ tasks_failed (METRICS s') = tasks_failed (METRICS s)
  /\ tasks_cancelled (METRICS s') = tasks_cancelled (METRICS s)
  /\ _memory s' = sr_memory (hook_result s t)
  /\ g_value (worker_queue_depth (METRICS s')) = Z.of_nat (length (_tasks s'))
  /\ g_value (memory_used_bytes (METRICS s')) = memory.used_bytes (_memory s').
Proof.
  intros Hsel Hdl Hr s'. subst s'.
  destruct (select_Some _ _ _ Hsel) as (Hi & _ & _).
  rewrite (run_once_selected _ _ _ _ Hsel), Hdl.
  rewrite (quantum_leaves s clk i t msg) by done.
  rewrite finally_block_returns. simpl.
  repeat split; by destruct (_quantum_ms s <? elapsed_ms clk).
Qed.

End scheduler_more.

Section tie_break.
Import models scheduler.

(** The candidate that the loop of [max] ends with is strictly greater than
    every item met before it. *)
Lemma max_loop_first (l : list (nat * Task)) (x : nat * Task) :
  let best := foldl (fun best y => if key_gt y.2 best.2 then y else best) x l in
  exists l1 l2,
    x :: l = l1 ++ best :: l2
    /\ forall y, y ∈ l1 -> key_gt best.2 y.2 = true.
Proof.
  revert x. induction l as [|y l IH]; intros x; simpl.
  - exists [], []. split; [done|]. by intros ? ?%elem_of_nil.
  - destruct (key_gt y.2 x.2) eqn:Hgt.
    + destruct (IH y) as (l1 & l2 & Heq & Hall).
      destruct (max_loop_spec l y) as (_ & Hy & _). simpl in Hy.
      exists (x :: l1), l2. split; [simpl; by rewrite Heq|].
      intros z [->|Hz]%elem_of_cons; [|by apply Hall].
      revert Hgt Hy. unfold key_gt. repeat case_match; lia.
    + destruct (IH x) as (l1 & l2 & Heq & Hall).
      destruct l1 as [|x' l1]; simpl in Heq; injection Heq as Hx Hl.
      * exists [], (y :: l). split; [simpl; by rewrite <- Hx|].
        by intros ? ?%elem_of_nil.
      * subst x'. exists (x :: y :: l1), l2. split; [simpl; do 2 f_equal; exact Hl|].
        intros z [->|[->|Hz]%elem_of_cons]%elem_of_cons.
        -- apply Hall. by left.
        -- assert (x ∈ x :: l1) as Hxin by (by left). specialize (Hall x Hxin).
           revert Hgt Hall. unfold key_gt. repeat case_match; lia.
        -- apply Hall. by right.
Qed.

Lemma ready_from_lower_bound (l : list Task) (k j : nat) (u : Task) :
  (j, u) ∈ filter (fun it : nat * Task => is_ready it.2)
             (imap (fun n x => ((k + n)%nat, x)) l) ->
  (k <= j)%nat.
Proof.
  rewrite list_elem_of_filter, elem_of_lookup_imap.
  intros [_ (n & y & Heq & _)]. simplify_eq. lia.
Qed.

(** The ready tasks are listed in the order of the task list. *)
Lemma ready_before (l : list Task) (k : nat) (l1 l2 : list (nat * Task))
    (i j : nat) (t u : Task) :
  filter (fun it : nat * Task => is_ready it.2)
    (imap (fun n x => ((k + n)%nat, x)) l) = l1 ++ (i, t) :: l2 ->
  (j, u) ∈ filter (fun it : nat * Task => is_ready it.2)
             (imap (fun n x => ((k + n)%nat, x)) l) ->
  (j < i)%nat ->
  (j, u) ∈ l1.
Proof.
  revert k l1. induction l as [|x l IH]; intros k l1 Heq Hin Hlt.
  - by apply elem_of_nil in Hin.
  - rewrite imap_cons in Heq, Hin.
    rewrite (imap_ext _ (fun n y => ((S k + n)%nat, y))) in Heq, Hin
      by (intros; simpl; f_equal; lia).
    rewrite filter_cons in Heq, Hin.
    destruct (decide (is_ready ((k + 0)%nat, x).2)) as [Hx|Hx].
    + destruct l1 as [|p l1]; simpl in Heq; simplify_eq.
      * apply elem_of_cons in Hin as [Hin|Hin]; [simplify_eq; lia|].
        apply ready_from_lower_bound in Hin. lia.
      * apply elem_of_cons in Hin as [Hin|Hin]; [simplify_eq; by left|].
        right. by apply (IH (S k)).
    + by apply (IH (S k)).
Qed.

(** X18. Among ready tasks of equal priority and equal creation time the one
    enqueued first is selected: no ready task with the key of the selected
    one stands before it in the task list. *)
Theorem equal_keys_first_enqueued_wins (tasks : list Task) (i j : nat) (t u : Task) :
  select tasks = Some (i, t) ->
  tasks !! j = Some u ->
  state u = PENDING \/ state u = WAITING ->
  priority (meta u) = priority (meta t) ->
  created_at (meta u) = created_at (meta t) ->
  (i <= j)%nat.
Proof.
  intros Hsel Hj Hready Hp Hc.
  destruct (decide (i <= j)%nat) as [|Hlt]; [done|]. exfalso.
  assert ((j, u) ∈ ready_tasks tasks) as Hin.
  { apply elem_of_ready_tasks. split; [done|]. by apply is_ready_states. }
  unfold select, py_max in Hsel.
  destruct (ready_tasks tasks) as [|x l] eqn:Hrt; [done|].
  injection Hsel as Hbest.
  destruct (max_loop_first l x) as (l1 & l2 & Heq & Hall). simpl in Heq, Hall.
  rewrite Hbest in Heq, Hall.
  assert ((j, u) ∈ l1) as Hin1.
  { apply (ready_before tasks 0 l1 l2 i j t u); [| |lia].
    - rewrite <- Heq. exact Hrt.
    - change ((j, u) ∈ ready_tasks tasks). by rewrite Hrt. }
  specialize (Hall _ Hin1). simpl in Hall.
  revert Hall. unfold key_gt. rewrite Hp, Hc. repeat case_match; lia.
Qed.

End tie_break.

(** * Sending, receiving and collecting *)

Section transport_facts.
Import metrics models.

(** The scheduler's own send is [ipc.send] on its result queue. *)
Lemma scheduler_send_is_transport_send (msg : ipc.Message) (s : scheduler.Scheduler) :
  scheduler.send msg s
  = (scheduler.set_result_queue
       (fst (transport.send msg (scheduler._result_queue s))) s,
     snd (transport.send msg (scheduler._result_queue s))).
Proof.
  unfold scheduler.send, transport.send.
  by destruct (ipc.put msg (scheduler._result_queue s)) as [q [[]|why]].
Qed.

(** A message whose send returned is queued behind every message already
    there, and [recv] hands out the oldest message and takes it off the
    queue. *)
Lemma recv_after_send_is_fifo (q : ipc.Queue) (msg : ipc.Message) :
  ipc.next_fault q = None ->
  exists q1 q2 oldest,
    transport.send msg q = (q1, Return tt)
    /\ transport.recv q1 = (q2, Return oldest)
    /\ oldest :: ipc.items q2 = ipc.items q ++ [msg]
    /\ ipc.script q2 = tail (ipc.script q).
Proof.
  intros Hq. exists (ipc.delivered msg q).
  unfold transport.send, ipc.put. rewrite Hq.
  unfold transport.recv, transport.get, ipc.delivered. simpl.
  destruct (ipc.items q) as [|m rest]; simpl; eexists _, _; done.
Qed.

Lemma collect_loop_spec (n : nat) (acc : list ipc.ResultPayload) (q : ipc.Queue) :
  let k := Nat.min n (length (ipc.items q)) in
  supervisor.collect_loop n acc q
  = ({| ipc.items := drop k (ipc.items q); ipc.script := ipc.script q |},
     Return (acc ++ (ipc.payload
                       <$> filter (fun m => supervisor.is_task_result (ipc.type m))
                             (take k (ipc.items q))))).
Proof.
  revert acc q. induction n as [|n IH]; intros acc q; simpl.
  - unfold_stexn. rewrite app_nil_r. by destruct q.
  - unfold transport.recv, transport.get.
    destruct q as [[|m rest] script]; simpl.
    + by rewrite app_nil_r.
    + rewrite IH. simpl. rewrite filter_cons.
      destruct (supervisor.is_task_result (ipc.type m)) eqn:Hm; simpl.
      * by rewrite <- app_assoc.
      * done.
Qed.

(** X19. [collect_results] never raises.  It takes the first
    [min(max_results, len)] messages off the queue, oldest first, and
    returns the payloads of those among them that are [TASK_RESULT]
    messages, in order; messages of another type are taken off and dropped,
    and what lies beyond stays on the queue. *)
Theorem collect_results_takes_a_prefix (max_results : Z) (q : ipc.Queue) :
  let k := Nat.min (Z.to_nat max_results) (length (ipc.items q)) in
  supervisor.collect_results max_results q
  = ({| ipc.items := drop k (ipc.items q); ipc.script := ipc.script q |},
     Return (ipc.payload
               <$> filter (fun m => supervisor.is_task_result (ipc.type m))
                     (take k (ipc.items q)))).
Proof. intros k. unfold supervisor.collect_results. by rewrite collect_loop_spec. Qed.

(** X20. Of a batch submitted call by call until one raises, the task queue
    gains the messages of the payloads submitted before the first failure,
    in order, [tasks_submitted] grows by exactly their number, and the batch
    went through exactly if all of it is queued.  A refused send and a
    supervisor that is not started queue and count nothing. *)
Theorem submitted_counter_counts_queued_messages (payloads : list Payload)
    (sup : supervisor.Supervisor) :
  let sup' := fst (submit_all payloads sup) in
  exists n : nat,
    (n <= length payloads)%nat
    /\ supervisor.tq_items (supervisor._task_queue sup')
       = supervisor.tq_items (supervisor._task_queue sup)
         ++ ((fun payload => {| supervisor.tm_type := ipc.TASK_SUBMIT;
                                supervisor.tm_payload := payload |})
               <$> take n payloads)
    /\ c_value (tasks_submitted (supervisor.METRICS sup'))
       = c_value (tasks_submitted (supervisor.METRICS sup)) + Z.of_nat n
    /\ (snd (submit_all payloads sup) = Return tt <-> n = length payloads)
    /\ (supervisor._started sup = false -> n = 0%nat).
Proof.
  revert sup. induction payloads as [|payload payloads IH]; intros sup.
  { exists 0%nat. simpl. rewrite app_nil_r. repeat split; try done. lia. }
  destruct sup as [started [items script] rq m].
  cbn [submit_all]. unfold supervisor.submit_task, supervisor.send_task.
  unfold_stexn. simpl.
  destruct started; simpl.
  2:{ exists 0%nat. simpl. rewrite app_nil_r. repeat split; try done; lia. }
  destruct script as [|[why|] rest]; simpl.
  2:{ exists 0%nat. simpl. rewrite app_nil_r. repeat split; try done; lia. }
  all: match goal with
       | |- context [submit_all ?ps ?sup1] =>
           destruct (IH sup1) as (n & Hn & Hitems & Hcount & Hret & _);
           destruct (submit_all ps sup1) as [sup2 o]
       end;
       simpl in *; exists (S n); simpl; rewrite Hitems, Hcount, <- app_assoc;
       repeat split; try done; try lia;
       [intros Ho; f_equal; by apply Hret | intros [= Hlen]; by apply Hret].
Qed.

End transport_facts.

(** * The worker loop *)

Section worker_default.
Import metrics models scheduler worker.

Lemma enqueue_returns (s : Scheduler) (fresh : string) (created : Z)
    (payload : Payload) :
  enqueue_from_payload fresh created payload s
  = ({| _tasks := _tasks s ++ [new_task fresh created payload];
        _result_queue := _result_queue s;
        _quantum_ms := _quantum_ms s;
        _memory := _memory s;
        METRICS := set_worker_queue_depth
                     (Z.of_nat (length (_tasks s ++ [new_task fresh created payload])))
                     (inc_tasks_submitted (METRICS s));
        history := history s |},
     Return tt).
Proof. reflexivity. Qed.

Lemma select_single_pending (t : Task) :
  state t = PENDING -> select [t] = Some (0%nat, t).
Proof.
  intros Hst. unfold select, ready_tasks. simpl. rewrite filter_cons. simpl.
  rewrite decide_True; [done|].
  unfold is_ready. by rewrite Hst.
Qed.

Lemma list_remove_single (t : Task) : list_remove t [t] = Some [].
Proof. simpl. by rewrite decide_True. Qed.

(** With the hooks as written and a queue that takes every message, a call
    of [run_once] on a scheduler that holds one pending task answers it. *)
Lemma run_once_answers_single (s : Scheduler) (clk : Clock) (t : Task) :
  _tasks s = [t] -> state t = PENDING ->
  ipc.script (_result_queue s) = [] ->
  exists s' m,
    run_once (H := default_hooks) clk s = (s', Return tt)
    /\ _tasks s' = []
    /\ ipc.script (_result_queue s') = []
    /\ results s' = results s ++ [m]
    /\ ipc.res_id (ipc.payload m) = id (meta t)
    /\ answered_ok m.
Proof.
  intros Htasks Hst Hscript.
  assert (select (_tasks s) = Some (0%nat, t)) as Hsel
    by (rewrite Htasks; by apply select_single_pending).
  assert (ipc.next_fault (_result_queue s) = None) as Hq
    by by apply no_script_no_fault.
  destruct (deadline_passed clk t) eqn:Hdl.
  - eexists _, _. split.
    + apply (run_once_cancel_ok (H := default_hooks) s clk 0 t []); try done.
      rewrite Htasks. simpl. by rewrite decide_True.
    + simpl. rewrite Hscript. repeat split; try done. by right.
  - rewrite (run_once_selected _ _ _ _ Hsel), Hdl.
    rewrite (quantum_done_ok (H := default_hooks) s clk 0 t []); try done.
    + rewrite finally_block_returns. eexists _, _. split; [done|]. simpl.
      rewrite Hscript. repeat split; try done. by left.
    + by rewrite Htasks.
    + rewrite Htasks. simpl. by rewrite decide_True.
Qed.

Lemma submissions_cons (p : Poll) (rest : list Poll) :
  submissions (p :: rest)
  = if is_shutdown p then [] else submissions [p] ++ submissions rest.
Proof.
  simpl. destruct (is_shutdown p); [done|].
  destruct (received p) as [|msg]; [done|].
  by destruct (supervisor.tm_type msg).
Qed.

(** One turn of the loop of a worker that has nothing pending. *)
Lemma quiet_turn (p : Poll) (s : Scheduler) :
  _tasks s = [] ->
  ipc.script (_result_queue s) = [] ->
  exists s',
    loop_body (H := default_hooks) p s = (s', Return (negb (is_shutdown p)))
    /\ _tasks s' = []
    /\ ipc.script (_result_queue s') = []
    /\ (if is_shutdown p then s' = s
        else result_ids s' = result_ids s ++ submissions [p]
             /\ (Forall answered_ok (results s) -> Forall answered_ok (results s'))).
Proof.
  intros Htasks Hscript.
  assert (run_once (H := default_hooks) (clk p) s = (s, Return tt)) as Hidle
    by (apply run_once_idle; by rewrite Htasks).
  unfold loop_body, is_shutdown, submissions, is_shutdown.
  destruct (received p) as [|msg] eqn:Hrecv; simpl.
  { unfold_stexn. rewrite Hidle. exists s. rewrite app_nil_r. done. }
  destruct (supervisor.tm_type msg) eqn:Htype; simpl.
  - set (s1 := fst (enqueue_from_payload (fresh_id p) (created p)
                      (supervisor.tm_payload msg) s)).
    assert (enqueue_from_payload (fresh_id p) (created p)
              (supervisor.tm_payload msg) s = (s1, Return tt)) as Henq
      by reflexivity.
    rewrite (bind_Return _ _ _ _ _ Henq).
    destruct (run_once_answers_single s1 (clk p)
                (new_task (fresh_id p) (created p) (supervisor.tm_payload msg)))
      as (s' & m & Hrun & Ht & Hs & Hres & Hid & Hok).
    { subst s1. simpl. by rewrite Htasks. }
    { done. }
    { done. }
    exists s'. rewrite (bind_Return _ _ _ _ _ Hrun). split; [done|].
    do 2 (split; [done|]). unfold result_ids. rewrite Hres. simpl.
    rewrite fmap_app. simpl. rewrite Hid. split; [done|].
    intros Hall. apply Forall_app. split; [done|]. by apply Forall_singleton.
  - unfold_stexn. rewrite Hidle. exists s. rewrite app_nil_r. done.
  - unfold_stexn. rewrite Hidle. exists s. rewrite app_nil_r. done.
  - case_decide as Hact.
    + rewrite bool_decide_eq_true_2 by done. exists s. done.
    + rewrite bool_decide_eq_false_2 by done. exists s. rewrite app_nil_r. done.
Qed.

Lemma quiet_loop (polls : list Poll) (s : Scheduler) :
  _tasks s = [] ->
  ipc.script (_result_queue s) = [] ->
  let s' := fst (worker_loop (H := default_hooks) polls s) in
  snd (worker_loop (H := default_hooks) polls s)
  = (if existsb is_shutdown polls then Stopped else Polling)
  /\ _tasks s' = []
  /\ result_ids s' = result_ids s ++ submissions polls
  /\ (Forall answered_ok (results s) -> Forall answered_ok (results s')).
Proof.
  revert s. induction polls as [|p polls IH]; intros s Htasks Hscript.
  { simpl. by rewrite app_nil_r. }
  destruct (quiet_turn p s Htasks Hscript) as (s1 & Hbody & Ht1 & Hs1 & Hrest).
  rewrite submissions_cons.
  cbn [worker_loop existsb]. rewrite Hbody.
  destruct (is_shutdown p); simpl.
  - subst s1. rewrite app_nil_r. done.
  - destruct Hrest as [Hids Hok].
    destruct (IH s1 Ht1 Hs1) as (Hst & Ht & Hids' & Hok').
    split; [done|]. split; [done|]. split; [|by auto].
    rewrite Hids', Hids. by rewrite <- app_assoc.
Qed.

(** X21. A worker with the hooks as written, whose result queue takes every
    message, answers each submission in the turn in which it receives it:
    after any sequence of turns the task list is empty, the results on the
    queue are those of the submissions received before the first shutdown
    message, one each and in the order of arrival, each [DONE] or
    [CANCELLED]; the worker never crashes and has stopped exactly if a
    shutdown message was among the turns. *)
Theorem worker_answers_in_order (quantum_ms pool_bytes : Z) (polls : list Poll) :
  let w := worker_main (H := default_hooks) (ipc.Queue_new []) quantum_ms pool_bytes
             polls in
  snd w = (if existsb is_shutdown polls then Stopped else Polling)
  /\ _tasks (fst w) = []
  /\ result_ids (fst w) = submissions polls
  /\ Forall answered_ok (results (fst w)).
Proof.
  intros w. subst w. unfold worker_main.
  destruct (quiet_loop polls
              (scheduler.new (ipc.Queue_new []) quantum_ms pool_bytes))
    as (Hst & Ht & Hids & Hok); [done..|].
  do 3 (split; [done|]). by apply Hok.
Qed.

End worker_default.

Section worker_any_hooks.
Import metrics models scheduler worker.
Context `{Hooks}.

Lemma run_once_raise_is_fatal (s : Scheduler) (clk : Clock) (s' : Scheduler)
    (e : Exception) :
  run_once clk s = (s', Raise e) -> fatal e.
Proof.
  intros Hrun. pose proof (run_once_spec s clk) as Hspec. rewrite Hrun in Hspec.
  simpl in Hspec. unfold fatal.
  inversion Hspec as [| | |i t mid o' Hsel Hdl Hq]; subst; eauto.
  inversion Hq; subst; eauto 10.
Qed.

Lemma loop_body_shutdown (p : Poll) (s : Scheduler) :
  is_shutdown p = true -> loop_body p s = (s, Return false).
Proof.
  unfold is_shutdown, loop_body. destruct (received p) as [|msg]; [done|].
  destruct (supervisor.tm_type msg); try done.
  intros Hact%bool_decide_eq_true_1. by rewrite decide_True.
Qed.

Lemma worker_loop_app (pre post : list Poll) (s : Scheduler) :
  worker_loop (pre ++ post) s
  = match worker_loop pre s with
    | (s', Polling) => worker_loop post s'
    | ended => ended
    end.
Proof.
  revert s. induction pre as [|p pre IH]; intros s; simpl.
  - by destruct (worker_loop post s).
  - destruct (loop_body p s) as [s1 [[|]|e]]; [apply IH|done..].
Qed.

(** X22. A shutdown message ends the loop at once and for good: the turn
    that receives it leaves the scheduler as it was, without another call of
    [run_once], so tasks still in the list get no result, and nothing that
    arrives afterwards is looked at. *)
Theorem shutdown_ends_the_loop (pre post : list Poll) (p : Poll) (s : Scheduler) :
  is_shutdown p = true ->
  worker_loop (pre ++ p :: post) s = worker_loop (pre ++ [p]) s
  /\ (snd (worker_loop pre s) = Polling ->
      worker_loop (pre ++ p :: post) s = (fst (worker_loop pre s), Stopped)).
Proof.
  intros Hp. rewrite !worker_loop_app.
  destruct (worker_loop pre s) as [s1 [| |e]]; simpl;
    rewrite ?(loop_body_shutdown p s1 Hp); done.
Qed.

(** X23. No [Exception] that a hook raises takes the worker down.  For
    submissions whose [meta] block has the types of [MetaDict], if the loop
    ends in a crash, the exception is the [IPCError] of a refused send on the
    result queue, or an exception that a hook raised and whose class is not
    under [Exception] ([SystemExit], [KeyboardInterrupt]). *)
Theorem what_takes_a_worker_down (polls : list Poll) (s s' : Scheduler)
    (e : Exception) :
  worker_loop polls s = (s', Crashed e) ->
  (exists why, e = IPCError ("send failed: " +:+ why))
  \/ (exists task pool msg,
        sr_raised (_execute_step task pool) = Some (a_BaseException msg)
        /\ e = StepBaseException msg).
Proof.
  change (worker_loop polls s = (s', Crashed e) -> fatal e).
  revert s. induction polls as [|p polls IH]; intros s; simpl; [done|].
  destruct (loop_body p s) as [s1 [[|]|e1]] eqn:Hbody; [by apply IH|done|].
  intros [= -> ->]. revert Hbody. unfold loop_body.
  destruct (received p) as [|msg].
  - unfold_stexn. destruct (run_once (clk p) s) as [s2 [[]|e2]] eqn:Hrun; [done|].
    intros [= -> ->]. by eapply run_once_raise_is_fatal.
  - destruct (supervisor.tm_type msg).
    + rewrite (bind_Return _ _ _ _ _ (enqueue_returns s _ _ _)).
      unfold_stexn.
      match goal with
      | |- context [run_once ?c ?s1] =>
          destruct (run_once c s1) as [s2 [[]|e2]] eqn:Hrun; [done|]
      end.
      intros [= -> ->]. by eapply run_once_raise_is_fatal.
    + unfold_stexn. destruct (run_once (clk p) s) as [s2 [[]|e2]] eqn:Hrun; [done|].
      intros [= -> ->]. by eapply run_once_raise_is_fatal.
    + unfold_stexn. destruct (run_once (clk p) s) as [s2 [[]|e2]] eqn:Hrun; [done|].
      intros [= -> ->]. by eapply run_once_raise_is_fatal.
    + by case_decide.
Qed.

End worker_any_hooks.

Section round_trip.
Import metrics models scheduler worker.

Lemma submit_all_queues (payloads : list Payload) (sup : supervisor.Supervisor) :
  supervisor._started sup = true ->
  supervisor.tq_script (supervisor._task_queue sup) = [] ->
  let sup' := fst (submit_all payloads sup) in
  snd (submit_all payloads sup) = Return tt
  /\ supervisor.tq_items (supervisor._task_queue sup')
     = supervisor.tq_items (supervisor._task_queue sup)
       ++ ((fun payload => {| supervisor.tm_type := ipc.TASK_SUBMIT;
                              supervisor.tm_payload := payload |}) <$> payloads)
  /\ c_value (tasks_submitted (supervisor.METRICS sup'))
     = c_value (tasks_submitted (supervisor.METRICS sup)) + Z.of_nat (length payloads).
Proof.
  revert sup. induction payloads as [|payload payloads IH]; intros sup Hst Hscript.
  { simpl. rewrite app_nil_r. split; [done|]. split; [done|]. lia. }
  destruct sup as [started [items script] rq m]. simpl in Hst, Hscript. subst.
  cbn [submit_all]. unfold supervisor.submit_task, supervisor.send_task.
  unfold_stexn. simpl.
  match goal with
  | |- context [submit_all payloads ?sup1] =>
      destruct (IH sup1) as (Hret & Hitems & Hcount); [done..|];
      destruct (submit_all payloads sup1) as [sup2 o]
  end.
  simpl in *. subst o. split; [done|]. rewrite Hitems, Hcount.
  rewrite <- app_assoc. split; [done|]. lia.
Qed.

Lemma only_submissions_received (polls : list Poll) (payloads : list Payload) :
  received_messages polls
  = ((fun payload => {| supervisor.tm_type := ipc.TASK_SUBMIT;
                        supervisor.tm_payload := payload |}) <$> payloads) ->
  existsb is_shutdown polls = false
  /\ length (submissions polls) = length payloads.
Proof.
  revert payloads. induction polls as [|p polls IH]; intros payloads.
  { destruct payloads; [done|]. discriminate. }
  unfold received_messages. cbn [omap list_omap existsb submissions].
  unfold is_shutdown at 1 3.
  destruct (received p) as [|msg]; simpl.
  { apply IH. }
  destruct payloads as [|payload payloads]; [discriminate|].
  intros [= -> Hrest]. simpl. destruct (IH _ Hrest) as [Hno Hlen].
  split; [done|]. by rewrite Hlen.
Qed.

(** X24. From submission to collection.  A started supervisor whose task
    queue is empty and takes every message submits a batch of payloads; a
    worker with the hooks as written receives exactly the queued messages,
    with any number of timeouts in between; then [collect_results], asked
    for as many results as there were payloads, returns one result for each
    payload, in the order of submission, each [DONE] or [CANCELLED], and
    leaves the result queue empty. *)
Theorem submitted_tasks_are_answered (payloads : list Payload) (polls : list Poll)
    (quantum_ms pool_bytes : Z) (sup : supervisor.Supervisor) :
  supervisor._started sup = true ->
  supervisor.tq_items (supervisor._task_queue sup) = [] ->
  supervisor.tq_script (supervisor._task_queue sup) = [] ->
  received_messages polls
  = supervisor.tq_items (supervisor._task_queue (fst (submit_all payloads sup))) ->
  let w := worker_main (H := default_hooks) (ipc.Queue_new []) quantum_ms pool_bytes
             polls in
  exists rs,
    snd (submit_all payloads sup) = Return tt
    /\ supervisor.collect_results (Z.of_nat (length payloads))
         (_result_queue (fst w))
       = (ipc.Queue_new [], Return rs)
    /\ length rs = length payloads
    /\ ipc.res_id <$> rs = submissions polls
    /\ Forall (fun r => ipc.res_state r = "DONE" \/ ipc.res_state r = "CANCELLED") rs.
Proof.
  intros Hst Hitems Hscript Hpolls w.
  destruct (submit_all_queues payloads sup Hst Hscript) as (Hret & Hq & _).
  rewrite Hitems in Hq. simpl in Hq. rewrite Hq in Hpolls.
  destruct (only_submissions_received polls payloads Hpolls) as [Hno Hlen].
  subst w. unfold worker_main.
  set (s0 := scheduler.new (ipc.Queue_new []) quantum_ms pool_bytes).
  destruct (quiet_loop polls s0) as (_ & _ & Hids & Hok); [done..|].
  assert (ipc.script (_result_queue (fst (worker_loop (H := default_hooks) polls s0)))
          = []) as Hs.
  { clear Hids Hok Hno Hlen Hpolls.
    assert (_tasks s0 = []) as Ht0 by done.
    assert (ipc.script (_result_queue s0) = []) as Hs0 by done.
    revert Ht0 Hs0. generalize s0. clear s0.
    induction polls as [|p polls IH]; intros s Ht0 Hs0; [done|].
    destruct (quiet_turn p s Ht0 Hs0) as (s1 & Hbody & Ht1 & Hs1 & _).
    cbn [worker_loop]. rewrite Hbody.
    destruct (is_shutdown p); simpl; [done|]. by apply IH. }
  specialize (Hok (Forall_nil_2 _)).
  set (s1 := fst (worker_loop (H := default_hooks) polls s0)) in *.
  change (result_ids s0) with (@nil string) in Hids. simpl in Hids.
  assert (length (results s1) = length payloads) as Hn.
  { rewrite <- Hlen, <- Hids. unfold result_ids. by rewrite length_fmap. }
  exists (ipc.payload <$> results s1).
  split; [done|]. split; [|split; [|split]].
  - unfold supervisor.collect_results. rewrite collect_loop_spec.
    unfold results in *. rewrite Nat2Z.id, Hn, Nat.min_id, Hs.
    rewrite <- Hn at 1. rewrite drop_all. rewrite <- Hn, firstn_all.
    simpl. do 3 f_equal.
    clear Hn Hids. induction Hok as [|m l [Hm _] _ IH]; [done|].
    rewrite filter_cons. unfold supervisor.is_task_result at 1. rewrite Hm.
    simpl. by rewrite IH.
  - by rewrite length_fmap.
  - rewrite <- Hids. unfold result_ids. by rewrite <- list_fmap_compose.
  - apply Forall_fmap. eapply Forall_impl; [exact Hok|]. by intros m [_ Hm].
Qed.

End round_trip.

Section more_witnesses.
Import metrics models scheduler scenarios.

Lemma what_leaves_run_once_witness :
  let s := one_task [Some "Queue is closed"; Some "Queue is closed"] None in
  ((exists why,
       IPCError "send failed: Queue is closed" = IPCError ("send failed: " +:+ why))
   \/ (exists i t msg,
         select (_tasks s) = Some (i, t)
         /\ deadline_passed (clock 200) t = false
         /\ sr_raised (hook_result (H := default_hooks) s t)
            = Some (a_BaseException msg)
         /\ IPCError "send failed: Queue is closed" = StepBaseException msg))
  /\ results (fst (run_once (H := default_hooks) (clock 200) s)) = results s
  /\ length (_tasks (fst (run_once (H := default_hooks) (clock 200) s)))
     = length (_tasks s).
Proof.
  apply (what_leaves_run_once (H := default_hooks)). reflexivity.
Defined.

Lemma hook_exit_passes_through_witness :
  let s := one_task [] None in
  let s' := fst (run_once (H := more_scenarios.exiting_hooks) (clock 200) s) in
  snd (run_once (H := more_scenarios.exiting_hooks) (clock 200) s)
  = Raise (StepBaseException "bye")
  /\ state <$> _tasks s' = [RUNNING]
  /\ results s' = []
  /\ tasks_failed (METRICS s') = tasks_failed (METRICS s).
Proof.
  destruct (hook_exit_passes_through (H := more_scenarios.exiting_hooks)
              (one_task [] None) (clock 200) 0 (the_task None) "bye")
    as (Hraise & Htasks & Hres & _ & _ & Hfailed & _); [reflexivity..|].
  split; [exact Hraise|]. split; [by rewrite Htasks|].
  split; [exact Hres|exact Hfailed].
Defined.

Lemma hook_exception_fails_the_task_witness :
  let s := one_task [] None in
  let s' := fst (run_once (H := more_scenarios.failing_hooks) (clock 200) s) in
  c_value (tasks_failed (METRICS s')) = c_value (tasks_failed (METRICS s)) + 1
  /\ snd (run_once (H := more_scenarios.failing_hooks) (clock 200) s) = Return tt
  /\ results s'
     = [{| ipc.type := ipc.TASK_RESULT;
           ipc.payload := {| ipc.res_id := "t1"; ipc.res_owner := "test-tenant";
                             ipc.res_state := "FAILED";
                             ipc.res_last_error := Some "simulated failure" |} |}]
  /\ _tasks s' = [].
Proof.
  destruct (hook_exception_fails_the_task (H := more_scenarios.failing_hooks)
              (one_task [] None) (clock 200) 0 (the_task None) "simulated failure")
    as (Hfailed & _ & _ & Hok & _); [reflexivity..|].
  destruct (Hok eq_refl) as (Hret & Hres & _ & Hdel).
  split; [exact Hfailed|]. split; [exact Hret|]. split; [exact Hres|].
  apply Hdel; [|reflexivity]. apply NoDup_singleton.
Defined.

Lemma completed_task_is_done_witness :
  let s := one_task [] None in
  let s' := fst (run_once (H := default_hooks) (clock 200) s) in
  snd (run_once (H := default_hooks) (clock 200) s) = Return tt
  /\ results s'
     = [{| ipc.type := ipc.TASK_RESULT;
           ipc.payload := {| ipc.res_id := "t1"; ipc.res_owner := "test-tenant";
                             ipc.res_state := "DONE";
                             ipc.res_last_error := None |} |}]
  /\ c_value (tasks_completed (METRICS s')) = 1.
Proof.
  destruct (completed_task_is_done (H := default_hooks) (one_task [] None)
              (clock 200) 0 (the_task None))
    as (Hret & Hres & Hdone & _); [reflexivity..|].
  split; [exact Hret|]. split; [exact Hres|]. exact Hdone.
Defined.

Lemma gauges_are_fresh_after_a_quantum_witness :
  let s := one_task [] None in
  let s' := fst (run_once (H := allocating_hooks) (clock 200) s) in
  g_value (memory_used_bytes (METRICS s')) = memory.used_bytes (_memory s')
  /\ g_value (memory_region_count (METRICS s')) = memory.region_count (_memory s')
  /\ g_value (worker_queue_depth (METRICS s')) = Z.of_nat (length (_tasks s')).
Proof.
  apply (gauges_are_fresh_after_a_quantum (H := allocating_hooks) (one_task [] None)
           (clock 200) 0 (the_task None)); reflexivity.
Defined.

Lemma counters_agree_with_results_witness :
  let s := run (H := default_hooks)
             [Enqueue "a" 1 (test_payload "a" 0 None); RunOnce (clock 2);
              Enqueue "b" 3 (test_payload "b" 0 None)]
             (scheduler.new (ipc.Queue_new []) 10 1024) in
  Z.of_nat (length (results s)) = settled_count (METRICS s).
Proof.
  destruct (counters_agree_with_results (H := default_hooks) [] 10 1024
              [Enqueue "a" 1 (test_payload "a" 0 None); RunOnce (clock 2);
               Enqueue "b" 3 (test_payload "b" 0 None)])
    as (_ & _ & Heq).
  exact (Heq eq_refl).
Defined.

Lemma run_once_touches_one_task_witness :
  let s := two_tasks in
  let s' := fst (run_once (H := parking_hooks) (clock 200) s) in
  _tasks s' = delete 1%nat (_tasks s)
  \/ exists t', _tasks s' = <[1%nat := t']> (_tasks s) /\ id (meta t') = "high".
Proof.
  apply (run_once_touches_one_task (H := parking_hooks) two_tasks (clock 200) 1
           {| meta := {| id := "high"; owner := "test-tenant"; priority := 50;
                         created_at := 101; deadline := None; labels := [];
                         resource_hints := [] |};
              payload := test_payload "high" 50 None;
              state := PENDING;
              last_error := None |}).
  - change (NoDup ["low"; "high"]). apply NoDup_cons. split; [|apply NoDup_singleton].
    intros Hin%list_elem_of_singleton. discriminate.
  - reflexivity.
  - reflexivity.
Defined.

Lemma equal_keys_first_enqueued_wins_witness : (0 <= 1)%nat.
Proof.
  apply (equal_keys_first_enqueued_wins
           [the_task None; the_task (Some 5)] 0 1 (the_task None) (the_task (Some 5)));
    try reflexivity.
  by left.
Defined.

Lemma shutdown_ends_the_loop_witness :
  let stop := {| worker.received :=
                   worker.Got {| supervisor.tm_type := ipc.CONTROL;
                                 supervisor.tm_payload :=
                                   {| p_meta := None;
                                      p_rest := [("action", "shutdown")] |} |};
                 worker.fresh_id := "unused"; worker.created := 0;
                 worker.clk := clock 1 |} in
  let late := {| worker.received :=
                   worker.Got {| supervisor.tm_type := ipc.TASK_SUBMIT;
                                 supervisor.tm_payload := test_payload "late" 0 None |};
                 worker.fresh_id := "late"; worker.created := 2;
                 worker.clk := clock 3 |} in
  worker.worker_loop (H := default_hooks) ([] ++ stop :: [late]) (one_task [] None)
  = (one_task [] None, worker.Stopped).
Proof.
  intros stop late.
  destruct (shutdown_ends_the_loop (H := default_hooks) [] [late] stop
              (one_task [] None)) as [_ Hstop]; [reflexivity|].
  exact (Hstop eq_refl).
Defined.

Lemma what_takes_a_worker_down_witness :
  let submit := {| worker.received :=
                     worker.Got {| supervisor.tm_type := ipc.TASK_SUBMIT;
                                   supervisor.tm_payload := test_payload "t" 0 None |};
                   worker.fresh_id := "t"; worker.created := 2;
                   worker.clk := clock 3 |} in
  (exists why,
      IPCError "send failed: Queue is closed" = IPCError ("send failed: " +:+ why))
  \/ (exists task pool msg,
        sr_raised (_execute_step (Hooks := default_hooks) task pool)
        = Some (a_BaseException msg)
        /\ IPCError "send failed: Queue is closed" = StepBaseException msg).
Proof.
  intros submit.
  apply (what_takes_a_worker_down (H := default_hooks) [submit]
           (fixture [Some "Queue is closed"; Some "Queue is closed"])
           (fst (worker.worker_loop (H := default_hooks) [submit]
                   (fixture [Some "Queue is closed"; Some "Queue is closed"])))).
  vm_compute. reflexivity.
Defined.

Lemma submitted_tasks_are_answered_witness :
  let payloads := [test_payload "a" 0 None; test_payload "b" 5 None] in
  let sup := {| supervisor._started := true;
                supervisor._task_queue :=
                  {| supervisor.tq_items := []; supervisor.tq_script := [] |};
                supervisor._result_queue := ipc.Queue_new [];
                supervisor.METRICS := METRICS_init |} in
  let poll r i c := {| worker.received := r; worker.fresh_id := i;
                       worker.created := c; worker.clk := clock (c + 1) |} in
  let polls :=
    [poll (worker.Got {| supervisor.tm_type := ipc.TASK_SUBMIT;
                         supervisor.tm_payload := test_payload "a" 0 None |}) "a" 1;
     poll worker.Timeout "unused" 3;
     poll (worker.Got {| supervisor.tm_type := ipc.TASK_SUBMIT;
                         supervisor.tm_payload := test_payload "b" 5 None |}) "b" 5] in
  exists rs,
    snd (submit_all payloads sup) = Return tt
    /\ supervisor.collect_results 2
         (_result_queue (fst (worker.worker_main (H := default_hooks)
                                (ipc.Queue_new []) 10 1024 polls)))
       = (ipc.Queue_new [], Return rs)
    /\ length rs = 2%nat
    /\ ipc.res_id <$> rs = ["a"; "b"]
    /\ Forall (fun r => ipc.res_state r = "DONE" \/ ipc.res_state r = "CANCELLED") rs.
Proof.
  intros payloads sup poll polls.
  apply (submitted_tasks_are_answered payloads polls 10 1024 sup); reflexivity.
Defined.

Lemma submitted_counter_counts_queued_messages_witness :
  let payloads := [test_payload "a" 0 None; test_payload "b" 5 None] in
  let sup := {| supervisor._started := true;
                supervisor._task_queue :=
                  {| supervisor.tq_items := [];
                     supervisor.tq_script := [None; Some "Full"] |};
                supervisor._result_queue := ipc.Queue_new [];
                supervisor.METRICS := METRICS_init |} in
  let sup' := fst (submit_all payloads sup) in
  exists n : nat,
    (n <= length payloads)%nat
    /\ supervisor.tq_items (supervisor._task_queue sup')
       = supervisor.tq_items (supervisor._task_queue sup)
         ++ ((fun payload => {| supervisor.tm_type := ipc.TASK_SUBMIT;
                                supervisor.tm_payload := payload |})
               <$> take n payloads)
    /\ c_value (tasks_submitted (supervisor.METRICS sup'))
       = c_value (tasks_submitted (supervisor.METRICS sup)) + Z.of_nat n
    /\ (snd (submit_all payloads sup) = Return tt <-> n = length payloads)
    /\ (supervisor._started sup = false -> n = 0%nat).
Proof.
  intros payloads sup.
  apply (submitted_counter_counts_queued_messages payloads sup).
Defined.

End more_witnesses.
